(** * Contract viewer: citation extraction, match resolution, highlight navigation

    A shallow embedding of the text-to-highlight pipeline of the contract
    viewer (chat interface, PDF text extractor, contract viewer state, PDF
    text layer search and the chat API route), with the properties of its
    specification stated and settled against the embedded code.

    JavaScript strings are sequences of UTF-16 code units.  The embedding
    works on code units below 256 (the Latin-1 range), represented by
    [ascii]; on that range [toLowerCase], [trim], [\s], [\d] and [.] are
    modelled exactly. *)

From Stdlib Require Import Ascii String DecimalString DecimalNat DecimalPos DecimalN.
From Stdlib Require Import ZArith NArith Lia Bool Arith List.
Import ListNotations.

Set Implicit Arguments.

(** ** JavaScript string primitives *)

Module JS.

Definition str := list ascii.

(** String literals of the source are written [lit "..."]. *)
Definition lit (s : string) : str := list_ascii_of_string s.

Definition LF : ascii := "010"%char.
Definition DQUOTE : ascii := "034"%char.

Definition code (c : ascii) : N := N_of_ascii c.

(** [\s] and the characters removed by [trim]: TAB, LF, VT, FF, CR, SP, NBSP. *)
Definition isWhiteSpace (c : ascii) : bool :=
  let n := code c in
  ((9 <=? n) && (n <=? 13) || (n =? 32) || (n =? 160))%N.

(** [.] matches everything but the line terminators LF and CR. *)
Definition isLineTerminator (c : ascii) : bool :=
  let n := code c in ((n =? 10) || (n =? 13))%N.

Definition isDigit (c : ascii) : bool :=
  let n := code c in ((48 <=? n) && (n <=? 57))%N.

Definition toLowerChar (c : ascii) : ascii :=
  let n := code c in
  if ((65 <=? n) && (n <=? 90) || (192 <=? n) && (n <=? 222) && negb (n =? 215))%N
  then ascii_of_N (n + 32) else c.

(** [String.prototype.toLowerCase] on code units below 256: one code
    unit for each, so the length of the text is kept.  On UTF-16 code
    units that is not so; what depends on it is stated in
    [TextLayerSearch], for any lower-casing. *)
Definition toLowerCase (s : str) : str := map toLowerChar s.

Fixpoint trimStart (s : str) : str :=
  match s with
  | c :: s' => if isWhiteSpace c then trimStart s' else s
  | [] => []
  end.

Definition trimEnd (s : str) : str := rev (trimStart (rev s)).

Definition trim (s : str) : str := trimEnd (trimStart s).

(** [s.replace(/\s+/g, ' ')]: every maximal run of white space becomes one
    space.  [inRun] tells that the previous character was white space. *)
Fixpoint collapseFrom (inRun : bool) (s : str) : str :=
  match s with
  | [] => []
  | c :: s' =>
      if isWhiteSpace c
      then (if inRun then collapseFrom true s' else " "%char :: collapseFrom true s')
      else c :: collapseFrom false s'
  end.

Definition collapseWhitespace (s : str) : str := collapseFrom false s.

Definition eqc (a b : ascii) : bool := Ascii.eqb a b.

(** [stripPrefix p s] is the rest of [s] after its prefix [p], if [p] is one. *)
Fixpoint stripPrefix (p s : str) : option str :=
  match p with
  | [] => Some s
  | a :: p' =>
      match s with
      | b :: s' => if eqc a b then stripPrefix p' s' else None
      | [] => None
      end
  end.

Definition startsWith (p s : str) : bool :=
  match stripPrefix p s with Some _ => true | None => false end.

(** First occurrence of [needle] in [hay], counted from [pos]. *)
Fixpoint findAt (needle hay : str) (pos : nat) : option nat :=
  if startsWith needle hay then Some pos
  else match hay with
       | [] => None
       | _ :: hay' => findAt needle hay' (S pos)
       end.

(** [hay.indexOf(needle, from)], [None] standing for -1.  The start
    position is clamped to the length, so an empty needle is found at
    [min from (length hay)]. *)
Definition indexOf (needle hay : str) (from : nat) : option nat :=
  let start := Nat.min from (length hay) in
  findAt needle (skipn start hay) start.

(** [s.substring(0, e)]. *)
Definition substring0 (s : str) (e : nat) : str := firstn e s.

(** [s.includes(p)]. *)
Definition includes (p s : str) : bool :=
  match indexOf p s 0 with Some _ => true | None => false end.

(** Decimal printing of a non-negative integer, as in a template literal. *)
Definition natToString (n : nat) : str :=
  lit (NilEmpty.string_of_uint (Nat.to_uint n)).

Definition NToString (n : N) : str :=
  lit (NilEmpty.string_of_uint (N.to_uint n)).

Definition digitValue (c : ascii) : N := (code c - 48)%N.

(** [parseInt] on a string of decimal digits, exact.  The engine gives
    the same number for values below 2^53 and the nearest double above;
    a statement about all numbers carries that bound. *)
Definition parseDigits (s : str) : N :=
  fold_left (fun acc c => (10 * acc + digitValue c)%N) s 0%N.

(** [xs.join(sep)]. *)
Fixpoint join (sep : str) (xs : list str) : str :=
  match xs with
  | [] => []
  | [x] => x
  | x :: rest => x ++ sep ++ join sep rest
  end.

(** [needle] occurs in [hay] at offset [length before]. *)
Definition occursIn (needle hay : str) : Prop :=
  exists before after, hay = before ++ needle ++ after.

(** [a === b] on strings. *)
Definition strEqb (a b : str) : bool :=
  match stripPrefix a b with Some [] => true | _ => false end.

(** [s.replace(pattern, by)] with a string for pattern: the first
    occurrence only. *)
Definition replaceFirst (pattern by_ s : str) : str :=
  match indexOf pattern s 0 with
  | Some i => firstn i s ++ by_ ++ skipn (i + length pattern) s
  | None => s
  end.

End JS.

(** ** Backtracking matchers for the regular expressions of the source

    Each quantifier takes the continuation [k] of the pattern that follows
    it and returns the text it matched together with the continuation's
    result, trying alternatives in the order of a backtracking engine. *)

Module Regex.
Import JS.

Section Quantifiers.
Variable R : Type.
Variable ok : ascii -> bool.
Variable k : str -> option R.

(** [X*?] followed by [k]: the continuation is tried first. *)
Fixpoint lazyStar (s : str) : option (str * R) :=
  match k s with
  | Some r => Some ([], r)
  | None =>
      match s with
      | c :: s' =>
          if ok c
          then match lazyStar s' with
               | Some (m, r) => Some (c :: m, r)
               | None => None
               end
          else None
      | [] => None
      end
  end.

(** [X*] followed by [k]: the longest run is tried first. *)
Fixpoint greedyStar (s : str) : option (str * R) :=
  let stop := match k s with Some r => Some ([], r) | None => None end in
  match s with
  | c :: s' =>
      if ok c
      then match greedyStar s' with
           | Some (m, r) => Some (c :: m, r)
           | None => stop
           end
      else stop
  | [] => stop
  end.

(** [X+] followed by [k]. *)
Definition greedyPlus (s : str) : option (str * R) :=
  match s with
  | c :: s' =>
      if ok c
      then match greedyStar s' with
           | Some (m, r) => Some (c :: m, r)
           | None => None
           end
      else None
  | [] => None
  end.
End Quantifiers.

Section Atoms.
Variable R : Type.

(** A literal, compared case-sensitively. *)
Definition literal (l : str) (k : str -> option R) (s : str) : option R :=
  match stripPrefix l s with Some r => k r | None => None end.

(** A literal under the [i] flag.  The literals of the source are made
    of ASCII letters and spaces, for which comparing the lower-case
    forms is the engine's case-insensitive comparison. *)
Fixpoint stripPrefixCI (p s : str) : option str :=
  match p with
  | [] => Some s
  | a :: p' =>
      match s with
      | b :: s' =>
          if eqc (toLowerChar a) (toLowerChar b) then stripPrefixCI p' s' else None
      | [] => None
      end
  end.

Definition literalCI (l : str) (k : str -> option R) (s : str) : option R :=
  match stripPrefixCI l s with Some r => k r | None => None end.

(** [(?:p)?] followed by [k], greedy: with [p] first, then without. *)
Definition optional (p : (str -> option R) -> str -> option R)
           (k : str -> option R) (s : str) : option R :=
  match p k s with Some r => Some r | None => k s end.

(** One character of a class. *)
Definition one (ok : ascii -> bool) (k : str -> option R) (s : str) : option R :=
  match s with
  | c :: s' => if ok c then k s' else None
  | [] => None
  end.
End Atoms.

(** A pattern tried at one position gives its groups and the rest of the
    input after the match. *)
Definition patternAt (G : Type) := str -> option (G * str).

(** All matches of a [g]-flagged pattern, left to right, as the loop
    [while ((m = re.exec(s)) !== null)] and [s.match(re)] visit them:
    after a match the search resumes at its end.  [skip] counts the
    characters of the current match still to be passed over.  Each entry
    is the matched text with the groups. *)
Fixpoint scanFrom (G : Type) (p : patternAt G) (skip : nat) (s : str) : list (str * G) :=
  match s with
  | [] => []
  | _ :: s' =>
      match skip with
      | S n => scanFrom p n s'
      | O =>
          match p s with
          | Some (g, rest) =>
              let len := length s - length rest in
              (firstn len s, g) :: scanFrom p (len - 1) s'
          | None => scanFrom p 0 s'
          end
      end
  end.

Definition matchAll (G : Type) (p : patternAt G) (s : str) : list (str * G) :=
  scanFrom p 0 s.

(** The first match of a pattern without the [g] flag. *)
Fixpoint execFirst (G : Type) (p : patternAt G) (s : str) : option G :=
  match p s with
  | Some (g, _) => Some g
  | None => match s with
            | [] => None
            | _ :: s' => execFirst p s'
            end
  end.

(** *** The regular expression object and its [lastIndex]

    A [g]-flagged regular expression keeps the offset [lastIndex] at which
    its next [exec] starts.  [exec] is modelled with that state passed
    explicitly, and the loop over its matches with a bound on the number
    of iterations; for patterns whose matches are never empty the loop is
    [matchAll] (lemma [execLoop_matchAll] below). *)

(** The first offset from [pos] on at which the pattern matches, [s] being
    the input from [pos] on. *)
Fixpoint searchAt (G : Type) (p : patternAt G) (s : str) (pos : nat) : option (nat * G * str) :=
  match p s with
  | Some (g, rest) => Some (pos, g, rest)
  | None => match s with
            | [] => None
            | _ :: s' => searchAt p s' (S pos)
            end
  end.

(** [re.exec(s)]: the matched text with its groups, or [None] for [null],
    and the new [lastIndex]. *)
Definition exec (G : Type) (p : patternAt G) (s : str) (lastIndex : nat)
  : option (str * G) * nat :=
  if length s <? lastIndex then (None, 0)
  else
    match searchAt p (skipn lastIndex s) lastIndex with
    | Some (index, g, rest) =>
        let e := length s - length rest in
        (Some (firstn (e - index) (skipn index s), g), e)
    | None => (None, 0)
    end.

(** [while ((m = re.exec(s)) !== null) { ... }], collecting the matches. *)
Fixpoint execLoop (G : Type) (fuel : nat) (p : patternAt G) (s : str) (lastIndex : nat)
  : option (list (str * G)) :=
  match fuel with
  | O => None
  | S fuel' =>
      match exec p s lastIndex with
      | (Some m, lastIndex') =>
          match execLoop fuel' p s lastIndex' with
          | Some more => Some (m :: more)
          | None => None
          end
      | (None, _) => Some []
      end
  end.

(** [k] never returns more input than it was given, [rest] reading the
    remaining input off its result. *)
Definition bounded (R : Type) (rest : R -> str) (k : str -> option R) : Prop :=
  forall s r, k s = Some r -> length (rest r) <= length s.

(** [k] always takes some input. *)
Definition consuming (R : Type) (rest : R -> str) (k : str -> option R) : Prop :=
  forall s r, k s = Some r -> length (rest r) < length s.

(** A match of the pattern is never empty. *)
Definition takesInput (G : Type) (p : patternAt G) : Prop :=
  forall s g rest, p s = Some (g, rest) -> length rest < length s.

(** Every match of the pattern begins with the character [c]. *)
Definition headedBy (G : Type) (c : ascii) (p : patternAt G) : Prop :=
  p [] = None /\ forall d t, d <> c -> p (d :: t) = None.

End Regex.

(** ** PDF text extractor: [extractTextFromPDF] *)

Module PdfTextExtractor.
Import JS.

(** One item of PDF.js's [getTextContent]. *)
Record TextItem := { itemStr : str; hasEOL : bool }.

Definition itemText (item : TextItem) : str :=
  if hasEOL item then itemStr item ++ [LF] else itemStr item.

Definition pageTextOf (items : list TextItem) : str :=
  trim (collapseWhitespace (join (lit " ") (map itemText items))).

Definition pageMarker (pageNum : N) : str :=
  lit "--- PAGE " ++ NToString pageNum ++ lit " ---".

(** The loop over the pages, [pageNum] being the number of the first page
    of [pages]. *)
Fixpoint appendPages (pages : list (list TextItem)) (pageNum : N) (fullText : str) : str :=
  match pages with
  | [] => fullText
  | items :: rest =>
      let pageText := pageTextOf items in
      let fullText' :=
        if 0 <? length pageText
        then fullText ++ [LF; LF] ++ pageMarker pageNum ++ [LF] ++ pageText
        else fullText in
      appendPages rest (pageNum + 1)%N fullText'
  end.

(** [None] is the rejection with "No text could be extracted". *)
Definition extractTextFromPDF (pages : list (list TextItem)) : option str :=
  let fullText := appendPages pages 1%N [] in
  if length (trim fullText) =? 0 then None else Some (trim fullText).

(** A text in which page markers separate parts: [head], then for each
    block its marker and its part.  What [extractTextFromPDF] returns has
    this shape, and so has every beginning of it that holds its markers
    whole. *)
Definition markedText (head : str) (blocks : list (N * str)) : str :=
  head ++ flat_map (fun b => pageMarker (fst b) ++ snd b) blocks.

End PdfTextExtractor.

(** ** Chat interface: citation extraction and match resolution *)

Module ChatInterface.
Import JS Regex.

Record Bounds := { x : nat; y : nat; width : nat; height : nat }.

Record Highlight := {
  id : str;
  pageNumber : N;
  text : str;
  bounds : Bounds
}.

Definition notLineTerminator (c : ascii) : bool := negb (isLineTerminator c).
Definition notChar (d : ascii) (c : ascii) : bool := negb (eqc d c).

(** [/--- PAGE (\d+) ---/]: group 1 and the rest. *)
Definition pageMarkerAt : patternAt str :=
  literal (lit "--- PAGE ") (greedyPlus isDigit (literal (lit " ---") (@Some str))).

(** [array.forEach((x, index) => ...)] collecting what each call pushes. *)
Fixpoint forEachIndexed (A B : Type) (f : A -> nat -> list B) (index : nat) (xs : list A) : list B :=
  match xs with
  | [] => []
  | x :: rest => f x index ++ forEachIndexed f (S index) rest
  end.

Definition pageNumberBefore (textBeforeMatch : str) : N :=
  let pageMatches := map fst (matchAll pageMarkerAt textBeforeMatch) in
  match rev pageMatches with
  | lastPageMatch :: _ =>
      match execFirst pageMarkerAt lastPageMatch with
      | Some digits => parseDigits digits
      | None => 1%N
      end
  | [] => 1%N
  end.

(** The body of the [forEach] of [findExactTextHighlights].  The inner
    [while (true)] loop leaves at its first iteration on both paths (not
    found, or the [break] after the push), with [searchIndex = 0]. *)
Definition highlightsOfText (contractText exactText : str) (index : nat) : list Highlight :=
  if length exactText <? 5 then []
  else
    let cleanExactText := collapseWhitespace (trim exactText) in
    let cleanContractText := collapseWhitespace contractText in
    match indexOf (toLowerCase cleanExactText) (toLowerCase cleanContractText) 0 with
    | None => []
    | Some foundIndex =>
        let textBeforeMatch := substring0 contractText foundIndex in
        [ {| id := lit "exact-highlight-" ++ natToString index ++ lit "-" ++ natToString foundIndex;
             pageNumber := pageNumberBefore textBeforeMatch;
             text := cleanExactText;
             bounds := {| x := 50; y := 100; width := length cleanExactText * 6; height := 16 |} |} ]
    end.

Definition findExactTextHighlights (contractText : str) (exactTexts : list str) : list Highlight :=
  forEachIndexed (highlightsOfText contractText) 0 exactTexts.

(** *** The marker patterns of [handleSubmit]

    A match carries groups 1 and 2, [None] for a group the pattern does
    not have. *)
Definition Groups : Type := option str * option str.

Definition MARKER : str := lit "<<HIGHLIGHT>>".

(** [/<<HIGHLIGHT>>(.*?)<<HIGHLIGHT>>/g] *)
Definition perfectFormat : patternAt Groups := fun s =>
  match literal MARKER (lazyStar notLineTerminator (literal MARKER (@Some str))) s with
  | Some (g1, rest) => Some ((Some g1, None), rest)
  | None => None
  end.

(** The lookahead [(?=<<HIGHLIGHT|$)]. *)
Definition beforeMarkerOrEnd (s : str) : option str :=
  if startsWith (lit "<<HIGHLIGHT") s then Some s
  else match s with [] => Some s | _ :: _ => None end.

(** [/<<HIGHLIGHT>>(.*?)(?=<<HIGHLIGHT|$)/g] *)
Definition missingClosing : patternAt Groups := fun s =>
  match literal MARKER (lazyStar notLineTerminator beforeMarkerOrEnd) s with
  | Some (g1, rest) => Some ((Some g1, None), rest)
  | None => None
  end.

(** [/<<HIGHLIGHT([^>]*?)>>(.*?)<<HIGHLIGHT>>/g] *)
Definition extraInOpening : patternAt Groups := fun s =>
  match literal (lit "<<HIGHLIGHT")
          (lazyStar (notChar ">")
             (literal (lit ">>") (lazyStar notLineTerminator (literal MARKER (@Some str))))) s with
  | Some (g1, (g2, rest)) => Some ((Some g1, Some g2), rest)
  | None => None
  end.

(** [/Q([^Q]*\$[^Q]*?)Q/g], where Q stands for the double quote. *)
Definition quotedMoney : patternAt Groups := fun s =>
  match literal [DQUOTE]
          (greedyStar (notChar DQUOTE)
             (literal (lit "$") (lazyStar (notChar DQUOTE) (literal [DQUOTE] (@Some str))))) s with
  | Some (a, (b, rest)) => Some ((Some (a ++ lit "$" ++ b), None), rest)
  | None => None
  end.

Definition highlightPatterns : list (patternAt Groups) :=
  [perfectFormat; missingClosing; extraInOpening; quotedMoney].

Definition truthy (v : option str) : bool :=
  match v with Some (_ :: _) => true | _ => false end.

(** [a || b] *)
Definition orElse (a b : option str) : option str := if truthy a then a else b.

(** What one pass of the [while] loop over a pattern pushes. *)
Definition pushedBy (g : Groups) : list str :=
  let textToHighlight := orElse (fst g) (snd g) in
  match textToHighlight with
  | Some t => if truthy textToHighlight && (3 <? length t) then [trim t] else []
  | None => []
  end.

Definition spansOfPattern (assistantContent : str) (pattern : patternAt Groups) : list str :=
  flat_map (fun m => pushedBy (snd m)) (matchAll pattern assistantContent).

(** [exactTextsToHighlight] after the loop over [highlightPatterns]. *)
Definition markerSpans (assistantContent : str) : list str :=
  flat_map (spansOfPattern assistantContent) highlightPatterns.

(** *** [extractKeyPhrasesForHighlighting] *)

(** A pattern used only for its whole match. *)
Definition Whole : Type := unit.

(** [/Q([^Q]+)Q/g], where Q stands for the double quote: group 1. *)
Definition quotedText : patternAt str :=
  literal [DQUOTE] (greedyPlus (notChar DQUOTE) (literal [DQUOTE] (@Some str))).

Definition notDot : ascii -> bool := notChar ".".

(** The tail [(\d+)\s*days?[^.]*] shared by two patterns, giving the rest. *)
Definition daysTail (s : str) : option str :=
  match greedyPlus isDigit
          (greedyStar isWhiteSpace
             (literalCI (lit "day")
                (optional (literalCI (lit "s")) (greedyStar notDot (@Some str))))) s with
  | Some (_, (_, (_, rest))) => Some rest
  | None => None
  end.

(** [/payment[^.]*?(\d+)\s*days?[^.]*/gi] *)
Definition paymentDays : patternAt Whole := fun s =>
  match literalCI (lit "payment") (lazyStar notDot daysTail) s with
  | Some (_, rest) => Some (tt, rest)
  | None => None
  end.

(** [/net\s*\d+[^.]*/gi] *)
Definition netDays : patternAt Whole := fun s =>
  match literalCI (lit "net")
          (greedyStar isWhiteSpace (greedyPlus isDigit (greedyStar notDot (@Some str)))) s with
  | Some (_, (_, (_, rest))) => Some (tt, rest)
  | None => None
  end.

(** [/word[^.]*?[^.]*/gi] for [invoice] and [billing]. *)
Definition wordToDot (word : str) : patternAt Whole := fun s =>
  match literalCI word (lazyStar notDot (greedyStar notDot (@Some str))) s with
  | Some (_, (_, rest)) => Some (tt, rest)
  | None => None
  end.

(** [/termination[^.]*?(\d+)\s*days?[^.]*/gi] *)
Definition terminationDays : patternAt Whole := fun s =>
  match literalCI (lit "termination") (lazyStar notDot daysTail) s with
  | Some (_, rest) => Some (tt, rest)
  | None => None
  end.

(** [/first[^.]*?second[^.]*/gi] for [notice ... termination] and
    [either party ... terminate]. *)
Definition firstThenSecond (first second : str) : patternAt Whole := fun s =>
  match literalCI first
          (lazyStar notDot (literalCI second (greedyStar notDot (@Some str)))) s with
  | Some (_, (_, rest)) => Some (tt, rest)
  | None => None
  end.

Definition digitOrComma (c : ascii) : bool := isDigit c || eqc "," c.

(** [/\$[\d,]+(?:\.\d{2})?/g] *)
Definition amountPattern : patternAt Whole := fun s =>
  match literal (lit "$")
          (greedyPlus digitOrComma
             (optional (fun k => literal (lit ".") (one isDigit (one isDigit k)))
                (@Some str))) s with
  | Some (_, rest) => Some (tt, rest)
  | None => None
  end.

(** [response.match(pattern)] with [null] read as no match. *)
Definition matchesOf (pattern : patternAt Whole) (response : str) : list str :=
  map fst (matchAll pattern response).

Definition longerThan10 (m : str) : bool := 10 <? length m.

Definition paymentPatterns : list (patternAt Whole) :=
  [paymentDays; netDays; wordToDot (lit "invoice"); wordToDot (lit "billing")].

Definition terminationPatterns : list (patternAt Whole) :=
  [terminationDays;
   firstThenSecond (lit "notice") (lit "termination");
   firstThenSecond (lit "either party") (lit "terminate")].

Definition extractKeyPhrasesForHighlighting (response question : str) : list str :=
  let quoted := filter longerThan10 (map snd (matchAll quotedText response)) in
  let questionLower := toLowerCase question in
  let payment :=
    if includes (lit "payment") questionLower || includes (lit "pay") questionLower
    then flat_map (fun pattern => filter longerThan10 (matchesOf pattern response)) paymentPatterns
    else [] in
  let termination :=
    if includes (lit "termination") questionLower || includes (lit "terminate") questionLower
    then flat_map (fun pattern => filter longerThan10 (matchesOf pattern response)) terminationPatterns
    else [] in
  let amounts :=
    if includes (lit "value") questionLower || includes (lit "amount") questionLower
       || includes (lit "cost") questionLower
    then matchesOf amountPattern response
    else [] in
  quoted ++ payment ++ termination ++ amounts.

(** *** The tail of [handleSubmit], once the answer has been received *)

(** [exactTextsToHighlight] when the highlights are computed. *)
Definition exactTextsToHighlight (assistantContent currentQuestion : str) : list str :=
  let explicit := markerSpans assistantContent in
  if length explicit =? 0
  then explicit ++ extractKeyPhrasesForHighlighting assistantContent currentQuestion
  else explicit.

(** The argument given to [onHighlight]. *)
Definition resolvedHighlights (contractText assistantContent currentQuestion : str) : list Highlight :=
  let exactTexts := exactTextsToHighlight assistantContent currentQuestion in
  if (0 <? length exactTexts) && (0 <? length contractText)
  then findExactTextHighlights contractText exactTexts
  else [].

End ChatInterface.

(** ** Contract viewer: the highlight set and its navigation *)

Module ContractViewer.
Import JS ChatInterface.

(** The two pieces of React state the highlight set lives in. *)
Record State := {
  highlights : list Highlight;
  currentHighlight : Z
}.

Definition initial : State := {| highlights := []; currentHighlight := -1 |}.

Inductive Direction := next | prev.

(** The remainder operator of JavaScript truncates towards zero: [Z.rem]. *)
Definition handleHighlightNavigation (direction : Direction) (st : State) : State :=
  if length (highlights st) =? 0 then st
  else
    let n := Z.of_nat (length (highlights st)) in
    let current := currentHighlight st in
    {| highlights := highlights st;
       currentHighlight :=
         match direction with
         | next => Z.rem (current + 1) n
         | prev => Z.rem (current - 1 + n) n
         end |}.

Definition addHighlights (newHighlights : list Highlight) (st : State) : State :=
  {| highlights := newHighlights;
     currentHighlight := if 0 <? length newHighlights then 0 else -1 |}.

(** The part of [handleFileUpload] that touches the highlight set;
    [isPdf] tells that a file of type application/pdf was chosen. *)
Definition handleFileUpload (isPdf : bool) (st : State) : State :=
  if isPdf then {| highlights := []; currentHighlight := -1 |} else st.

(** [highlights[currentHighlight]] *)
Definition activeHighlight (st : State) : option Highlight :=
  if (currentHighlight st <? 0)%Z then None
  else nth_error (highlights st) (Z.to_nat (currentHighlight st)).

Definition activeId (st : State) : option str := option_map id (activeHighlight st).

(** The operations that change the highlight set. *)
Inductive Command :=
| SetHighlights (newHighlights : list Highlight)
| Navigate (direction : Direction)
| Upload (isPdf : bool).

Definition step (st : State) (c : Command) : State :=
  match c with
  | SetHighlights hs => addHighlights hs st
  | Navigate d => handleHighlightNavigation d st
  | Upload isPdf => handleFileUpload isPdf st
  end.

Definition run (cs : list Command) (st : State) : State := fold_left step cs st.

(** The invariant of the highlight set. *)
Definition invariant (st : State) : Prop :=
  (currentHighlight st = (-1)%Z <-> highlights st = [])
  /\ (highlights st <> [] ->
      (0 <= currentHighlight st < Z.of_nat (length (highlights st)))%Z).

End ContractViewer.

(** ** The chat interface inside the viewer: [handleSubmit] *)

Module App.
Import JS Regex ChatInterface.

Inductive Role := user | assistant.

Record Message := { msgId : str; role : Role; content : str }.

Record State := {
  contractText : str;
  messages : list Message;
  viewer : ContractViewer.State
}.

(** What came back from the chat endpoint: a failure with its message, or
    the accumulated [assistantContent] of the stream. *)
Inductive Reply :=
| Failed (message : str)
| Streamed (assistantContent : str).

(** [s.replace(re, by)] for a [g]-flagged pattern. *)
Fixpoint replaceFrom (G : Type) (p : patternAt G) (by_ : str) (skip : nat) (s : str) : str :=
  match s with
  | [] => []
  | c :: s' =>
      match skip with
      | S n => replaceFrom p by_ n s'
      | O =>
          match p s with
          | Some (_, rest) => by_ ++ replaceFrom p by_ (length s - length rest - 1) s'
          | None => c :: replaceFrom p by_ 0 s'
          end
      end
  end.

Definition replaceAll (G : Type) (p : patternAt G) (by_ : str) (s : str) : str :=
  replaceFrom p by_ 0 s.

Definition markerToken : patternAt unit := fun s =>
  literal MARKER (fun rest => Some (tt, rest)) s.

(** [/<<HIGHLIGHT[^>]*?>>/g] *)
Definition markerWithExtra : patternAt unit := fun s =>
  match literal (lit "<<HIGHLIGHT")
          (lazyStar (notChar ">") (literal (lit ">>") (@Some str))) s with
  | Some (_, rest) => Some (tt, rest)
  | None => None
  end.

Definition markerOpening : patternAt unit := fun s =>
  literal (lit "<<HIGHLIGHT") (fun rest => Some (tt, rest)) s.

(** The display text, markers replaced by a quotation mark. *)
Definition cleanContent (assistantContent : str) : str :=
  replaceAll markerOpening [DQUOTE]
    (replaceAll markerWithExtra [DQUOTE]
       (replaceAll markerToken [DQUOTE] assistantContent)).

(** [handleSubmit] with the question [input], the readings [now0] and
    [now1] of the clock at its two calls of [Date.now()], and the reply of
    the endpoint.  (The loading flag is down whenever a submission is
    accepted and is down again when it ends.) *)
Definition handleSubmit (now0 now1 : N) (input : str) (reply : Reply) (app : State) : State :=
  if (length (trim input) =? 0) || (length (contractText app) =? 0) then app
  else
    let userMessage := {| msgId := NToString now0; role := user; content := input |} in
    match reply with
    | Failed message =>
        let errorMessage :=
          {| msgId := NToString (now1 + 1); role := assistant;
             content := lit "Sorry, I encountered an error: " ++ message
                        ++ lit ". Please try again." |} in
        {| contractText := contractText app;
           messages := messages app ++ [userMessage; errorMessage];
           viewer := viewer app |}
    | Streamed assistantContent =>
        let assistantMessage :=
          {| msgId := NToString (now1 + 1); role := assistant;
             content := cleanContent assistantContent |} in
        {| contractText := contractText app;
           messages := messages app ++ [userMessage; assistantMessage];
           viewer := ContractViewer.addHighlights
                       (resolvedHighlights (contractText app) assistantContent input)
                       (viewer app) |}
    end.

End App.

(** ** PDF viewer: searching the text layer of a page *)

Module PDFViewer.
Import JS.

Section TextLayer.
(** The bounds of a text element are computed from the viewport and are
    carried along untouched by the search. *)
Variable Box : Type.

(** One entry of a page's text map: a positioned text item. *)
Record TextData := { tdText : str; tdBounds : Box }.

(** [pageTextMaps]: the text maps of the rendered pages; a text map
    lists its entries in insertion order, that is by text index. *)
Definition PageTextMaps := list (N * list TextData).

Fixpoint getPage (maps : PageTextMaps) (pageNum : N) : option (list TextData) :=
  match maps with
  | [] => None
  | (n, textMap) :: rest => if (n =? pageNum)%N then Some textMap else getPage rest pageNum
  end.

Record ElementPosition := {
  startIndex : nat;
  endIndex : nat;
  posBounds : Box;
  posText : str;
  posIndex : nat
}.

(** What the loop over the text map pushes for [textData], [index]
    being its key and [fullPageText] the text accumulated before it. *)
Definition positionOf (textData : TextData) (index : nat) (fullPageText : str)
  : ElementPosition :=
  let start := length fullPageText in
  {| startIndex := start;
     endIndex := start + length (tdText textData);
     posBounds := tdBounds textData;
     posText := tdText textData;
     posIndex := index |}.

(** The loop over the text map: the positions pushed and the final
    [fullPageText], from the entry numbered [index] on. *)
Fixpoint positionsFrom (entries : list TextData) (index : nat) (fullPageText : str)
  : list ElementPosition * str :=
  match entries with
  | [] => ([], fullPageText)
  | textData :: rest =>
      let '(ps, full) :=
        positionsFrom rest (S index) (fullPageText ++ tdText textData ++ lit " ") in
      (positionOf textData index fullPageText :: ps, full)
  end.

Definition elementPositions (textMap : list TextData) : list ElementPosition :=
  fst (positionsFrom textMap 0 []).

Definition fullPageTextOf (textMap : list TextData) : str :=
  snd (positionsFrom textMap 0 []).

(** The elements kept for the match range. *)
Definition matchingElements (positions : list ElementPosition) (matchStart matchEnd : nat)
  : list ElementPosition :=
  filter (fun pos => (startIndex pos <=? matchEnd) && (matchStart <=? endIndex pos)) positions.

Record Match := {
  elements : list ElementPosition;
  matchStart : nat;
  matchEnd : nat;
  searchText : str
}.

(** The match recorded for an occurrence found at [foundIndex]. *)
Definition matchAt (positions : list ElementPosition) (cleanSearchText : str)
           (foundIndex : nat) : Match :=
  let mStart := foundIndex in
  let mEnd := foundIndex + length cleanSearchText in
  {| elements := matchingElements positions mStart mEnd;
     matchStart := mStart;
     matchEnd := mEnd;
     searchText := cleanSearchText |}.

(** The [while (true)] loop of the search.  It has no bound of its own:
    [fuel] counts the iterations allowed, [None] meaning that they did
    not suffice. *)
Fixpoint searchLoop (fuel : nat) (cleanSearchText cleanFullText : str)
         (positions : list ElementPosition) (searchIndex : nat) : option (list Match) :=
  match fuel with
  | O => None
  | S fuel' =>
      match indexOf cleanSearchText cleanFullText searchIndex with
      | None => Some []
      | Some foundIndex =>
          let found := matchAt positions cleanSearchText foundIndex in
          let pushed := if 0 <? length (elements found) then [found] else [] in
          match searchLoop fuel' cleanSearchText cleanFullText positions (foundIndex + 1) with
          | Some more => Some (pushed ++ more)
          | None => None
          end
      end
  end.

Definition findTextInTextLayer (fuel : nat) (pageTextMaps : PageTextMaps)
           (text : str) (pageNum : N) : option (list Match) :=
  match getPage pageTextMaps pageNum with
  | None => Some []
  | Some textMap =>
      let cleanSearchText := trim (toLowerCase text) in
      let cleanFullText := toLowerCase (fullPageTextOf textMap) in
      searchLoop fuel cleanSearchText cleanFullText (elementPositions textMap) 0
  end.

(** The positions at which [needle] occurs in [hay], counted from [pos]. *)
Fixpoint occurrencesAt (needle hay : str) (pos : nat) : list nat :=
  (if startsWith needle hay then [pos] else [])
  ++ match hay with
     | [] => []
     | _ :: hay' => occurrencesAt needle hay' (S pos)
     end.

Definition occurrences (needle hay : str) : list nat := occurrencesAt needle hay 0.

End TextLayer.

End PDFViewer.

(** ** PDF viewer: the search of the text layer over any code units

    [PDFViewer] above works on code units below 256, where [toLowerCase]
    keeps the length of every text.  On the UTF-16 code units of the
    engine it does not: U+0130 becomes two code units.  The search
    compares offsets in the lower-cased text of the page with offsets in
    the text itself, so its behaviour depends on this.  Here
    [findTextInTextLayer] is given again for any type of code units, with
    [toLowerCase] and [trim] those of the engine, whatever they do. *)

Module TextLayerSearch.

Section CodeUnits.
(** The code units, their comparison and the space. *)
Variable U : Type.
Variable eqU : U -> U -> bool.
Variable SPACE : U.
(** [String.prototype.toLowerCase] and [String.prototype.trim]. *)
Variable toLowerCase : list U -> list U.
Variable trim : list U -> list U.
Variable Box : Type.

Fixpoint stripPrefix (p s : list U) : option (list U) :=
  match p with
  | [] => Some s
  | a :: p' =>
      match s with
      | b :: s' => if eqU a b then stripPrefix p' s' else None
      | [] => None
      end
  end.

Definition startsWith (p s : list U) : bool :=
  match stripPrefix p s with Some _ => true | None => false end.

(** First occurrence of [needle] in [hay], counted from [pos]. *)
Fixpoint findAt (needle hay : list U) (pos : nat) : option nat :=
  if startsWith needle hay then Some pos
  else match hay with
       | [] => None
       | _ :: hay' => findAt needle hay' (S pos)
       end.

(** [hay.indexOf(needle, from)], [None] standing for -1. *)
Definition indexOf (needle hay : list U) (from : nat) : option nat :=
  let start := Nat.min from (length hay) in
  findAt needle (skipn start hay) start.

(** One entry of a page's text map. *)
Record TextData := { tdText : list U; tdBounds : Box }.

Definition PageTextMaps := list (N * list TextData).

Fixpoint getPage (maps : PageTextMaps) (pageNum : N) : option (list TextData) :=
  match maps with
  | [] => None
  | (n, textMap) :: rest => if (n =? pageNum)%N then Some textMap else getPage rest pageNum
  end.

Record ElementPosition := {
  startIndex : nat;
  endIndex : nat;
  posBounds : Box;
  posText : list U;
  posIndex : nat
}.

Definition positionOf (textData : TextData) (index : nat) (fullPageText : list U)
  : ElementPosition :=
  let start := length fullPageText in
  {| startIndex := start;
     endIndex := start + length (tdText textData);
     posBounds := tdBounds textData;
     posText := tdText textData;
     posIndex := index |}.

(** The loop over the text map: the positions pushed and the final
    [fullPageText], from the entry numbered [index] on. *)
Fixpoint positionsFrom (entries : list TextData) (index : nat) (fullPageText : list U)
  : list ElementPosition * list U :=
  match entries with
  | [] => ([], fullPageText)
  | textData :: rest =>
      let '(ps, full) :=
        positionsFrom rest (S index) (fullPageText ++ tdText textData ++ [SPACE]) in
      (positionOf textData index fullPageText :: ps, full)
  end.

Definition elementPositions (textMap : list TextData) : list ElementPosition :=
  fst (positionsFrom textMap 0 []).

Definition fullPageTextOf (textMap : list TextData) : list U :=
  snd (positionsFrom textMap 0 []).

Definition matchingElements (positions : list ElementPosition) (matchStart matchEnd : nat)
  : list ElementPosition :=
  filter (fun pos => (startIndex pos <=? matchEnd) && (matchStart <=? endIndex pos)) positions.

Record Match := {
  elements : list ElementPosition;
  matchStart : nat;
  matchEnd : nat;
  searchText : list U
}.

Definition matchAt (positions : list ElementPosition) (cleanSearchText : list U)
           (foundIndex : nat) : Match :=
  let mStart := foundIndex in
  let mEnd := foundIndex + length cleanSearchText in
  {| elements := matchingElements positions mStart mEnd;
     matchStart := mStart;
     matchEnd := mEnd;
     searchText := cleanSearchText |}.

(** The [while (true)] loop, [fuel] counting the iterations allowed. *)
Fixpoint searchLoop (fuel : nat) (cleanSearchText cleanFullText : list U)
         (positions : list ElementPosition) (searchIndex : nat) : option (list Match) :=
  match fuel with
  | O => None
  | S fuel' =>
      match indexOf cleanSearchText cleanFullText searchIndex with
      | None => Some []
      | Some foundIndex =>
          let found := matchAt positions cleanSearchText foundIndex in
          let pushed := if 0 <? length (elements found) then [found] else [] in
          match searchLoop fuel' cleanSearchText cleanFullText positions (foundIndex + 1) with
          | Some more => Some (pushed ++ more)
          | None => None
          end
      end
  end.

Definition findTextInTextLayer (fuel : nat) (pageTextMaps : PageTextMaps)
           (text : list U) (pageNum : N) : option (list Match) :=
  match getPage pageTextMaps pageNum with
  | None => Some []
  | Some textMap =>
      let cleanSearchText := trim (toLowerCase text) in
      let cleanFullText := toLowerCase (fullPageTextOf textMap) in
      searchLoop fuel cleanSearchText cleanFullText (elementPositions textMap) 0
  end.

(** The positions at which [needle] occurs in [hay], counted from [pos]. *)
Fixpoint occurrencesAt (needle hay : list U) (pos : nat) : list nat :=
  (if startsWith needle hay then [pos] else [])
  ++ match hay with
     | [] => []
     | _ :: hay' => occurrencesAt needle hay' (S pos)
     end.

Definition occurrences (needle hay : list U) : list nat := occurrencesAt needle hay 0.

End CodeUnits.

(** Code units as numbers.  A lower-casing of texts made of ASCII
    characters and of U+0130, the capital I with dot above, which
    becomes i followed by U+0307; on such texts it is the engine's. *)
Definition lowerUnit (u : N) : list N :=
  if (u =? 304)%N then [105%N; 775%N]
  else if ((65 <=? u) && (u <=? 90))%N then [(u + 32)%N]
  else [u].

Definition lowerUnits (s : list N) : list N := flat_map lowerUnit s.

(** [\s] on UTF-16 code units: the white space and line terminators
    that [trim] removes. *)
Definition isWhiteSpaceUnit (u : N) : bool :=
  ((9 <=? u) && (u <=? 13) || (u =? 32) || (u =? 160) || (u =? 5760)
   || (8192 <=? u) && (u <=? 8202) || (u =? 8232) || (u =? 8233) || (u =? 8239)
   || (u =? 8287) || (u =? 12288) || (u =? 65279))%N.

Fixpoint trimStartUnits (s : list N) : list N :=
  match s with
  | u :: s' => if isWhiteSpaceUnit u then trimStartUnits s' else s
  | [] => []
  end.

Definition trimUnits (s : list N) : list N :=
  rev (trimStartUnits (rev (trimStartUnits s))).

(** The code units of a text of ASCII characters. *)
Definition units (s : string) : list N := map JS.code (JS.lit s).

(** Two text elements on a page: four capital I with dot above, then
    the word net. *)
Definition dottedPage : list (TextData N unit) :=
  [ {| tdText := [304%N; 304%N; 304%N; 304%N]; tdBounds := tt |};
    {| tdText := units "net"; tdBounds := tt |} ].

(** The page of [Scenarios.netPage], in this model. *)
Definition netPage : list (TextData ascii unit) :=
  [ {| tdText := JS.lit "Net 30, net"; tdBounds := tt |};
    {| tdText := JS.lit ""; tdBounds := tt |};
    {| tdText := JS.lit "NET"; tdBounds := tt |} ].

End TextLayerSearch.

(** ** The chat API route: [POST] *)

Module ChatRoute.
Import JS.

(** [truncateForChat] with its default [maxLength] of 15000; the two cut
    points are 0.7 and 0.3 of it. *)
Definition truncateForChat (text : str) : str :=
  if length text <=? 15000 then text
  else
    let firstPart := firstn 10500 text in
    let lastPart := skipn (length text - 4500) text in
    firstPart ++ [LF; LF] ++ lit "[... middle section truncated ...]" ++ [LF; LF] ++ lastPart.

(** A value thrown inside the handler: an [Error] with its message, or
    something else. *)
Inductive Thrown :=
| ErrorObject (message : str)
| OtherValue.

(** Code that may throw. *)
Definition Try (A : Type) : Type := Thrown + A.

Definition ret (A : Type) (a : A) : Try A := inr a.
Definition throw (A : Type) (e : Thrown) : Try A := inl e.
Definition bind (A B : Type) (m : Try A) (f : A -> Try B) : Try B :=
  match m with
  | inl e => inl e
  | inr a => f a
  end.

Notation "x <- m ;; f" := (bind m (fun x => f))
  (at level 61, m at next level, right associativity).

(** The parsed body of the request: the contents of its messages ([None]
    when the body has no array of messages) and the contract text. *)
Record ChatRequest := {
  requestMessages : option (list str);
  requestContractText : option str
}.

(** What the upstream completion endpoint answered. *)
Record Upstream := { upstreamStatus : N; upstreamBody : str }.

(** [response.ok] *)
Definition upstreamOk (r : Upstream) : bool :=
  ((200 <=? upstreamStatus r) && (upstreamStatus r <=? 299))%N.

Inductive Response :=
| Json (status : N) (error : str) (details : option str)
| EventStream (upstream : Upstream).

Definition QUOTA_MESSAGE : str := lit "OpenAI quota exceeded. Please check your OpenAI billing.".
Definition GENERIC_MESSAGE : str := lit "Error processing chat request".

Section Handler.
(** The environment has an API key or not; reading the body of the
    request and calling the upstream endpoint may throw. *)
Variable apiKeyConfigured : bool.
Variable requestJson : Try ChatRequest.
Variable fetchCompletion : str -> str -> Try Upstream.

(** The system prompt ends with the truncated contract. *)
Definition contractForPrompt (req : ChatRequest) : str :=
  match requestContractText req with
  | Some t => if 0 <? length t then truncateForChat t else []
  | None => []
  end.

(** [messages[messages.length - 1]?.content || ''], a [TypeError] when
    there is no array of messages; the text of that error is the
    engine's. *)
Definition lastMessageOf (req : ChatRequest) : Try str :=
  match requestMessages req with
  | Some contents => ret (last contents [])
  | None => throw str (ErrorObject (lit "Cannot read properties of undefined (reading 'length')"))
  end.

(** The body of the [try] block. *)
Definition tryBlock : Try Response :=
  req <- requestJson ;;
  if negb apiKeyConfigured
  then ret (Json 500 (lit "OpenAI API key not configured") None)
  else
    let truncatedContract := contractForPrompt req in
    lastMessage <- lastMessageOf req ;;
    openaiResponse <- fetchCompletion truncatedContract lastMessage ;;
    if negb (upstreamOk openaiResponse)
    then
      let errorData := upstreamBody openaiResponse in
      if (upstreamStatus openaiResponse =? 429)%N
      then ret (Json 429 QUOTA_MESSAGE (Some errorData))
      else throw Response
             (ErrorObject (lit "OpenAI API Error: " ++ NToString (upstreamStatus openaiResponse)
                           ++ lit " - " ++ errorData))
    else ret (EventStream openaiResponse).

(** [POST]: the [try] block with its [catch]. *)
Definition POST : Response :=
  match tryBlock with
  | inr response => response
  | inl (ErrorObject message) => Json 500 GENERIC_MESSAGE (Some message)
  | inl OtherValue => Json 500 GENERIC_MESSAGE (Some (lit "Unknown error"))
  end.
End Handler.

End ChatRoute.

(** ** Contract viewer: the title of the uploaded document *)

Module Upload.
Import JS.

(** [uploadedFile.name.replace('.pdf', '')] *)
Definition documentTitleOf (name : str) : str := replaceFirst (lit ".pdf") [] name.

(** What [handleFileUpload] keeps of the file: its title, beside the
    highlight set.  [mimeType] is the type the browser reports; only
    application/pdf is accepted, whatever the name. *)
Record State := {
  documentTitle : str;
  highlightSet : ContractViewer.State
}.

Definition initial : State :=
  {| documentTitle := lit "No document loaded"; highlightSet := ContractViewer.initial |}.

Definition handleFileUpload (name mimeType : str) (st : State) : State :=
  if strEqb mimeType (lit "application/pdf")
  then {| documentTitle := documentTitleOf name;
          highlightSet := ContractViewer.handleFileUpload true (highlightSet st) |}
  else st.

End Upload.

(** ** Concrete documents and answers used below *)

Module Scenarios.
Import JS PdfTextExtractor ChatInterface.

Definition plainItem (s : string) : TextItem := {| itemStr := lit s; hasEOL := false |}.

(** A document of one page. *)
Definition noticePages : list (list TextItem) :=
  [[plainItem "This Agreement shall terminate upon 30 days written notice."]].

(** Its extracted text: the page marker, a line feed, the page text. *)
Definition noticeContract : str :=
  lit "--- PAGE 1 ---" ++ [LF]
  ++ lit "This Agreement shall terminate upon 30 days written notice.".

Definition noticePhrase : str := lit "terminate upon 30 days written notice".

(** The phrase between a pair of markers. *)
Definition noticeAnswer : str := MARKER ++ noticePhrase ++ MARKER.

Definition noticeHighlight (index : string) : Highlight :=
  {| id := lit "exact-highlight-" ++ lit index ++ lit "-36";
     pageNumber := 1;
     text := noticePhrase;
     bounds := {| x := 50; y := 100; width := 222; height := 16 |} |}.

(** The example response given to the model in the system prompt of the
    chat route. *)
Definition promptExample : str :=
  lit "The contract specifies payment terms as follows: " ++ MARKER
  ++ lit "Payment shall be made within thirty (30) days of invoice date" ++ MARKER
  ++ lit ". This means you have 30 days to pay after receiving an invoice.".

(** An answer with two well-formed citations. *)
Definition feeAnswer : str :=
  lit "The fee is " ++ MARKER ++ lit "payable within 30 days" ++ MARKER
  ++ lit " and the term is " ++ MARKER ++ lit "twelve months" ++ MARKER ++ lit ".".

(** The same answer cut before the closing marker of its second citation. *)
Definition cutAnswer : str :=
  lit "The fee is " ++ MARKER ++ lit "payable within 30 days" ++ MARKER
  ++ lit " and the term is " ++ MARKER ++ lit "twelve months".

(** An answer with a citation between markers, a quoted text and a
    quoted amount, and a question about payment. *)
Definition quotedAmountAnswer : str :=
  lit "The fee is " ++ MARKER ++ lit "payable within 30 days" ++ MARKER
  ++ lit ", as " ++ [DQUOTE] ++ lit "stated in the agreement" ++ [DQUOTE]
  ++ lit ", on invoice, " ++ [DQUOTE] ++ lit "about $500 in total" ++ [DQUOTE] ++ lit ".".

Definition paymentQuestion : str := lit "When is the payment due?".

Definition feeContract : str :=
  lit "--- PAGE 1 ---" ++ [LF]
  ++ lit "The fee is payable within 30 days. The initial term is twelve months.".

Definition feeQuestion : str := lit "What are the fee and the term?".

(** A document of three pages, and a span that is the text of the third. *)
Definition threePages : list (list TextItem) :=
  [[plainItem "alpha"]; [plainItem "bravo"]; [plainItem "charlie"; plainItem "delta"]].

Definition threePageContract : str :=
  lit "--- PAGE 1 ---" ++ [LF] ++ lit "alpha" ++ [LF; LF]
  ++ lit "--- PAGE 2 ---" ++ [LF] ++ lit "bravo" ++ [LF; LF]
  ++ lit "--- PAGE 3 ---" ++ [LF] ++ lit "charlie delta".

Definition thirdPageSpan : str := lit "charlie delta".

(** An answer without markers that quotes eleven spaces. *)
Definition blankQuoteAnswer : str :=
  lit "It reads " ++ [DQUOTE] ++ lit "           " ++ [DQUOTE] ++ lit " there".

(** The text map of the rendered page of [noticePages], bounds left out. *)
Definition noticeTextMap : list (PDFViewer.TextData unit) :=
  [ {| PDFViewer.tdText := lit "This Agreement shall terminate upon 30 days written notice.";
       PDFViewer.tdBounds := tt |} ].

(** A page where the word net occurs three times; its second item is empty. *)
Definition netPage : list (PDFViewer.TextData unit) :=
  [ {| PDFViewer.tdText := lit "Net 30, net"; PDFViewer.tdBounds := tt |};
    {| PDFViewer.tdText := lit ""; PDFViewer.tdBounds := tt |};
    {| PDFViewer.tdText := lit "NET"; PDFViewer.tdBounds := tt |} ].

Definition blankQuestion : str := lit "What does the blank clause say?".

(** A chat request, and an upstream endpoint that answers with [status]. *)
Definition sampleRequest : ChatRoute.ChatRequest :=
  {| ChatRoute.requestMessages := Some [lit "Hello"; lit "When is payment due?"];
     ChatRoute.requestContractText := Some noticeContract |}.

Definition upstreamAnswering (status : N) (body : string)
  : str -> str -> ChatRoute.Try ChatRoute.Upstream :=
  fun _ _ => inr {| ChatRoute.upstreamStatus := status; ChatRoute.upstreamBody := lit body |}.

(** The application state right after a contract has been loaded. *)
Definition freshApp (contract : str) : App.State :=
  {| App.contractText := contract; App.messages := []; App.viewer := ContractViewer.initial |}.

(** The application after the fee answer has been resolved and the user
    has moved to the next highlight. *)
Definition feeAppAtSecond : App.State :=
  let app := App.handleSubmit 1000 1001 feeQuestion (App.Streamed feeAnswer) (freshApp feeContract) in
  {| App.contractText := App.contractText app;
     App.messages := App.messages app;
     App.viewer := ContractViewer.handleHighlightNavigation ContractViewer.next (App.viewer app) |}.

End Scenarios.

(** * Properties *)

Unset Implicit Arguments.

(** Splits a conjunction of closed facts into its parts. *)
Ltac conjuncts := cbv zeta; repeat match goal with |- _ /\ _ => split end.

(** Settles a closed equation by evaluation. *)
Ltac evaluate := vm_compute; reflexivity.

(** ** The highlight set: invariant and navigation *)

Section HighlightSet.
Import ContractViewer.
Local Open Scope Z_scope.

Lemma length_zero_nil (A : Type) (l : list A) : (length l =? 0)%nat = true <-> l = [].
Proof.
  destruct l; simpl; split; intro H; try reflexivity; discriminate.
Qed.

Lemma rem_in_range (a n : Z) : 0 <= a -> 0 < n -> 0 <= Z.rem a n < n.
Proof.
  intros Ha Hn. rewrite Z.rem_mod_nonneg by lia. apply Z.mod_pos_bound; lia.
Qed.

Lemma invariant_initial : invariant initial.
Proof.
  unfold invariant, initial; simpl. split; [tauto | congruence].
Qed.

Lemma invariant_addHighlights (hs : list ChatInterface.Highlight) (st : State) :
  invariant (addHighlights hs st).
Proof.
  unfold invariant, addHighlights; simpl.
  destruct hs as [|h hs]; simpl.
  - split; [tauto | congruence].
  - split; [split; intro H; discriminate | intros _; lia].
Qed.

Lemma invariant_navigation (d : Direction) (st : State) :
  invariant st -> invariant (handleHighlightNavigation d st).
Proof.
  intros [Hiff Hrange]. unfold handleHighlightNavigation.
  destruct (length (highlights st) =? 0)%nat eqn:E.
  - split; assumption.
  - assert (Hne : highlights st <> []).
    { intro Hnil. rewrite Hnil in E. discriminate. }
    specialize (Hrange Hne).
    assert (Hn : 0 < Z.of_nat (length (highlights st))) by lia.
    assert (Hnew : 0 <= (match d with
                         | next => Z.rem (currentHighlight st + 1) (Z.of_nat (length (highlights st)))
                         | prev => Z.rem (currentHighlight st - 1 + Z.of_nat (length (highlights st)))
                                         (Z.of_nat (length (highlights st)))
                         end) < Z.of_nat (length (highlights st))).
    { destruct d; apply rem_in_range; lia. }
    unfold invariant; simpl. split.
    + split; intro H; [lia | contradiction].
    + intros _. exact Hnew.
Qed.

Lemma invariant_upload (b : bool) (st : State) :
  invariant st -> invariant (handleFileUpload b st).
Proof.
  intro H. unfold handleFileUpload. destruct b; [exact invariant_initial | exact H].
Qed.

Lemma invariant_step (st : State) (c : Command) : invariant st -> invariant (step st c).
Proof.
  intro H. destruct c; simpl.
  - apply invariant_addHighlights.
  - apply invariant_navigation; exact H.
  - apply invariant_upload; exact H.
Qed.

Lemma invariant_run (cs : list Command) (st : State) : invariant st -> invariant (run cs st).
Proof.
  revert st. induction cs as [|c cs IH]; intros st H; simpl.
  - exact H.
  - apply IH, invariant_step, H.
Qed.

(** C5.  Every state of the highlight set reached from the initial state
    (no highlights, current highlight -1) by setting highlights, moving to
    the next or previous highlight and uploading files has current
    highlight -1 exactly when there are no highlights, and a current
    highlight between 0 and the number of highlights otherwise. *)
Theorem highlight_set_invariant (cs : list Command) :
  let st := run cs initial in
  (currentHighlight st = -1 <-> highlights st = [])
  /\ (highlights st <> [] -> 0 <= currentHighlight st < Z.of_nat (length (highlights st))).
Proof.
  exact (invariant_run cs initial invariant_initial).
Qed.

(** Moving forward [k] times from a valid position adds [k] modulo the
    number of highlights. *)
Lemma iter_next (st : State) (k : nat) :
  highlights st <> [] ->
  0 <= currentHighlight st < Z.of_nat (length (highlights st)) ->
  Nat.iter k (handleHighlightNavigation next) st
  = {| highlights := highlights st;
       currentHighlight := (currentHighlight st + Z.of_nat k) mod Z.of_nat (length (highlights st)) |}.
Proof.
  intros Hne Hr. induction k as [|k IH].
  - simpl. rewrite Z.add_0_r, Z.mod_small by lia. destruct st; reflexivity.
  - rewrite Nat.iter_succ, IH. unfold handleHighlightNavigation; simpl.
    destruct (length (highlights st) =? 0)%nat eqn:E.
    + apply length_zero_nil in E. contradiction.
    + f_equal.
      set (n := Z.of_nat (length (highlights st))) in *.
      assert (Hn : 0 < n) by lia.
      rewrite Z.rem_mod_nonneg.
      * rewrite Zplus_mod_idemp_l. f_equal. lia.
      * pose proof (Z.mod_pos_bound (currentHighlight st + Z.of_nat k) n Hn). lia.
      * exact Hn.
Qed.

(** C6.  On an empty highlight set moving to the next or previous
    highlight changes nothing.  On a set of n > 0 highlights with a valid
    current highlight, moving forward n times comes back to the starting
    state, and moving back right after moving forward restores it, so
    index and active id are the ones from before. *)
Theorem navigation_cycle (st : State) :
  (highlights st = [] ->
     handleHighlightNavigation next st = st /\ handleHighlightNavigation prev st = st)
  /\ (highlights st <> [] ->
      0 <= currentHighlight st < Z.of_nat (length (highlights st)) ->
      Nat.iter (length (highlights st)) (handleHighlightNavigation next) st = st
      /\ handleHighlightNavigation prev (handleHighlightNavigation next st) = st
      /\ activeId (handleHighlightNavigation prev (handleHighlightNavigation next st)) = activeId st).
Proof.
  split.
  - intro Hnil. unfold handleHighlightNavigation. rewrite Hnil. simpl. split; reflexivity.
  - intros Hne Hr.
    assert (Hback : handleHighlightNavigation prev (handleHighlightNavigation next st) = st).
    { unfold handleHighlightNavigation.
      destruct (length (highlights st) =? 0)%nat eqn:E.
      - apply length_zero_nil in E. contradiction.
      - simpl. rewrite E. simpl.
        set (n := Z.of_nat (length (highlights st))) in *.
        assert (Hn : 0 < n) by lia.
        destruct st as [hs cur]; simpl in *. f_equal.
        rewrite (Z.rem_mod_nonneg (cur + 1) n) by lia.
        pose proof (Z.mod_pos_bound (cur + 1) n Hn) as Hb.
        rewrite Z.rem_mod_nonneg by lia.
        replace ((cur + 1) mod n - 1 + n) with ((cur + 1) mod n + (n - 1)) by lia.
        rewrite Zplus_mod_idemp_l.
        replace (cur + 1 + (n - 1)) with (cur + 1 * n) by lia.
        rewrite Z.mod_add by lia. apply Z.mod_small. lia. }
    split; [| split].
    + rewrite iter_next by assumption.
      destruct st as [hs cur]; simpl in *. f_equal.
      replace (cur + Z.of_nat (length hs)) with (cur + 1 * Z.of_nat (length hs)) by lia.
      rewrite Z.mod_add by lia. apply Z.mod_small. lia.
    + exact Hback.
    + rewrite Hback. reflexivity.
Qed.

Lemma navigation_cycle_witness :
  let st := {| highlights := [Scenarios.noticeHighlight "0"; Scenarios.noticeHighlight "1";
                              Scenarios.noticeHighlight "2"];
               currentHighlight := 1 |} in
  Nat.iter (length (highlights st)) (handleHighlightNavigation next) st = st
  /\ handleHighlightNavigation prev (handleHighlightNavigation next st) = st
  /\ activeId (handleHighlightNavigation prev (handleHighlightNavigation next st)) = activeId st.
Proof.
  intro st. apply (proj2 (navigation_cycle st)).
  - discriminate.
  - simpl. lia.
Defined.

End HighlightSet.

(** ** Citation extraction and match resolution *)

Section Extraction.
Import JS Regex PdfTextExtractor ChatInterface Scenarios.

(** C1.  The page text "This Agreement shall terminate upon 30 days
    written notice." is extracted as [noticeContract]; for the answer made
    of the phrase between two markers, extraction followed by resolution
    gives three highlights, not one: the phrase is extracted by the
    perfect-format, the missing-closing-marker and the extra-content
    patterns alike, and each copy is resolved to page 1 under an id of
    its own. *)
Theorem notice_resolves_three_times :
  extractTextFromPDF noticePages = Some noticeContract
  /\ markerSpans noticeAnswer = [noticePhrase; noticePhrase; noticePhrase]
  /\ forall question,
       resolvedHighlights noticeContract noticeAnswer question
       = [noticeHighlight "0"; noticeHighlight "1"; noticeHighlight "2"].
Proof.
  conjuncts; [evaluate | evaluate | intro question; evaluate].
Qed.

(** On the example response of the system prompt the citation is extracted
    three times as well, and the missing-closing-marker pattern also takes
    the sentence after the citation for one. *)
Lemma prompt_example_spans :
  markerSpans promptExample
  = [lit "Payment shall be made within thirty (30) days of invoice date";
     lit "Payment shall be made within thirty (30) days of invoice date";
     lit ". This means you have 30 days to pay after receiving an invoice.";
     lit "Payment shall be made within thirty (30) days of invoice date"].
Proof.
  evaluate.
Qed.

(** Against C2 as stated: in [cutAnswer] the perfect-format pattern
    extracts the first citation, and the first layer does not win: the
    missing-closing-marker pattern adds the second citation, whose closing
    marker is missing, and more, and the extra-content pattern adds the
    first citation again. *)
Lemma later_patterns_still_contribute :
  spansOfPattern cutAnswer perfectFormat = [lit "payable within 30 days"]
  /\ spansOfPattern cutAnswer missingClosing
     = [lit "payable within 30 days"; lit "and the term is"; lit "twelve months"]
  /\ spansOfPattern cutAnswer extraInOpening = [lit "payable within 30 days"]
  /\ exactTextsToHighlight cutAnswer feeQuestion
     = [lit "payable within 30 days";
        lit "payable within 30 days"; lit "and the term is"; lit "twelve months";
        lit "payable within 30 days"]
  /\ exactTextsToHighlight cutAnswer feeQuestion <> spansOfPattern cutAnswer perfectFormat.
Proof.
  conjuncts; try evaluate.
  vm_compute. discriminate.
Qed.

Lemma markerSpans_unfold (answer : str) :
  markerSpans answer
  = spansOfPattern answer perfectFormat ++ spansOfPattern answer missingClosing
    ++ spansOfPattern answer extraInOpening ++ spansOfPattern answer quotedMoney.
Proof.
  unfold markerSpans, highlightPatterns. simpl. rewrite app_nil_r. reflexivity.
Qed.

(** *** Where an extracted span comes from *)

Lemma eqc_true (a b : ascii) : eqc a b = true <-> a = b.
Proof.
  unfold eqc. apply Ascii.eqb_eq.
Qed.

Lemma eqc_false (a b : ascii) : eqc a b = false <-> a <> b.
Proof.
  unfold eqc. apply Ascii.eqb_neq.
Qed.

Lemma stripPrefix_app (p r : str) : stripPrefix p (p ++ r) = Some r.
Proof.
  induction p as [|a p IH]; simpl; [reflexivity |].
  rewrite (proj2 (eqc_true a a) eq_refl). exact IH.
Qed.

Lemma stripPrefix_some (p : str) :
  forall s r, stripPrefix p s = Some r -> s = p ++ r.
Proof.
  induction p as [|a p IH]; intros s r; simpl.
  - intro H. injection H as <-. reflexivity.
  - destruct s as [|b s]; [discriminate |].
    destruct (eqc a b) eqn:E; [| discriminate].
    apply eqc_true in E. subst b. intro H. apply IH in H. rewrite H. reflexivity.
Qed.

(** What a matcher has matched, read back from its result. *)
Lemma literal_inv (R : Type) (l : str) (k : str -> option R) (s : str) (r : R) :
  literal l k s = Some r -> exists s', s = l ++ s' /\ k s' = Some r.
Proof.
  unfold literal. destruct (stripPrefix l s) as [s'|] eqn:E; [| discriminate].
  intro H. exists s'. split; [exact (stripPrefix_some l s s' E) | exact H].
Qed.

Lemma lazyStar_inv (R : Type) (ok : ascii -> bool) (k : str -> option R) :
  forall s m r,
    lazyStar ok k s = Some (m, r) ->
    exists s', s = m ++ s' /\ k s' = Some r /\ Forall (fun c => ok c = true) m.
Proof.
  induction s as [|c s IH]; intros m r; cbn [lazyStar].
  - destruct (k []) as [r0|] eqn:E; [| discriminate].
    intro H. injection H as <- <-. exists []. conjuncts; [reflexivity | exact E | constructor].
  - destruct (k (c :: s)) as [r0|] eqn:E.
    + intro H. injection H as <- <-. exists (c :: s).
      conjuncts; [reflexivity | exact E | constructor].
    + destruct (ok c) eqn:Hc; [| discriminate].
      destruct (lazyStar ok k s) as [[m' r']|] eqn:El; [| discriminate].
      intro H. injection H as <- <-.
      destruct (IH m' r' eq_refl) as (s' & E1 & E2 & E3).
      exists s'. conjuncts; [rewrite E1; reflexivity | exact E2 | constructor; assumption].
Qed.

Lemma greedyStar_inv (R : Type) (ok : ascii -> bool) (k : str -> option R) :
  forall s m r,
    greedyStar ok k s = Some (m, r) ->
    exists s', s = m ++ s' /\ k s' = Some r /\ Forall (fun c => ok c = true) m.
Proof.
  assert (Hstop : forall s m r,
             match k s with Some r0 => Some ([], r0) | None => None end = Some (m, r) ->
             exists s', s = m ++ s' /\ k s' = Some r /\ Forall (fun c => ok c = true) m).
  { intros s m r. destruct (k s) as [r0|] eqn:E; [| discriminate].
    intro H. injection H as <- <-. exists s. conjuncts; [reflexivity | exact E | constructor]. }
  induction s as [|c s IH]; intros m r; cbn [greedyStar].
  - apply Hstop.
  - destruct (ok c) eqn:Hc; [| apply Hstop].
    destruct (greedyStar ok k s) as [[m' r']|] eqn:Eg; [| apply Hstop].
    intro H. injection H as <- <-.
    destruct (IH m' r' eq_refl) as (s' & E1 & E2 & E3).
    exists s'. conjuncts; [rewrite E1; reflexivity | exact E2 | constructor; assumption].
Qed.

(** Every entry of a scan is a match of the pattern at some position of
    the text. *)
Lemma scanFrom_In (G : Type) (p : patternAt G) :
  forall s skip matched g,
    In (matched, g) (scanFrom p skip s) ->
    exists before s' rest, s = before ++ s' /\ p s' = Some (g, rest).
Proof.
  assert (Hlater : forall c s g,
             (exists before s' rest, s = before ++ s' /\ p s' = Some (g, rest)) ->
             exists before s' rest, c :: s = before ++ s' /\ p s' = Some (g, rest)).
  { intros c s g (before & s' & rest & E & H).
    exists (c :: before), s', rest. split; [rewrite E; reflexivity | exact H]. }
  induction s as [|c s IH]; intros skip matched g; cbn [scanFrom].
  - contradiction.
  - destruct skip as [|n].
    + destruct (p (c :: s)) as [[g0 rest]|] eqn:E.
      * intros [H | H].
        -- injection H as _ <-. exists [], (c :: s), rest. split; [reflexivity | exact E].
        -- apply Hlater. exact (IH _ _ _ H).
      * intro H. apply Hlater. exact (IH _ _ _ H).
    + intro H. apply Hlater. exact (IH _ _ _ H).
Qed.

Lemma perfectFormat_inv (s : str) (g : Groups) (rest : str) :
  perfectFormat s = Some (g, rest) ->
  exists t, g = (Some t, None) /\ s = MARKER ++ t ++ MARKER ++ rest.
Proof.
  unfold perfectFormat.
  destruct (literal MARKER (lazyStar notLineTerminator (literal MARKER (@Some str))) s)
    as [[t r]|] eqn:E; [| discriminate].
  intro H. injection H as <- <-.
  apply literal_inv in E. destruct E as (s1 & E1 & E).
  apply lazyStar_inv in E. destruct E as (s2 & E2 & E & _).
  apply literal_inv in E. destruct E as (s3 & E3 & E). injection E as <-.
  exists t. split; [reflexivity |]. rewrite E1, E2, E3. reflexivity.
Qed.

Lemma missingClosing_inv (s : str) (g : Groups) (rest : str) :
  missingClosing s = Some (g, rest) ->
  exists t, g = (Some t, None) /\ s = MARKER ++ t ++ rest.
Proof.
  unfold missingClosing.
  destruct (literal MARKER (lazyStar notLineTerminator beforeMarkerOrEnd) s)
    as [[t r]|] eqn:E; [| discriminate].
  intro H. injection H as <- <-.
  apply literal_inv in E. destruct E as (s1 & E1 & E).
  apply lazyStar_inv in E. destruct E as (s2 & E2 & E & _).
  assert (Er : r = s2).
  { unfold beforeMarkerOrEnd in E.
    destruct (startsWith (lit "<<HIGHLIGHT") s2); [congruence |].
    destruct s2; [congruence | discriminate]. }
  exists t. split; [reflexivity |]. rewrite E1, E2, Er. reflexivity.
Qed.

Lemma extraInOpening_inv (s : str) (g : Groups) (rest : str) :
  extraInOpening s = Some (g, rest) ->
  exists e t, g = (Some e, Some t)
              /\ s = lit "<<HIGHLIGHT" ++ e ++ lit ">>" ++ t ++ MARKER ++ rest.
Proof.
  unfold extraInOpening.
  destruct (literal (lit "<<HIGHLIGHT")
              (lazyStar (notChar ">")
                 (literal (lit ">>")
                    (lazyStar notLineTerminator (literal MARKER (@Some str))))) s)
    as [[e [t r]]|] eqn:E; [| discriminate].
  intro H. injection H as <- <-.
  apply literal_inv in E. destruct E as (s1 & E1 & E).
  apply lazyStar_inv in E. destruct E as (s2 & E2 & E & _).
  apply literal_inv in E. destruct E as (s3 & E3 & E).
  apply lazyStar_inv in E. destruct E as (s4 & E4 & E & _).
  apply literal_inv in E. destruct E as (s5 & E5 & E). injection E as <-.
  exists e, t. split; [reflexivity |]. rewrite E1, E2, E3, E4, E5. reflexivity.
Qed.

Lemma unquoted (a : str) :
  Forall (fun c => notChar DQUOTE c = true) a -> ~ In DQUOTE a.
Proof.
  intros H Hin. rewrite Forall_forall in H. specialize (H DQUOTE Hin). discriminate.
Qed.

Lemma quotedMoney_inv (s : str) (g : Groups) (rest : str) :
  quotedMoney s = Some (g, rest) ->
  exists a b, g = (Some (a ++ lit "$" ++ b), None)
              /\ s = [DQUOTE] ++ (a ++ lit "$" ++ b) ++ [DQUOTE] ++ rest
              /\ ~ In DQUOTE a /\ ~ In DQUOTE b.
Proof.
  unfold quotedMoney.
  destruct (literal [DQUOTE]
              (greedyStar (notChar DQUOTE)
                 (literal (lit "$")
                    (lazyStar (notChar DQUOTE) (literal [DQUOTE] (@Some str))))) s)
    as [[a [b r]]|] eqn:E; [| discriminate].
  intro H. injection H as <- <-.
  apply literal_inv in E. destruct E as (s1 & E1 & E).
  apply greedyStar_inv in E. destruct E as (s2 & E2 & E & Ha).
  apply literal_inv in E. destruct E as (s3 & E3 & E).
  apply lazyStar_inv in E. destruct E as (s4 & E4 & E & Hb).
  apply literal_inv in E. destruct E as (s5 & E5 & E). injection E as <-.
  exists a, b. conjuncts.
  - reflexivity.
  - rewrite E1, E2, E3, E4, E5, <- !app_assoc. reflexivity.
  - exact (unquoted a Ha).
  - exact (unquoted b Hb).
Qed.

(** What one pass of the loop pushes is the trimmed form of the capture
    it chose, and that capture has more than 3 code units. *)
Lemma pushedBy_inv (g : Groups) (span : str) :
  In span (pushedBy g) ->
  exists t, orElse (fst g) (snd g) = Some t /\ 3 < length t /\ span = trim t.
Proof.
  unfold pushedBy. destruct (orElse (fst g) (snd g)) as [t|]; [| contradiction].
  destruct (truthy (Some t) && (3 <? length t)) eqn:E; [| contradiction].
  intros [<- | []]. apply andb_true_iff in E. destruct E as [_ E].
  apply Nat.ltb_lt in E. exists t. conjuncts; [reflexivity | exact E | reflexivity].
Qed.

Lemma orElse_first (a t : str) : orElse (Some a) None = Some t -> a = t.
Proof.
  unfold orElse. destruct (truthy (Some a)); [| discriminate].
  intro H. injection H as <-. reflexivity.
Qed.

(** The spans of one pattern, each with the place of its capture in the
    answer. *)
Lemma spansOfPattern_In (answer : str) (pattern : patternAt Groups) (span : str) :
  In span (spansOfPattern answer pattern) ->
  exists before s g rest t,
    answer = before ++ s /\ pattern s = Some (g, rest)
    /\ orElse (fst g) (snd g) = Some t /\ 3 < length t /\ span = trim t.
Proof.
  unfold spansOfPattern, matchAll. intro H. apply in_flat_map in H.
  destruct H as ([matched g] & Hm & Hp). cbn [snd] in Hp.
  apply scanFrom_In in Hm. destruct Hm as (before & s & rest & Ea & Hs).
  apply pushedBy_inv in Hp. destruct Hp as (t & Ht & Hlen & Hspan).
  exists before, s, g, rest, t. conjuncts; assumption.
Qed.

(** C2, amended.  When the perfect-format pattern extracts at least one
    span, [extractKeyPhrasesForHighlighting], the layer of quoted texts
    and keyword phrases, contributes nothing, and the question has no
    influence.  The extracted list is what the four patterns of the loop
    push, in their order: the later patterns do contribute.  Every
    extracted span is therefore the trimmed form of a capture of more
    than 3 code units that follows a marker, or stands inside an opening
    marker before its closing angle brackets, or is a text between double
    quotes that holds a dollar sign. *)
Theorem fallback_only_without_marker_spans (answer question : str) :
  spansOfPattern answer perfectFormat <> [] ->
  exactTextsToHighlight answer question
  = spansOfPattern answer perfectFormat ++ spansOfPattern answer missingClosing
    ++ spansOfPattern answer extraInOpening ++ spansOfPattern answer quotedMoney
  /\ (forall otherQuestion,
        exactTextsToHighlight answer otherQuestion = exactTextsToHighlight answer question)
  /\ (forall span,
        In span (exactTextsToHighlight answer question) ->
        exists before capture rest,
          span = trim capture /\ 3 < length capture
          /\ (answer = before ++ MARKER ++ capture ++ rest
              \/ answer = before ++ lit "<<HIGHLIGHT" ++ capture ++ lit ">>" ++ rest
              \/ (answer = before ++ [DQUOTE] ++ capture ++ [DQUOTE] ++ rest
                  /\ In "$"%char capture /\ ~ In DQUOTE capture))).
Proof.
  intro Hne.
  assert (E : forall q, exactTextsToHighlight answer q = markerSpans answer).
  { intro q. unfold exactTextsToHighlight.
    destruct (length (markerSpans answer) =? 0) eqn:Hlen; [| reflexivity].
    exfalso. apply Hne.
    apply Nat.eqb_eq in Hlen. rewrite markerSpans_unfold, length_app in Hlen.
    destruct (spansOfPattern answer perfectFormat); [reflexivity | simpl in Hlen; lia]. }
  conjuncts.
  - rewrite E. apply markerSpans_unfold.
  - intro otherQuestion. rewrite !E. reflexivity.
  - intros span Hin. rewrite E, markerSpans_unfold in Hin.
    repeat (apply in_app_or in Hin; destruct Hin as [Hin | Hin]);
      apply spansOfPattern_In in Hin;
      destruct Hin as (before & s & g & rest & t & Ea & Hs & Ht & Hlen & Hspan).
    + apply perfectFormat_inv in Hs. destruct Hs as (t0 & -> & Es).
      cbn [fst snd] in Ht. apply orElse_first in Ht. subst t0.
      exists before, t, (MARKER ++ rest). conjuncts; [exact Hspan | exact Hlen |].
      left. rewrite Ea, Es. reflexivity.
    + apply missingClosing_inv in Hs. destruct Hs as (t0 & -> & Es).
      cbn [fst snd] in Ht. apply orElse_first in Ht. subst t0.
      exists before, t, rest. conjuncts; [exact Hspan | exact Hlen |].
      left. rewrite Ea, Es. reflexivity.
    + apply extraInOpening_inv in Hs. destruct Hs as (e & t0 & -> & Es).
      cbn [fst snd] in Ht. unfold orElse in Ht.
      destruct e as [|c e]; cbn [truthy] in Ht; injection Ht as <-.
      * exists before, t0, (MARKER ++ rest). conjuncts; [exact Hspan | exact Hlen |].
        left. rewrite Ea, Es. reflexivity.
      * exists before, (c :: e), (t0 ++ MARKER ++ rest).
        conjuncts; [exact Hspan | exact Hlen |].
        right. left. rewrite Ea, Es. reflexivity.
    + apply quotedMoney_inv in Hs. destruct Hs as (a & b & -> & Es & Ha & Hb).
      cbn [fst snd] in Ht. apply orElse_first in Ht. subst t.
      exists before, (a ++ lit "$" ++ b), rest. conjuncts; [exact Hspan | exact Hlen |].
      right. right. conjuncts.
      * rewrite Ea, Es. reflexivity.
      * apply in_or_app. right. left. reflexivity.
      * intro Hq. apply in_app_or in Hq. destruct Hq as [Hq | [Hq | Hq]].
        -- exact (Ha Hq).
        -- discriminate Hq.
        -- exact (Hb Hq).
Qed.

(** An answer with a citation between markers, a quoted text without
    amount and a quoted amount, to a question about payment.  The quoted
    amount is extracted beside the citation, by the fourth pattern of the
    loop, and the missing-closing-marker pattern adds the citation again
    and all that follows it.  The quoted text and the phrase about the
    invoice, which the fallback would give, are not extracted. *)
Example quoted_amount_beside_citation :
  exactTextsToHighlight quotedAmountAnswer paymentQuestion
  = [lit "payable within 30 days";
     lit "payable within 30 days";
     lit ", as " ++ [DQUOTE] ++ lit "stated in the agreement" ++ [DQUOTE]
     ++ lit ", on invoice, " ++ [DQUOTE] ++ lit "about $500 in total" ++ [DQUOTE] ++ lit ".";
     lit "payable within 30 days";
     lit "about $500 in total"]
  /\ extractKeyPhrasesForHighlighting quotedAmountAnswer paymentQuestion
     = [lit "stated in the agreement"; lit "about $500 in total";
        lit "invoice, " ++ [DQUOTE] ++ lit "about $500 in total" ++ [DQUOTE]].
Proof.
  conjuncts; evaluate.
Qed.

Lemma fallback_only_without_marker_spans_witness :
  let answer := quotedAmountAnswer in
  let question := paymentQuestion in
  exactTextsToHighlight answer question
  = spansOfPattern answer perfectFormat ++ spansOfPattern answer missingClosing
    ++ spansOfPattern answer extraInOpening ++ spansOfPattern answer quotedMoney
  /\ (forall otherQuestion,
        exactTextsToHighlight answer otherQuestion = exactTextsToHighlight answer question)
  /\ (forall span,
        In span (exactTextsToHighlight answer question) ->
        exists before capture rest,
          span = trim capture /\ 3 < length capture
          /\ (answer = before ++ MARKER ++ capture ++ rest
              \/ answer = before ++ lit "<<HIGHLIGHT" ++ capture ++ lit ">>" ++ rest
              \/ (answer = before ++ [DQUOTE] ++ capture ++ [DQUOTE] ++ rest
                  /\ In "$"%char capture /\ ~ In DQUOTE capture))).
Proof.
  apply (fallback_only_without_marker_spans quotedAmountAnswer paymentQuestion).
  vm_compute. discriminate.
Defined.

(** C3.  In the three-page document the span "charlie delta" is the text
    of page 3 and occurs on no other page; resolution returns one
    highlight for it, on page 2.  The offset 57 of the match is an offset
    into the text with collapsed white space, and the text before the
    match is cut at that offset from the text as extracted, where the two
    line feeds before each later page marker shift everything by one:
    the cut falls inside the marker of page 3. *)
Theorem third_page_span_resolved_to_page_two :
  extractTextFromPDF threePages = Some threePageContract
  /\ map pageTextOf threePages = [lit "alpha"; lit "bravo"; thirdPageSpan]
  /\ indexOf thirdPageSpan (collapseWhitespace threePageContract) 0 = Some 57
  /\ indexOf thirdPageSpan threePageContract 0 = Some 59
  /\ substring0 threePageContract 57
     = lit "--- PAGE 1 ---" ++ [LF] ++ lit "alpha" ++ [LF; LF]
       ++ lit "--- PAGE 2 ---" ++ [LF] ++ lit "bravo" ++ [LF; LF] ++ lit "--- PAGE 3 --"
  /\ findExactTextHighlights threePageContract [thirdPageSpan]
     = [ {| id := lit "exact-highlight-0-57";
            pageNumber := 2;
            text := thirdPageSpan;
            bounds := {| x := 50; y := 100; width := 78; height := 16 |} |} ].
Proof.
  conjuncts; evaluate.
Qed.

End Extraction.

(** ** Re-running the pipeline *)

Section Rerun.
Import JS ChatInterface Scenarios App.
Import ContractViewer.

(** A submission is accepted when the question is not blank and a
    contract text is loaded. *)
Lemma handleSubmit_highlights (now0 now1 : N) (input answer : str) (app : App.State) :
  trim input <> [] -> contractText app <> [] ->
  let app' := handleSubmit now0 now1 input (Streamed answer) app in
  contractText app' = contractText app
  /\ viewer app'
     = addHighlights (resolvedHighlights (contractText app) answer input) (viewer app).
Proof.
  intros Hq Hc. unfold handleSubmit.
  assert (E1 : (length (trim input) =? 0) = false).
  { destruct (trim input); [contradiction | reflexivity]. }
  assert (E2 : (length (contractText app) =? 0) = false).
  { destruct (contractText app); [contradiction | reflexivity]. }
  rewrite E1, E2. simpl. split; reflexivity.
Qed.

(** C7.  Submitting the same question and receiving the same answer
    twice over an unchanged contract text gives the same highlights both
    times: the same ids and the same page numbers and texts, whatever the
    clock showed and whatever messages and highlights were there before. *)
Theorem rerun_same_highlights
        (now0 now1 now2 now3 : N) (input answer : str) (app : App.State) :
  trim input <> [] -> contractText app <> [] ->
  let first := handleSubmit now0 now1 input (Streamed answer) app in
  let second := handleSubmit now2 now3 input (Streamed answer) first in
  map id (highlights (viewer second)) = map id (highlights (viewer first))
  /\ map (fun h => (pageNumber h, text h)) (highlights (viewer second))
     = map (fun h => (pageNumber h, text h)) (highlights (viewer first))
  /\ highlights (viewer first) = resolvedHighlights (contractText app) answer input.
Proof.
  intros Hq Hc first second.
  destruct (handleSubmit_highlights now0 now1 input answer app Hq Hc) as [Hc1 Hv1].
  fold first in Hc1, Hv1.
  assert (Hc' : contractText first <> []) by (rewrite Hc1; exact Hc).
  destruct (handleSubmit_highlights now2 now3 input answer first Hq Hc') as [_ Hv2].
  fold second in Hv2.
  rewrite Hv2, Hv1, Hc1. simpl. repeat split; reflexivity.
Qed.

Lemma rerun_same_highlights_witness :
  let first := handleSubmit 1000 1001 feeQuestion (Streamed feeAnswer) (freshApp feeContract) in
  let second := handleSubmit 2000 2001 feeQuestion (Streamed feeAnswer) first in
  map id (highlights (viewer second)) = map id (highlights (viewer first))
  /\ map (fun h => (pageNumber h, text h)) (highlights (viewer second))
     = map (fun h => (pageNumber h, text h)) (highlights (viewer first))
  /\ highlights (viewer first)
     = resolvedHighlights (contractText (freshApp feeContract)) feeAnswer feeQuestion.
Proof.
  apply (rerun_same_highlights 1000 1001 2000 2001 feeQuestion feeAnswer (freshApp feeContract));
    vm_compute; discriminate.
Defined.

(** Against C8 as stated: with the second highlight active, resolving the
    unchanged answer again over the unchanged contract puts an equal
    sequence in place and makes its first highlight the active one; the
    active id changes. *)
Lemma rerun_moves_active_highlight :
  let again := handleSubmit 2000 2001 feeQuestion (Streamed feeAnswer) feeAppAtSecond in
  highlights (viewer feeAppAtSecond)
  = resolvedHighlights (contractText feeAppAtSecond) feeAnswer feeQuestion
  /\ highlights (viewer again) = highlights (viewer feeAppAtSecond)
  /\ currentHighlight (viewer feeAppAtSecond) = 1%Z
  /\ activeId (viewer feeAppAtSecond) = Some (lit "exact-highlight-1-70")
  /\ currentHighlight (viewer again) = 0%Z
  /\ activeId (viewer again) = Some (lit "exact-highlight-0-26")
  /\ activeId (viewer again) <> activeId (viewer feeAppAtSecond).
Proof.
  conjuncts; try evaluate.
  vm_compute. discriminate.
Qed.

(** C8, amended.  Resolving an answer again and replacing the highlight
    set makes the first highlight of the resulting sequence the active
    one (none if the sequence is empty), whichever was active before; the
    highlight active before stays active when it was the first. *)
Theorem rerun_activates_first
        (now0 now1 : N) (input answer : str) (app : App.State) :
  trim input <> [] -> contractText app <> [] ->
  let resolved := resolvedHighlights (contractText app) answer input in
  let app' := handleSubmit now0 now1 input (Streamed answer) app in
  highlights (viewer app') = resolved
  /\ currentHighlight (viewer app') = (if 0 <? length resolved then 0%Z else (-1)%Z)
  /\ activeHighlight (viewer app') = hd_error resolved
  /\ (highlights (viewer app) = resolved -> currentHighlight (viewer app) = 0%Z ->
      activeId (viewer app') = activeId (viewer app)).
Proof.
  intros Hq Hc resolved app'.
  destruct (handleSubmit_highlights now0 now1 input answer app Hq Hc) as [_ Hv].
  fold app' resolved in Hv.
  assert (Hact : activeHighlight (viewer app') = hd_error resolved).
  { rewrite Hv. unfold activeHighlight, addHighlights. simpl.
    destruct resolved; reflexivity. }
  rewrite Hv at 1 2. simpl. repeat split; try assumption.
  intros Hsame Hzero. unfold activeId. rewrite Hact.
  unfold activeHighlight. rewrite Hzero, Hsame. simpl.
  destruct resolved; reflexivity.
Qed.

Lemma rerun_activates_first_witness :
  let resolved := resolvedHighlights feeContract feeAnswer feeQuestion in
  let app' := handleSubmit 2000 2001 feeQuestion (Streamed feeAnswer) feeAppAtSecond in
  highlights (viewer app') = resolved
  /\ currentHighlight (viewer app') = (if 0 <? length resolved then 0%Z else (-1)%Z)
  /\ activeHighlight (viewer app') = hd_error resolved
  /\ (highlights (viewer feeAppAtSecond) = resolved ->
      currentHighlight (viewer feeAppAtSecond) = 0%Z ->
      activeId (viewer app') = activeId (viewer feeAppAtSecond)).
Proof.
  apply (rerun_activates_first 2000 2001 feeQuestion feeAnswer feeAppAtSecond);
    vm_compute; discriminate.
Defined.

End Rerun.

(** ** The text layer: positions, lookup and search *)

Section TextLayerFacts.
Import JS PDFViewer.
Variable Box : Type.

Lemma positionsFrom_cons (e : TextData Box) (rest : list (TextData Box))
      (index : nat) (full : str) :
  positionsFrom (e :: rest) index full
  = (positionOf e index full
       :: fst (positionsFrom rest (S index) (full ++ tdText e ++ lit " ")),
     snd (positionsFrom rest (S index) (full ++ tdText e ++ lit " "))).
Proof.
  cbn [positionsFrom].
  destruct (positionsFrom rest (S index) (full ++ tdText e ++ lit " ")); reflexivity.
Qed.

Lemma length_after (e : TextData Box) (full : str) :
  length (full ++ tdText e ++ lit " ") = S (length full + length (tdText e)).
Proof.
  rewrite !length_app. simpl. lia.
Qed.

(** Positions start at or after the text accumulated so far. *)
Lemma positionsFrom_start (entries : list (TextData Box)) :
  forall (index : nat) (full : str) (pos : ElementPosition Box),
    In pos (fst (positionsFrom entries index full)) ->
    length full <= startIndex pos.
Proof.
  induction entries as [|e rest IH]; intros index full pos.
  - simpl. contradiction.
  - rewrite positionsFrom_cons. cbn [fst]. intros [<- | Hin].
    + simpl. lia.
    + apply IH in Hin. rewrite length_after in Hin. lia.
Qed.

(** The text of the page extends the text accumulated so far. *)
Lemma positionsFrom_extends (entries : list (TextData Box)) :
  forall (index : nat) (full : str),
    exists tail, snd (positionsFrom entries index full) = full ++ tail.
Proof.
  induction entries as [|e rest IH]; intros index full.
  - exists []. simpl. rewrite app_nil_r. reflexivity.
  - rewrite positionsFrom_cons. cbn [snd].
    destruct (IH (S index) (full ++ tdText e ++ lit " ")) as [tail Ht].
    exists (tdText e ++ lit " " ++ tail).
    rewrite Ht, <- !app_assoc. reflexivity.
Qed.

(** The [i]-th position is the one of the [i]-th entry, and its range in
    the text of the page holds the text of that entry. *)
Lemma positionsFrom_nth (entries : list (TextData Box)) :
  forall (index : nat) (full : str) (i : nat) (pos : ElementPosition Box),
    nth_error (fst (positionsFrom entries index full)) i = Some pos ->
    nth_error entries i = Some {| tdText := posText pos; tdBounds := posBounds pos |}
    /\ posIndex pos = index + i
    /\ endIndex pos = startIndex pos + length (posText pos)
    /\ firstn (length (posText pos))
              (skipn (startIndex pos) (snd (positionsFrom entries index full)))
       = posText pos.
Proof.
  induction entries as [|e rest IH]; intros index full i pos.
  - destruct i; discriminate.
  - rewrite positionsFrom_cons. cbn [fst snd].
    destruct i as [|i]; cbn [nth_error]; intro Hnth.
    + injection Hnth as <-.
      destruct (positionsFrom_extends rest (S index) (full ++ tdText e ++ lit " "))
        as [tail Ht].
      cbn [positionOf startIndex endIndex posText posBounds posIndex].
      split; [destruct e; reflexivity |].
      split; [lia |]. split; [reflexivity |].
      rewrite Ht, <- !app_assoc, skipn_app, skipn_all, Nat.sub_diag. simpl skipn.
      rewrite app_nil_l, firstn_app, firstn_all, Nat.sub_diag. simpl firstn.
      apply app_nil_r.
    + destruct (IH (S index) (full ++ tdText e ++ lit " ") i pos Hnth) as (H1 & H2 & H3 & H4).
      split; [exact H1 |]. split; [lia |]. split; assumption.
Qed.

Lemma filter_none (A : Type) (f : A -> bool) (l : list A) :
  (forall a, In a l -> f a = false) -> filter f l = [].
Proof.
  induction l as [|a l IH]; intro H; simpl.
  - reflexivity.
  - rewrite (H a (or_introl eq_refl)). apply IH. intros b Hb. apply H. right. exact Hb.
Qed.

Lemma lookup_exact_range (entries : list (TextData Box)) :
  forall (index : nat) (full : str) (i : nat) (pos : ElementPosition Box),
    nth_error (fst (positionsFrom entries index full)) i = Some pos ->
    matchingElements (fst (positionsFrom entries index full)) (startIndex pos) (endIndex pos)
    = [pos].
Proof.
  induction entries as [|e rest IH]; intros index full i pos.
  - destruct i; discriminate.
  - rewrite positionsFrom_cons. cbn [fst].
    pose proof (positionsFrom_start rest (S index) (full ++ tdText e ++ lit " ")) as Hstart.
    destruct i as [|i]; cbn [nth_error]; intro Hnth.
    + injection Hnth as <-. unfold matchingElements. simpl.
      replace (length full <=? length full + length (tdText e)) with true
        by (symmetry; apply Nat.leb_le; lia).
      simpl. f_equal. apply filter_none. intros p Hp.
      apply Hstart in Hp. rewrite length_after in Hp.
      apply andb_false_iff. left. apply Nat.leb_gt. lia.
    + assert (Hin : In pos (fst (positionsFrom rest (S index) (full ++ tdText e ++ lit " "))))
        by (eapply nth_error_In; exact Hnth).
      apply Hstart in Hin. rewrite length_after in Hin.
      unfold matchingElements. simpl.
      replace (startIndex pos <=? length full + length (tdText e)) with false
        by (symmetry; apply Nat.leb_gt; lia).
      rewrite andb_false_r. exact (IH (S index) (full ++ tdText e ++ lit " ") i pos Hnth).
Qed.

(** C4.  Take the element at any index of a page: it is the entry of the
    text map at that index, and the range from its start offset to its
    end offset in the text of the page joined with spaces holds exactly
    its text.  Looking up that range gives that element and no other. *)
Theorem lookup_of_fragment_range
        (textMap : list (TextData Box)) (i : nat) (pos : ElementPosition Box) :
  nth_error (elementPositions textMap) i = Some pos ->
  matchingElements (elementPositions textMap) (startIndex pos) (endIndex pos) = [pos]
  /\ nth_error textMap i = Some {| tdText := posText pos; tdBounds := posBounds pos |}
  /\ firstn (endIndex pos - startIndex pos) (skipn (startIndex pos) (fullPageTextOf textMap))
     = posText pos.
Proof.
  unfold elementPositions, fullPageTextOf. intro Hnth.
  destruct (positionsFrom_nth textMap 0 [] i pos Hnth) as (H1 & _ & H3 & H4).
  split; [| split].
  - exact (lookup_exact_range textMap 0 [] i pos Hnth).
  - exact H1.
  - rewrite H3. replace (startIndex pos + length (posText pos) - startIndex pos)
      with (length (posText pos)) by lia.
    exact H4.
Qed.

(** *** Searching *)

Lemma startsWith_empty_hay (needle : str) : needle <> [] -> startsWith needle [] = false.
Proof.
  destruct needle; [contradiction | reflexivity].
Qed.

Lemma findAt_first_occurrence (needle : str) :
  forall (hay : str) (pos : nat),
    findAt needle hay pos = hd_error (occurrencesAt needle hay pos).
Proof.
  induction hay as [|c hay IH]; intro pos; simpl.
  - destruct (startsWith needle []); reflexivity.
  - destruct (startsWith needle (c :: hay)); simpl; [reflexivity | apply IH].
Qed.

(** A first occurrence splits the text: nothing is found before it, and
    the later occurrences are those found after its first character. *)
Lemma findAt_some_split (needle : str) :
  needle <> [] ->
  forall (hay : str) (pos found : nat),
    findAt needle hay pos = Some found ->
    exists before c after,
      hay = before ++ c :: after
      /\ found = pos + length before
      /\ occurrencesAt needle hay pos = found :: occurrencesAt needle after (S found).
Proof.
  intros Hne. induction hay as [|c hay IH]; intros pos found; simpl.
  - rewrite (startsWith_empty_hay needle Hne). discriminate.
  - destruct (startsWith needle (c :: hay)).
    + intro H. injection H as <-. exists [], c, hay. simpl.
      split; [reflexivity |]. split; [lia | reflexivity].
    + intro H. destruct (IH (S pos) found H) as (before & c' & after & E1 & E2 & E3).
      exists (c :: before), c', after. simpl.
      split; [rewrite E1; reflexivity |]. split; [lia | exact E3].
Qed.

Lemma occurrencesAt_range (needle : str) :
  needle <> [] ->
  forall (hay : str) (pos found : nat),
    In found (occurrencesAt needle hay pos) -> pos <= found < pos + length hay.
Proof.
  intros Hne. induction hay as [|c hay IH]; intros pos found; simpl.
  - rewrite (startsWith_empty_hay needle Hne). simpl. contradiction.
  - intro Hin. apply in_app_or in Hin. destruct Hin as [Hin | Hin].
    + destruct (startsWith needle (c :: hay)); simpl in Hin; [| contradiction].
      destruct Hin as [<- | []]. lia.
    + apply IH in Hin. lia.
Qed.

(** Every offset of the text of a page lies in the range of some element,
    the separator after an element counting as its end. *)
Lemma positionsFrom_cover (entries : list (TextData Box)) :
  forall (index : nat) (full : str) (p : nat),
    length full <= p < length (snd (positionsFrom entries index full)) ->
    exists pos, In pos (fst (positionsFrom entries index full))
                /\ startIndex pos <= p <= endIndex pos.
Proof.
  induction entries as [|e rest IH]; intros index full p.
  - simpl. lia.
  - rewrite positionsFrom_cons. cbn [fst snd]. intros [Hlo Hhi].
    destruct (Nat.le_gt_cases p (length full + length (tdText e))) as [Hin | Hout].
    + exists (positionOf e index full). split; [left; reflexivity |]. simpl. lia.
    + destruct (IH (S index) (full ++ tdText e ++ lit " ") p) as (pos & Hpos & Hr).
      * rewrite length_after. lia.
      * exists pos. split; [right; exact Hpos | exact Hr].
Qed.

Lemma matchingElements_cover (textMap : list (TextData Box)) (from to : nat) :
  from < length (fullPageTextOf textMap) -> from <= to ->
  matchingElements (elementPositions textMap) from to <> [].
Proof.
  intros Hlt Hle.
  destruct (positionsFrom_cover textMap 0 [] from) as (pos & Hin & Hr).
  { simpl. unfold fullPageTextOf in Hlt. lia. }
  intro Hnil.
  assert (Hf : In pos (matchingElements (elementPositions textMap) from to)).
  { unfold matchingElements. apply filter_In. split; [exact Hin |].
    apply andb_true_iff. split; apply Nat.leb_le; lia. }
  rewrite Hnil in Hf. contradiction.
Qed.

(** The loop started at the end of [before] returns the matches at the
    occurrences in the rest of the text, given enough iterations and
    given that every occurrence is covered by an element. *)
Lemma searchLoop_occurrences
      (needle hay : str) (positions : list (ElementPosition Box)) :
  needle <> [] ->
  (forall found, found < length hay ->
     matchingElements positions found (found + length needle) <> []) ->
  forall (fuel : nat) (before after : str),
    hay = before ++ after ->
    length after < fuel ->
    searchLoop fuel needle hay positions (length before)
    = Some (map (matchAt positions needle) (occurrencesAt needle after (length before))).
Proof.
  intros Hne Hcover. induction fuel as [|fuel IH]; intros before after Hhay Hfuel.
  - lia.
  - cbn [searchLoop]. unfold indexOf.
    assert (Hmin : Nat.min (length before) (length hay) = length before).
    { rewrite Hhay, length_app. lia. }
    rewrite Hmin.
    assert (Hskip : skipn (length before) hay = after).
    { rewrite Hhay, skipn_app, skipn_all, Nat.sub_diag. reflexivity. }
    rewrite Hskip.
    destruct (findAt needle after (length before)) as [found|] eqn:Efind.
    + destruct (findAt_some_split needle Hne after (length before) found Efind)
        as (mid & c & rest & E1 & E2 & E3).
      rewrite E3. cbn [map].
      assert (Hlen : found < length hay).
      { rewrite Hhay, E1, !length_app. simpl. lia. }
      assert (Hpush : (0 <? length (elements (matchAt positions needle found))) = true).
      { apply Nat.ltb_lt. simpl.
        destruct (matchingElements positions found (found + length needle)) eqn:Em.
        - exfalso. exact (Hcover found Hlen Em).
        - simpl. lia. }
      rewrite Hpush.
      specialize (IH (before ++ mid ++ [c]) rest).
      replace (length (before ++ mid ++ [c])) with (found + 1) in IH
        by (rewrite !length_app; simpl; lia).
      rewrite IH.
      * replace (found + 1) with (S found) by lia. reflexivity.
      * rewrite Hhay, E1, <- !app_assoc. reflexivity.
      * rewrite E1, length_app in Hfuel. simpl in Hfuel. lia.
    + rewrite findAt_first_occurrence in Efind.
      destruct (occurrencesAt needle after (length before)); [reflexivity | discriminate].
Qed.

(** With an empty search text the loop never ends: the search position
    moves past the end of the text, where [indexOf] keeps finding the
    empty text at the end. *)
Lemma searchLoop_empty_needle (hay : str) (positions : list (ElementPosition Box)) :
  forall (fuel searchIndex : nat), searchLoop fuel [] hay positions searchIndex = None.
Proof.
  induction fuel as [|fuel IH]; intro searchIndex; cbn [searchLoop].
  - reflexivity.
  - unfold indexOf.
    assert (E : forall h pos, findAt [] h pos = Some pos) by (intros [|? ?] ?; reflexivity).
    rewrite E, IH. reflexivity.
Qed.

(** On code units below 256, where lower-casing keeps the length of the
    text of the page: for a search text that is not blank, the search of
    a rendered page returns, and returns one match for each occurrence of
    the trimmed, lower-cased search text in the lower-cased text of the
    page, in order, each with the elements that cover it.  The statement
    for any code units is [search_returns_every_occurrence]. *)
Lemma search_finds_every_occurrence
      (pageTextMaps : PageTextMaps Box) (text : str) (pageNum : N)
      (textMap : list (TextData Box)) (fuel : nat) :
  getPage pageTextMaps pageNum = Some textMap ->
  trim (toLowerCase text) <> [] ->
  length (fullPageTextOf textMap) < fuel ->
  let needle := trim (toLowerCase text) in
  let hay := toLowerCase (fullPageTextOf textMap) in
  exists matches,
    findTextInTextLayer fuel pageTextMaps text pageNum = Some matches
    /\ map (@matchStart Box) matches = occurrences needle hay
    /\ Forall (fun m => elements m <> []
                        /\ elements m = matchingElements (elementPositions textMap)
                                                         (matchStart m) (matchEnd m)
                        /\ matchEnd m = matchStart m + length needle) matches.
Proof.
  intros Hpage Hne Hfuel needle hay.
  exists (map (matchAt (elementPositions textMap) needle) (occurrences needle hay)).
  assert (Hlen : length hay = length (fullPageTextOf textMap)).
  { unfold hay, toLowerCase. apply length_map. }
  split; [| split].
  - unfold findTextInTextLayer. rewrite Hpage.
    apply (searchLoop_occurrences needle hay (elementPositions textMap) Hne) with (before := []).
    + intros found Hfound. apply matchingElements_cover; lia.
    + reflexivity.
    + lia.
  - rewrite map_map. simpl. apply map_id.
  - apply Forall_forall. intros m Hm. apply in_map_iff in Hm.
    destruct Hm as (found & <- & Hin). simpl.
    apply (occurrencesAt_range needle Hne) in Hin.
    split; [| split; reflexivity].
    apply matchingElements_cover; lia.
Qed.

End TextLayerFacts.

(** ** The text layer on concrete pages *)

Section TextLayerExamples.
Import JS PDFViewer ChatInterface Scenarios.

Lemma lookup_of_fragment_range_witness :
  let pos := {| startIndex := 12; endIndex := 12; posBounds := tt;
                posText := []; posIndex := 1 |} in
  matchingElements (elementPositions netPage) (startIndex pos) (endIndex pos) = [pos]
  /\ nth_error netPage 1 = Some {| tdText := posText pos; tdBounds := posBounds pos |}
  /\ firstn (endIndex pos - startIndex pos) (skipn (startIndex pos) (fullPageTextOf netPage))
     = posText pos.
Proof.
  cbv zeta. apply (lookup_of_fragment_range unit netPage 1). evaluate.
Defined.

(** The three occurrences of net on [netPage] are all found. *)
Example net_found_three_times :
  exists matches,
    findTextInTextLayer 20 [(1%N, netPage)] (lit " Net ") 1 = Some matches
    /\ map (@matchStart unit) matches = [0; 8; 13]
    /\ map (fun m => map (@posIndex unit) (elements m)) matches = [[0]; [0]; [2]].
Proof.
  eexists. conjuncts; evaluate.
Qed.

(** C10.  An answer that quotes a run of spaces gives the viewer a
    highlight on page 1 whose text is empty.  The empty text occurs at
    every offset of the text of that page, 61 times, and the search of the
    page for it does not return, however many iterations it is given. *)
Theorem blank_search_never_returns :
  map (fun h => (pageNumber h, text h))
      (resolvedHighlights noticeContract blankQuoteAnswer blankQuestion)
  = [(1%N, [])]
  /\ length (occurrences (trim (toLowerCase [])) (toLowerCase (fullPageTextOf noticeTextMap)))
     = 61
  /\ forall fuel, findTextInTextLayer fuel [(1%N, noticeTextMap)] [] 1 = None.
Proof.
  conjuncts; [evaluate | evaluate |].
  intro fuel. unfold findTextInTextLayer. cbn [getPage N.eqb Pos.eqb].
  apply searchLoop_empty_needle.
Qed.

End TextLayerExamples.

(** ** The chat route *)

Section ChatRouteFacts.
Import JS ChatRoute Scenarios.

(** C9.  When the upstream completion request fails with status 429, the
    route answers with status 429 and the quota message; when it fails
    with any other status, the route answers with status 500 and the
    generic message; the two answers differ in status and in message. *)
Theorem quota_failure_is_distinct
        (req : ChatRequest) (contents : list str)
        (fetchCompletion : str -> str -> Try Upstream) (r : Upstream) :
  requestMessages req = Some contents ->
  fetchCompletion (contractForPrompt req) (last contents []) = inr r ->
  upstreamOk r = false ->
  let response := POST true (inr req) fetchCompletion in
  (upstreamStatus r = 429%N ->
     response = Json 429 QUOTA_MESSAGE (Some (upstreamBody r)))
  /\ (upstreamStatus r <> 429%N ->
        response
        = Json 500 GENERIC_MESSAGE
               (Some (lit "OpenAI API Error: " ++ NToString (upstreamStatus r)
                      ++ lit " - " ++ upstreamBody r)))
  /\ QUOTA_MESSAGE <> GENERIC_MESSAGE.
Proof.
  intros Hmsgs Hfetch Hfail. cbv zeta.
  unfold POST, tryBlock, lastMessageOf, bind, ret. cbn [negb].
  rewrite Hmsgs, Hfetch, Hfail. cbn [negb].
  split; [| split].
  - intro H429. apply N.eqb_eq in H429. rewrite H429. reflexivity.
  - intro Hother. apply N.eqb_neq in Hother. rewrite Hother. reflexivity.
  - vm_compute. discriminate.
Qed.

Lemma quota_failure_is_distinct_witness :
  let response := POST true (inr sampleRequest) (upstreamAnswering 429 "rate limited") in
  (429%N = 429%N ->
     response = Json 429 QUOTA_MESSAGE (Some (lit "rate limited")))
  /\ (429%N <> 429%N ->
        response
        = Json 500 GENERIC_MESSAGE
               (Some (lit "OpenAI API Error: " ++ NToString 429
                      ++ lit " - " ++ lit "rate limited")))
  /\ QUOTA_MESSAGE <> GENERIC_MESSAGE.
Proof.
  apply (quota_failure_is_distinct sampleRequest [lit "Hello"; lit "When is payment due?"]
           (upstreamAnswering 429 "rate limited")
           {| upstreamStatus := 429; upstreamBody := lit "rate limited" |});
    reflexivity.
Defined.

(** A status 429 is never a success, so the first hypothesis alone
    decides the quota answer. *)
Lemma status_429_not_ok (r : Upstream) : upstreamStatus r = 429%N -> upstreamOk r = false.
Proof.
  intro H. unfold upstreamOk. rewrite H. reflexivity.
Qed.

End ChatRouteFacts.

(** ** Every match of the patterns takes at least one character

    [scanFrom] resumes after a match by counting its characters; this is
    the loop of the source as long as no pattern matches the empty text,
    which is shown here for each pattern handed to it. *)

Section PatternFacts.
Import JS Regex ChatInterface.

Section ExecLoop.
Variable G : Type.
Variable p : patternAt G.
Hypothesis Hp : takesInput p.

Lemma scanFrom_skip (k : nat) :
  forall s, scanFrom p k s = scanFrom p 0 (skipn k s).
Proof.
  induction k as [|k IH]; intro s.
  - reflexivity.
  - destruct s as [|c s]; [reflexivity |]. simpl. apply IH.
Qed.

Lemma scanFrom_miss (c : ascii) (s : str) :
  p (c :: s) = None -> scanFrom p 0 (c :: s) = scanFrom p 0 s.
Proof.
  intro E. cbn [scanFrom]. rewrite E. reflexivity.
Qed.

Lemma scanFrom_hit (c : ascii) (s : str) (g : G) (rest : str) :
  p (c :: s) = Some (g, rest) ->
  scanFrom p 0 (c :: s)
  = (firstn (length (c :: s) - length rest) (c :: s), g)
      :: scanFrom p 0 (skipn (length (c :: s) - length rest) (c :: s)).
Proof.
  intro E. pose proof (Hp _ _ _ E) as Hlt. cbn [length] in Hlt.
  cbn [scanFrom]. rewrite E. f_equal. rewrite scanFrom_skip. f_equal.
  assert (Hlen : length (c :: s) - length rest = S (length s - length rest))
    by (cbn [length]; lia).
  rewrite Hlen. cbn [skipn]. f_equal. lia.
Qed.

Lemma searchAt_none :
  forall s pos, searchAt p s pos = None -> scanFrom p 0 s = [].
Proof.
  induction s as [|c s IH]; intros pos H.
  - reflexivity.
  - cbn [searchAt] in H. destruct (p (c :: s)) as [[g rest]|] eqn:E; [discriminate |].
    rewrite (scanFrom_miss c s E). exact (IH _ H).
Qed.

(** The first match splits the input: nothing matches before it, and the
    scan goes on after its last character. *)
Lemma searchAt_some :
  forall s pos index g rest,
    searchAt p s pos = Some (index, g, rest) ->
    exists before from,
      s = before ++ from
      /\ index = pos + length before
      /\ p from = Some (g, rest)
      /\ scanFrom p 0 s
         = (firstn (length from - length rest) from, g)
             :: scanFrom p 0 (skipn (length from - length rest) from).
Proof.
  induction s as [|c s IH]; intros pos index g rest H; cbn [searchAt] in H.
  - destruct (p []) as [[g' rest']|] eqn:E; [| discriminate].
    apply Hp in E. simpl in E. lia.
  - destruct (p (c :: s)) as [[g' rest']|] eqn:E.
    + injection H as <- <- <-.
      exists [], (c :: s). split; [reflexivity |]. split; [simpl; lia |].
      split; [exact E | exact (scanFrom_hit c s g' rest' E)].
    + destruct (IH _ _ _ _ H) as (before & from & E1 & E2 & E3 & E4).
      exists (c :: before), from. split; [rewrite E1; reflexivity |].
      split; [simpl; lia |]. split; [exact E3 |].
      rewrite (scanFrom_miss c s E). exact E4.
Qed.

(** The loop over [exec], started with [lastIndex] at the end of [before],
    ends and collects the matches of the scan of the rest. *)
Lemma execLoop_scan :
  forall fuel before after,
    length after < fuel ->
    execLoop fuel p (before ++ after) (length before) = Some (scanFrom p 0 after).
Proof.
  induction fuel as [|fuel IH]; intros before after Hfuel; [lia |].
  cbn [execLoop]. unfold exec.
  replace (length (before ++ after) <? length before) with false
    by (symmetry; apply Nat.ltb_ge; rewrite length_app; lia).
  replace (skipn (length before) (before ++ after)) with after
    by (rewrite skipn_app, skipn_all, Nat.sub_diag; reflexivity).
  destruct (searchAt p after (length before)) as [[[index g] rest]|] eqn:E.
  - destruct (searchAt_some _ _ _ _ _ E) as (mid & from & E1 & E2 & E3 & E4).
    pose proof (Hp _ _ _ E3) as Hlt.
    set (len := length from - length rest) in *.
    assert (Hend : length (before ++ after) - length rest = length (before ++ mid ++ firstn len from)).
    { rewrite E1, !length_app, length_firstn. unfold len. lia. }
    rewrite Hend.
    replace (before ++ after) with ((before ++ mid ++ firstn len from) ++ skipn len from)
      by (rewrite E1, <- !app_assoc, firstn_skipn; reflexivity).
    rewrite (IH (before ++ mid ++ firstn len from) (skipn len from)).
    + rewrite E4. f_equal. f_equal. f_equal.
      rewrite E2, <- !app_assoc.
      replace (before ++ mid ++ firstn len from ++ skipn len from)
        with ((before ++ mid) ++ from)
        by (rewrite <- app_assoc, firstn_skipn; reflexivity).
      replace (length before + length mid) with (length (before ++ mid))
        by apply length_app.
      rewrite skipn_app, skipn_all, Nat.sub_diag. simpl.
      f_equal. rewrite !length_app, length_firstn. unfold len. lia.
    + rewrite length_skipn. rewrite E1, length_app in Hfuel. unfold len. lia.
  - rewrite (searchAt_none _ _ E). reflexivity.
Qed.

(** The loop of the source over the matches of a pattern ends and gives
    the matches of [matchAll]. *)
Lemma execLoop_matchAll (s : str) :
  execLoop (S (length s)) p s 0 = Some (matchAll p s).
Proof.
  apply (execLoop_scan (S (length s)) [] s). lia.
Qed.

End ExecLoop.

Lemma stripPrefix_length (p : str) :
  forall s r, stripPrefix p s = Some r -> length s = length p + length r.
Proof.
  induction p as [|a p IH]; intros s r; simpl.
  - intro H. injection H as <-. reflexivity.
  - destruct s as [|b s]; [discriminate |].
    destruct (eqc a b); [| discriminate].
    intro H. apply IH in H. simpl. lia.
Qed.

Lemma stripPrefixCI_length (p : str) :
  forall s r, stripPrefixCI p s = Some r -> length s = length p + length r.
Proof.
  induction p as [|a p IH]; intros s r; simpl.
  - intro H. injection H as <-. reflexivity.
  - destruct s as [|b s]; [discriminate |].
    destruct (eqc (toLowerChar a) (toLowerChar b)); [| discriminate].
    intro H. apply IH in H. simpl. lia.
Qed.

Section Steps.
Variable R : Type.
Variable rest : R -> str.
Variable k : str -> option R.
Hypothesis Hk : bounded rest k.

Lemma literal_bounded (l : str) : bounded rest (literal l k).
Proof.
  intros s r. unfold literal.
  destruct (stripPrefix l s) as [s'|] eqn:E; [| discriminate].
  intro H. apply Hk in H. apply stripPrefix_length in E. lia.
Qed.

Lemma literal_consuming (l : str) : l <> [] -> consuming rest (literal l k).
Proof.
  intros Hl s r. unfold literal.
  destruct (stripPrefix l s) as [s'|] eqn:E; [| discriminate].
  intro H. apply Hk in H. apply stripPrefix_length in E.
  destruct l; [contradiction | simpl in E; lia].
Qed.

Lemma literalCI_bounded (l : str) : bounded rest (literalCI l k).
Proof.
  intros s r. unfold literalCI.
  destruct (stripPrefixCI l s) as [s'|] eqn:E; [| discriminate].
  intro H. apply Hk in H. apply stripPrefixCI_length in E. lia.
Qed.

Lemma literalCI_consuming (l : str) : l <> [] -> consuming rest (literalCI l k).
Proof.
  intros Hl s r. unfold literalCI.
  destruct (stripPrefixCI l s) as [s'|] eqn:E; [| discriminate].
  intro H. apply Hk in H. apply stripPrefixCI_length in E.
  destruct l; [contradiction | simpl in E; lia].
Qed.

Lemma one_bounded (ok : ascii -> bool) : bounded rest (one ok k).
Proof.
  intros s r. unfold one. destruct s as [|c s]; [discriminate |].
  destruct (ok c); [| discriminate]. intro H. apply Hk in H. simpl. lia.
Qed.

Lemma lazyStar_bounded (ok : ascii -> bool) :
  bounded (fun mr => rest (snd mr)) (lazyStar ok k).
Proof.
  intros s. induction s as [|c s IH]; intros [m r]; simpl.
  - destruct (k []) eqn:E; [| discriminate].
    intro H. injection H as <- <-. apply Hk in E. exact E.
  - destruct (k (c :: s)) eqn:E.
    + intro H. injection H as <- <-. apply Hk in E. exact E.
    + destruct (ok c); [| discriminate].
      destruct (lazyStar ok k s) as [[m' r']|] eqn:E'; [| discriminate].
      intro H. injection H as <- <-. specialize (IH (m', r') eq_refl). simpl in IH. lia.
Qed.

Lemma greedyStar_bounded (ok : ascii -> bool) :
  bounded (fun mr => rest (snd mr)) (greedyStar ok k).
Proof.
  intros s. induction s as [|c s IH]; intros [m r]; simpl.
  - destruct (k []) eqn:E; [| discriminate].
    intro H. injection H as <- <-. apply Hk in E. exact E.
  - assert (Hstop : match k (c :: s) with Some r0 => Some ([], r0) | None => None end
                    = Some (m, r) -> length (rest r) <= S (length s)).
    { destruct (k (c :: s)) eqn:E; [| discriminate].
      intro H. injection H as <- <-. apply Hk in E. exact E. }
    destruct (ok c); [| exact Hstop].
    destruct (greedyStar ok k s) as [[m' r']|] eqn:E'; [| exact Hstop].
    intro H. injection H as <- <-. specialize (IH (m', r') eq_refl). simpl in IH. lia.
Qed.

Lemma greedyPlus_consuming (ok : ascii -> bool) :
  consuming (fun mr => rest (snd mr)) (greedyPlus ok k).
Proof.
  intros s [m r]. unfold greedyPlus. destruct s as [|c s]; [discriminate |].
  destruct (ok c); [| discriminate].
  destruct (greedyStar ok k s) as [[m' r']|] eqn:E; [| discriminate].
  intro H. injection H as <- <-. apply greedyStar_bounded in E. simpl in *. lia.
Qed.

Lemma optional_bounded (p : (str -> option R) -> str -> option R) :
  bounded rest (p k) -> bounded rest (optional p k).
Proof.
  intros Hp s r. unfold optional. destruct (p k s) eqn:E.
  - intro H. injection H as <-. apply Hp in E. exact E.
  - apply Hk.
Qed.
End Steps.

Lemma consuming_bounded (R : Type) (rest : R -> str) (k : str -> option R) :
  consuming rest k -> bounded rest k.
Proof.
  intros H s r E. apply H in E. lia.
Qed.

Lemma bounded_ext (R : Type) (rest rest' : R -> str) (k : str -> option R) :
  bounded rest k -> (forall r, rest r = rest' r) -> bounded rest' k.
Proof.
  intros H Hext s r E. rewrite <- Hext. exact (H s r E).
Qed.

Lemma Some_bounded : bounded (fun r : str => r) (@Some str).
Proof.
  intros s r H. injection H as <-. lia.
Qed.

Lemma tagged_bounded : bounded (@snd unit str) (fun r => Some (tt, r)).
Proof.
  intros s r H. injection H as <-. simpl. lia.
Qed.

Lemma beforeMarkerOrEnd_bounded : bounded (fun r : str => r) beforeMarkerOrEnd.
Proof.
  intros s r. unfold beforeMarkerOrEnd.
  destruct (startsWith (lit "<<HIGHLIGHT") s).
  - intro H. injection H as <-. lia.
  - destruct s; [| discriminate]. intro H. injection H as <-. lia.
Qed.

Ltac nonempty_literal :=
  let X := fresh "X" in intro X; cbv in X; discriminate X.

Ltac bound :=
  cbv beta;
  first
    [ exact Some_bounded
    | exact tagged_bounded
    | exact beforeMarkerOrEnd_bounded
    | eapply lazyStar_bounded; bound
    | eapply greedyStar_bounded; bound
    | eapply consuming_bounded; eapply greedyPlus_consuming; bound
    | eapply literal_bounded; bound
    | eapply literalCI_bounded; bound
    | eapply one_bounded; bound
    | eapply optional_bounded;
      [bound | eapply bounded_ext; [bound | intro; reflexivity]] ].

Lemma daysTail_bounded : bounded (fun r : str => r) daysTail.
Proof.
  intros s r H. unfold daysTail in H.
  lazymatch type of H with
  | match ?k s with _ => _ end = _ =>
      destruct (k s) as [[a [b [c rest]]]|] eqn:E; [| discriminate H];
      eassert (B : bounded _ k) by bound;
      apply B in E
  end.
  injection H as <-. exact E.
Qed.

Ltac bound_with_days :=
  cbv beta;
  first
    [ exact daysTail_bounded
    | eapply lazyStar_bounded; bound_with_days
    | bound ].

Ltac consume :=
  first
    [ eapply literal_consuming; [bound_with_days | first [assumption | nonempty_literal]]
    | eapply literalCI_consuming; [bound_with_days | first [assumption | nonempty_literal]] ].

(** For a pattern defined as a wrapper around its matcher. *)
Ltac takes_input :=
  let s := fresh "s" in
  let g := fresh "g" in
  let rest := fresh "rest" in
  let H := fresh "H" in
  intros s g rest H;
  lazymatch type of H with
  | match ?k s with _ => _ end = _ =>
      let E := fresh "E" in
      let B := fresh "B" in
      destruct (k s) eqn:E; [| discriminate H];
      eassert (B : consuming _ k) by consume;
      apply B in E;
      repeat match goal with x : (_ * _)%type |- _ => destruct x end;
      injection H; intros; subst; simpl in E; exact E
  end.

Lemma perfectFormat_takesInput : takesInput perfectFormat.
Proof. unfold perfectFormat. takes_input. Qed.

Lemma missingClosing_takesInput : takesInput missingClosing.
Proof. unfold missingClosing. takes_input. Qed.

Lemma extraInOpening_takesInput : takesInput extraInOpening.
Proof. unfold extraInOpening. takes_input. Qed.

Lemma quotedMoney_takesInput : takesInput quotedMoney.
Proof. unfold quotedMoney. takes_input. Qed.

Lemma highlightPatterns_takeInput : Forall (@takesInput Groups) highlightPatterns.
Proof.
  repeat constructor.
  - exact perfectFormat_takesInput.
  - exact missingClosing_takesInput.
  - exact extraInOpening_takesInput.
  - exact quotedMoney_takesInput.
Qed.

(** X15.  The loops of [handleSubmit] over the marker patterns end, with
    the matches that [spansOfPattern] works on. *)
Lemma marker_loops_end (assistantContent : str) (pattern : patternAt Groups) :
  In pattern highlightPatterns ->
  execLoop (S (length assistantContent)) pattern assistantContent 0
  = Some (matchAll pattern assistantContent).
Proof.
  intro Hin. apply execLoop_matchAll.
  exact (proj1 (Forall_forall _ _) highlightPatterns_takeInput pattern Hin).
Qed.

Lemma quotedText_takesInput : takesInput quotedText.
Proof.
  intros s g rest H.
  eassert (B : consuming _ quotedText) by (unfold quotedText; consume).
  exact (B s (g, rest) H).
Qed.

Lemma pageMarkerAt_takesInput : takesInput pageMarkerAt.
Proof.
  intros s g rest H.
  eassert (B : consuming _ pageMarkerAt) by (unfold pageMarkerAt; consume).
  exact (B s (g, rest) H).
Qed.

Lemma paymentDays_takesInput : takesInput paymentDays.
Proof. unfold paymentDays. takes_input. Qed.

Lemma terminationDays_takesInput : takesInput terminationDays.
Proof. unfold terminationDays. takes_input. Qed.

Lemma netDays_takesInput : takesInput netDays.
Proof. unfold netDays. takes_input. Qed.

Lemma wordToDot_takesInput (word : str) : word <> [] -> takesInput (wordToDot word).
Proof. intro Hw. unfold wordToDot. takes_input. Qed.

Lemma firstThenSecond_takesInput (first second : str) :
  first <> [] -> takesInput (firstThenSecond first second).
Proof. intro Hw. unfold firstThenSecond. takes_input. Qed.

Lemma amountPattern_takesInput : takesInput amountPattern.
Proof. unfold amountPattern. takes_input. Qed.

Lemma keywordPatterns_takeInput :
  Forall (@takesInput Whole) (paymentPatterns ++ terminationPatterns ++ [amountPattern]).
Proof.
  repeat constructor.
  - exact paymentDays_takesInput.
  - exact netDays_takesInput.
  - apply wordToDot_takesInput. nonempty_literal.
  - apply wordToDot_takesInput. nonempty_literal.
  - exact terminationDays_takesInput.
  - apply firstThenSecond_takesInput. nonempty_literal.
  - apply firstThenSecond_takesInput. nonempty_literal.
  - exact amountPattern_takesInput.
Qed.

End PatternFacts.


(** * Further properties of the code *)

(** ** Strings *)

Section StringFacts.
Import JS.

Lemma startsWith_iff (p s : str) : startsWith p s = true <-> exists r, s = p ++ r.
Proof.
  unfold startsWith. split.
  - destruct (stripPrefix p s) as [r|] eqn:E; [| discriminate].
    intros _. exists r. exact (stripPrefix_some p s r E).
  - intros [r ->]. rewrite stripPrefix_app. reflexivity.
Qed.

Lemma startsWith_head (a b : ascii) (p s : str) :
  a <> b -> startsWith (a :: p) (b :: s) = false.
Proof.
  intro H. unfold startsWith. simpl. rewrite (proj2 (eqc_false a b) H). reflexivity.
Qed.

(** What [findAt] finds is an occurrence, and the first one. *)
Lemma findAt_some (needle : str) :
  forall hay pos found,
    findAt needle hay pos = Some found ->
    exists before after,
      hay = before ++ needle ++ after
      /\ found = pos + length before
      /\ forall before' after',
           hay = before' ++ needle ++ after' -> length before <= length before'.
Proof.
  induction hay as [|c hay IH]; intros pos found; simpl.
  - destruct (startsWith needle []) eqn:E; [| discriminate].
    intro H. injection H as <-. apply startsWith_iff in E. destruct E as [r E].
    exists [], r. split; [exact E |]. split; [simpl; lia |]. intros; simpl; lia.
  - destruct (startsWith needle (c :: hay)) eqn:E.
    + intro H. injection H as <-. apply startsWith_iff in E. destruct E as [r E].
      exists [], r. split; [exact E |]. split; [simpl; lia |]. intros; simpl; lia.
    + intro H. destruct (IH _ _ H) as (before & after & E1 & E2 & E3).
      exists (c :: before), after. split; [rewrite E1; reflexivity |].
      split; [simpl; lia |].
      intros before' after' E'. destruct before' as [|c' before'].
      * exfalso. simpl in E'.
        assert (startsWith needle (c :: hay) = true)
          by (apply startsWith_iff; exists after'; exact E').
        congruence.
      * simpl in E'. injection E' as _ E'. specialize (E3 _ _ E'). simpl. lia.
Qed.

Lemma findAt_none (needle : str) :
  forall hay pos, findAt needle hay pos = None -> ~ occursIn needle hay.
Proof.
  induction hay as [|c hay IH]; intros pos; simpl.
  - destruct (startsWith needle []) eqn:E; [discriminate |].
    intros _ (before & after & H).
    destruct before; [| discriminate].
    assert (startsWith needle [] = true) by (apply startsWith_iff; exists after; exact H).
    congruence.
  - destruct (startsWith needle (c :: hay)) eqn:E; [discriminate |].
    intros H (before & after & H'). destruct before as [|c' before].
    + assert (startsWith needle (c :: hay) = true)
        by (apply startsWith_iff; exists after; exact H').
      congruence.
    + simpl in H'. injection H' as _ H'.
      apply (IH _ H). exists before, after. exact H'.
Qed.

(** [indexOf] from the start: the first occurrence, or none. *)
Lemma indexOf_some (needle hay : str) (found : nat) :
  indexOf needle hay 0 = Some found ->
  exists before after,
    hay = before ++ needle ++ after
    /\ found = length before
    /\ forall before' after',
         hay = before' ++ needle ++ after' -> length before <= length before'.
Proof.
  unfold indexOf. simpl. intro H.
  destruct (findAt_some needle hay 0 found H) as (before & after & E1 & E2 & E3).
  exists before, after. split; [exact E1 |]. split; [exact E2 | exact E3].
Qed.

Lemma indexOf_none (needle hay : str) :
  indexOf needle hay 0 = None -> ~ occursIn needle hay.
Proof.
  unfold indexOf. simpl. apply findAt_none.
Qed.

Lemma indexOf_occurs (needle hay : str) :
  occursIn needle hay -> exists found, indexOf needle hay 0 = Some found.
Proof.
  intro H. destruct (indexOf needle hay 0) as [found|] eqn:E.
  - exists found. reflexivity.
  - exfalso. exact (indexOf_none needle hay E H).
Qed.

End StringFacts.

(** ** The match resolver: [findExactTextHighlights] *)

Section Resolver.
Import JS ChatInterface.

Lemma forEachIndexed_In (A B : Type) (f : A -> nat -> list B) (b : B) :
  forall xs start,
    In b (forEachIndexed f start xs)
    <-> exists k x, nth_error xs k = Some x /\ In b (f x (start + k)).
Proof.
  induction xs as [|x xs IH]; intro start; simpl.
  - split; [contradiction |]. intros (k & y & H & _). destruct k; discriminate.
  - rewrite in_app_iff, IH. split.
    + intros [H | (k & y & H1 & H2)].
      * exists 0, x. rewrite Nat.add_0_r. split; [reflexivity | exact H].
      * exists (S k), y. split; [exact H1 |]. rewrite Nat.add_succ_r. exact H2.
    + intros (k & y & H1 & H2). destruct k as [|k].
      * injection H1 as <-. rewrite Nat.add_0_r in H2. left. exact H2.
      * right. exists k, y. split; [exact H1 |]. rewrite Nat.add_succ_r in H2. exact H2.
Qed.

Lemma forEachIndexed_length (A B : Type) (f : A -> nat -> list B) :
  (forall x k, length (f x k) <= 1) ->
  forall xs start, length (forEachIndexed f start xs) <= length xs.
Proof.
  intros Hf. induction xs as [|x xs IH]; intro start; simpl.
  - lia.
  - rewrite length_app. specialize (IH (S start)). specialize (Hf x start). lia.
Qed.

(** What the body of the loop pushes: nothing, or the one highlight of the
    first occurrence. *)
Lemma highlightsOfText_cases (contractText exactText : str) (index : nat) :
  let clean := collapseWhitespace (trim exactText) in
  let hay := toLowerCase (collapseWhitespace contractText) in
  (highlightsOfText contractText exactText index = []
   /\ (length exactText < 5 \/ ~ occursIn (toLowerCase clean) hay))
  \/ (exists found before after,
        5 <= length exactText
        /\ hay = before ++ toLowerCase clean ++ after
        /\ found = length before
        /\ (forall before' after',
              hay = before' ++ toLowerCase clean ++ after' -> found <= length before')
        /\ highlightsOfText contractText exactText index
           = [ {| id := lit "exact-highlight-" ++ natToString index ++ lit "-"
                        ++ natToString found;
                  pageNumber := pageNumberBefore (substring0 contractText found);
                  text := clean;
                  bounds := {| x := 50; y := 100; width := length clean * 6; height := 16 |} |} ]).
Proof.
  intros clean hay. unfold highlightsOfText.
  destruct (length exactText <? 5) eqn:Elen.
  - left. split; [reflexivity |]. left. apply Nat.ltb_lt. exact Elen.
  - apply Nat.ltb_ge in Elen. fold clean. fold hay.
    destruct (indexOf (toLowerCase clean) hay 0) as [found|] eqn:E.
    + right. destruct (indexOf_some _ _ _ E) as (before & after & E1 & E2 & E3).
      exists found, before, after. repeat split; try assumption.
      intros b a H. rewrite E2. exact (E3 b a H).
    + left. split; [reflexivity |]. right. exact (indexOf_none _ _ E).
Qed.

(** X1.  Every exact text of at least 5 code units whose trimmed,
    whitespace-collapsed form occurs, ignoring case, in the
    whitespace-collapsed contract text gets a highlight carrying that
    form as its text. *)
Theorem resolver_finds_occurring_text (contractText : str) (exactTexts : list str) (exactText : str) :
  In exactText exactTexts ->
  5 <= length exactText ->
  occursIn (toLowerCase (collapseWhitespace (trim exactText)))
           (toLowerCase (collapseWhitespace contractText)) ->
  exists h, In h (findExactTextHighlights contractText exactTexts)
            /\ text h = collapseWhitespace (trim exactText).
Proof.
  intros Hin Hlen Hocc.
  destruct (In_nth_error _ _ Hin) as [k Hk].
  destruct (highlightsOfText_cases contractText exactText k)
    as [[_ [Hshort | Hno]] | (found & before & after & _ & _ & _ & _ & Hh)].
  - lia.
  - contradiction.
  - eexists. split.
    + unfold findExactTextHighlights. apply forEachIndexed_In.
      exists k, exactText. split; [exact Hk |]. simpl. rewrite Hh. left. reflexivity.
    + reflexivity.
Qed.

(** X2.  Every highlight returned stands for one of the exact texts, of at
    least 5 code units: its text is the trimmed, collapsed form of that
    text, its id names the position of the text in the list and the offset
    of the first occurrence of the form, ignoring case, in the collapsed
    contract text, and its width is 6 per code unit of its text. *)
Theorem resolver_highlights_are_first_occurrences
        (contractText : str) (exactTexts : list str) (h : Highlight) :
  In h (findExactTextHighlights contractText exactTexts) ->
  exists k exactText before after,
    nth_error exactTexts k = Some exactText
    /\ 5 <= length exactText
    /\ text h = collapseWhitespace (trim exactText)
    /\ toLowerCase (collapseWhitespace contractText)
       = before ++ toLowerCase (text h) ++ after
    /\ (forall before' after',
          toLowerCase (collapseWhitespace contractText)
          = before' ++ toLowerCase (text h) ++ after' ->
          length before <= length before')
    /\ id h = lit "exact-highlight-" ++ natToString k ++ lit "-" ++ natToString (length before)
    /\ width (bounds h) = length (text h) * 6.
Proof.
  unfold findExactTextHighlights. intro Hin.
  apply forEachIndexed_In in Hin. destruct Hin as (k & exactText & Hk & Hin).
  simpl in Hin.
  destruct (highlightsOfText_cases contractText exactText k)
    as [[Hnil _] | (found & before & after & Hlen & E1 & E2 & E3 & Hh)].
  - rewrite Hnil in Hin. contradiction.
  - rewrite Hh in Hin. destruct Hin as [<- | []].
    exists k, exactText, before, after. simpl.
    repeat split; try assumption.
    + intros b a H. rewrite <- E2. exact (E3 b a H).
    + rewrite E2. reflexivity.
Qed.

End Resolver.

(** ** Identifiers of highlights *)

Section Identifiers.
Import JS ChatInterface.

Lemma lit_inj (a b : string) : lit a = lit b -> a = b.
Proof.
  unfold lit. intro H.
  rewrite <- (string_of_list_ascii_of_string a), <- (string_of_list_ascii_of_string b), H.
  reflexivity.
Qed.

Lemma natToString_inj (a b : nat) : natToString a = natToString b -> a = b.
Proof.
  unfold natToString. intro H. apply lit_inj in H.
  apply DecimalNat.Unsigned.to_uint_inj.
  assert (E : Some (Nat.to_uint a) = Some (Nat.to_uint b)).
  { rewrite <- (NilEmpty.usu (Nat.to_uint a)), <- (NilEmpty.usu (Nat.to_uint b)), H.
    reflexivity. }
  injection E as E. exact E.
Qed.

Lemma string_of_uint_digits (d : Decimal.uint) :
  Forall (fun c => isDigit c = true) (lit (NilEmpty.string_of_uint d)).
Proof.
  induction d; simpl; constructor; try reflexivity; assumption.
Qed.

Lemma natToString_digits (n : nat) : Forall (fun c => isDigit c = true) (natToString n).
Proof.
  apply string_of_uint_digits.
Qed.

(** Two runs of digits followed by the same non-digit are equal as soon
    as what they begin is. *)
Lemma digits_then_separator (sep : ascii) :
  isDigit sep = false ->
  forall u v x y,
    Forall (fun c => isDigit c = true) u ->
    Forall (fun c => isDigit c = true) v ->
    u ++ sep :: x = v ++ sep :: y -> u = v /\ x = y.
Proof.
  intros Hsep. induction u as [|a u IH]; intros v x y Hu Hv H.
  - destruct v as [|b v]; simpl in H.
    + injection H as H. split; [reflexivity | exact H].
    + injection H as H _. inversion Hv; subst. congruence.
  - destruct v as [|b v]; simpl in H.
    + injection H as H _. inversion Hu; subst. congruence.
    + injection H as H1 H2. inversion Hu; inversion Hv; subst.
      destruct (IH v x y) as [E1 E2]; try assumption.
      split; [rewrite E1; reflexivity | exact E2].
Qed.

Lemma exact_id_inj (k k' found found' : nat) :
  lit "exact-highlight-" ++ natToString k ++ lit "-" ++ natToString found
  = lit "exact-highlight-" ++ natToString k' ++ lit "-" ++ natToString found' ->
  k = k' /\ found = found'.
Proof.
  intro H. apply app_inv_head in H.
  destruct (digits_then_separator "-" eq_refl _ _ _ _
              (natToString_digits k) (natToString_digits k') H) as [E1 E2].
  split; apply natToString_inj; assumption.
Qed.

Lemma highlightsOfText_id (contractText exactText : str) (index : nat) (h : Highlight) :
  In h (highlightsOfText contractText exactText index) ->
  exists found,
    id h = lit "exact-highlight-" ++ natToString index ++ lit "-" ++ natToString found.
Proof.
  intro Hin.
  destruct (highlightsOfText_cases contractText exactText index)
    as [[Hnil _] | (found & _ & _ & _ & _ & _ & _ & Hh)].
  - rewrite Hnil in Hin. contradiction.
  - rewrite Hh in Hin. destruct Hin as [<- | []]. exists found. reflexivity.
Qed.

Lemma highlightsOfText_length (contractText exactText : str) (index : nat) :
  length (highlightsOfText contractText exactText index) <= 1.
Proof.
  destruct (highlightsOfText_cases contractText exactText index)
    as [[Hnil _] | (found & _ & _ & _ & _ & _ & _ & Hh)].
  - rewrite Hnil. simpl. lia.
  - rewrite Hh. simpl. lia.
Qed.

Lemma exact_ids_distinct_from (contractText : str) :
  forall exactTexts start,
    NoDup (map id (forEachIndexed (highlightsOfText contractText) start exactTexts)).
Proof.
  induction exactTexts as [|t ts IH]; intro start; simpl.
  - constructor.
  - rewrite map_app.
    pose proof (highlightsOfText_length contractText t start) as Hlen.
    destruct (highlightsOfText contractText t start) as [|h [|h' rest]] eqn:E;
      [exact (IH (S start)) | | simpl in Hlen; lia].
    simpl. constructor; [| exact (IH (S start))].
    intro Hin. apply in_map_iff in Hin. destruct Hin as (h2 & Hid & Hin).
    apply forEachIndexed_In in Hin. destruct Hin as (k & t2 & _ & Hin).
    apply highlightsOfText_id in Hin. destruct Hin as [found2 Hid2].
    destruct (highlightsOfText_id contractText t start h) as [found Hid1].
    { rewrite E. left. reflexivity. }
    rewrite Hid1, Hid2 in Hid. apply exact_id_inj in Hid. lia.
Qed.

(** X3.  The highlights returned for a list of exact texts are at most as
    many as the texts, and no two of them have the same id. *)
Theorem resolver_ids_distinct (contractText : str) (exactTexts : list str) :
  length (findExactTextHighlights contractText exactTexts) <= length exactTexts
  /\ NoDup (map id (findExactTextHighlights contractText exactTexts)).
Proof.
  unfold findExactTextHighlights. split.
  - apply forEachIndexed_length. intros t k. apply highlightsOfText_length.
  - apply exact_ids_distinct_from.
Qed.

End Identifiers.

(** ** Citation markers: closed, cut short, absent *)

Section Markers.
Import JS Regex ChatInterface.

Lemma literal_headed (R : Type) (c : ascii) (l : str) (k : str -> option R) :
  literal (c :: l) k [] = None
  /\ forall d t, d <> c -> literal (c :: l) k (d :: t) = None.
Proof.
  split; [reflexivity |]. intros d t Hd. unfold literal. simpl.
  rewrite (proj2 (eqc_false c d)); [reflexivity | congruence].
Qed.

Ltac headed :=
  match goal with
  | |- headedBy ?c ?p =>
      let H := fresh "H" in
      unfold p;
      split;
      [ reflexivity
      | intros d t H; cbv beta;
        match goal with
        | |- match literal ?l ?k (d :: t) with _ => _ end = None =>
            let l' := eval cbv in l in
            change l with l';
            rewrite (proj2 (literal_headed _ _ _ k) d t H); reflexivity
        | |- literal ?l ?k (d :: t) = None =>
            let l' := eval cbv in l in
            change l with l';
            exact (proj2 (literal_headed _ _ _ k) d t H)
        end ]
  end.

Lemma perfectFormat_headed : headedBy "<" perfectFormat.
Proof. headed. Qed.

Lemma missingClosing_headed : headedBy "<" missingClosing.
Proof. headed. Qed.

Lemma extraInOpening_headed : headedBy "<" extraInOpening.
Proof. headed. Qed.

Lemma quotedMoney_headed : headedBy DQUOTE quotedMoney.
Proof. headed. Qed.

Lemma quotedText_headed : headedBy DQUOTE quotedText.
Proof. headed. Qed.

Lemma scanFrom_absent (G : Type) (c : ascii) (p : patternAt G) :
  headedBy c p ->
  forall s k, ~ In c s -> scanFrom p k s = [].
Proof.
  intros [_ Hp]. induction s as [|d s IH]; intros k Hc; simpl.
  - reflexivity.
  - assert (Hd : d <> c) by (intro E; apply Hc; left; exact E).
    assert (Hs : ~ In c s) by (intro E; apply Hc; right; exact E).
    destruct k as [|k]; [| exact (IH k Hs)].
    rewrite (Hp d s Hd). exact (IH 0 Hs).
Qed.

Lemma scanFrom_past (G : Type) (c : ascii) (p : patternAt G) :
  headedBy c p ->
  forall before s, ~ In c before -> scanFrom p 0 (before ++ s) = scanFrom p 0 s.
Proof.
  intros [_ Hp]. induction before as [|d before IH]; intros s Hc; simpl.
  - reflexivity.
  - assert (Hd : d <> c) by (intro E; apply Hc; left; exact E).
    rewrite (Hp d (before ++ s) Hd). apply IH. intro E. apply Hc. right. exact E.
Qed.

Lemma scanFrom_first (G : Type) (p : patternAt G) (d : ascii) (s : str) (g : G) (rest : str) :
  p (d :: s) = Some (g, rest) ->
  exists matched more, scanFrom p 0 (d :: s) = (matched, g) :: more.
Proof.
  intro H. simpl. rewrite H. eexists. eexists. reflexivity.
Qed.

(** The text of a citation: no opening angle bracket, no line terminator. *)
Lemma lazy_to_marker (t after : str) :
  ~ In "<"%char t ->
  Forall (fun c => notLineTerminator c = true) t ->
  lazyStar notLineTerminator (literal MARKER (@Some str)) (t ++ MARKER ++ after)
  = Some (t, after).
Proof.
  induction t as [|a t IH]; intros Hlt Hnl.
  - simpl app. destruct after; reflexivity.
  - assert (Ha : a <> "<"%char) by (intro E; apply Hlt; left; exact E).
    inversion Hnl as [|? ? Hnl1 Hnl2]; subst.
    change ((a :: t) ++ MARKER ++ after) with (a :: (t ++ MARKER ++ after)).
    cbn [lazyStar].
    replace (literal MARKER (@Some str) (a :: t ++ MARKER ++ after)) with (@None str).
    + rewrite Hnl1, IH; [reflexivity | | assumption].
      intro E. apply Hlt. right. exact E.
    + symmetry. apply (proj2 (literal_headed str "<" (lit "<HIGHLIGHT>>") (@Some str))).
      exact Ha.
Qed.

Lemma lazy_to_end (t : str) :
  ~ In "<"%char t ->
  Forall (fun c => notLineTerminator c = true) t ->
  lazyStar notLineTerminator beforeMarkerOrEnd t = Some (t, []).
Proof.
  induction t as [|a t IH]; intros Hlt Hnl.
  - reflexivity.
  - assert (Ha : a <> "<"%char) by (intro E; apply Hlt; left; exact E).
    inversion Hnl as [|? ? Hnl1 Hnl2]; subst.
    cbn [lazyStar]. unfold beforeMarkerOrEnd at 1.
    replace (startsWith (lit "<<HIGHLIGHT") (a :: t)) with false
      by (symmetry; apply (startsWith_head "<" a); congruence).
    rewrite Hnl1, IH; [reflexivity | | assumption].
    intro E. apply Hlt. right. exact E.
Qed.

Lemma perfectFormat_closed (t after : str) :
  ~ In "<"%char t ->
  Forall (fun c => notLineTerminator c = true) t ->
  perfectFormat (MARKER ++ t ++ MARKER ++ after) = Some ((Some t, None), after).
Proof.
  intros Hlt Hnl. unfold perfectFormat, literal at 1.
  rewrite stripPrefix_app, lazy_to_marker by assumption. reflexivity.
Qed.

Lemma missingClosing_open (t : str) :
  ~ In "<"%char t ->
  Forall (fun c => notLineTerminator c = true) t ->
  missingClosing (MARKER ++ t) = Some ((Some t, None), []).
Proof.
  intros Hlt Hnl. unfold missingClosing, literal.
  rewrite stripPrefix_app, lazy_to_end by assumption. reflexivity.
Qed.

Lemma pushedBy_long (t : str) : 3 < length t -> pushedBy (Some t, None) = [trim t].
Proof.
  intro H. unfold pushedBy, orElse. simpl.
  destruct t as [|a t]; [simpl in H; lia |]. simpl.
  replace (3 <? S (length t)) with true by (symmetry; apply Nat.ltb_lt; simpl in H; lia).
  reflexivity.
Qed.

Lemma markerSpans_extracted (answer question span : str) :
  In span (markerSpans answer) -> In span (exactTextsToHighlight answer question).
Proof.
  intro H. unfold exactTextsToHighlight.
  destruct (markerSpans answer) as [|s l] eqn:E; [contradiction | exact H].
Qed.

Lemma span_of_match (answer : str) (pattern : patternAt Groups)
      (before : str) (d : ascii) (s t rest : str) :
  In pattern highlightPatterns ->
  headedBy "<" pattern ->
  ~ In "<"%char before ->
  answer = before ++ d :: s ->
  pattern (d :: s) = Some ((Some t, None), rest) ->
  3 < length t ->
  In (trim t) (markerSpans answer).
Proof.
  intros Hin Hhead Hbefore -> Hmatch Hlen.
  unfold markerSpans. apply in_flat_map. exists pattern. split; [exact Hin |].
  unfold spansOfPattern, matchAll.
  rewrite (scanFrom_past _ _ _ Hhead before (d :: s) Hbefore).
  destruct (scanFrom_first _ pattern d s _ _ Hmatch) as (matched & more & E).
  rewrite E. simpl. rewrite (pushedBy_long t Hlen). simpl. left. reflexivity.
Qed.

(** X4.  A citation of more than 3 code units without line terminator or
    opening angle bracket, placed after text without opening angle
    bracket, is extracted, trimmed, both when it stands between two
    markers and when the answer ends inside it, its closing marker
    missing. *)
Theorem citation_extracted_closed_or_cut (before t after question : str) :
  ~ In "<"%char before ->
  ~ In "<"%char t ->
  Forall (fun c => notLineTerminator c = true) t ->
  3 < length t ->
  In (trim t) (exactTextsToHighlight (before ++ MARKER ++ t ++ MARKER ++ after) question)
  /\ In (trim t) (exactTextsToHighlight (before ++ MARKER ++ t) question).
Proof.
  intros Hb Ht Hnl Hlen. split; apply markerSpans_extracted.
  - apply (span_of_match (before ++ MARKER ++ t ++ MARKER ++ after) perfectFormat before
             "<" (lit "<HIGHLIGHT>>" ++ t ++ MARKER ++ after) t after).
    + left. reflexivity.
    + exact perfectFormat_headed.
    + exact Hb.
    + reflexivity.
    + exact (perfectFormat_closed t after Ht Hnl).
    + exact Hlen.
  - apply (span_of_match (before ++ MARKER ++ t) missingClosing before
             "<" (lit "<HIGHLIGHT>>" ++ t) t []).
    + right. left. reflexivity.
    + exact missingClosing_headed.
    + exact Hb.
    + reflexivity.
    + exact (missingClosing_open t Ht Hnl).
    + exact Hlen.
Qed.

End Markers.

(** ** An answer that cites nothing *)

Section NoCitation.
Import JS Regex ChatInterface.

Lemma markerSpans_plain (answer : str) :
  ~ In "<"%char answer -> ~ In DQUOTE answer -> markerSpans answer = [].
Proof.
  intros Hlt Hq. unfold markerSpans, highlightPatterns, spansOfPattern, matchAll. simpl.
  rewrite (scanFrom_absent _ _ _ perfectFormat_headed answer 0 Hlt).
  rewrite (scanFrom_absent _ _ _ missingClosing_headed answer 0 Hlt).
  rewrite (scanFrom_absent _ _ _ extraInOpening_headed answer 0 Hlt).
  rewrite (scanFrom_absent _ _ _ quotedMoney_headed answer 0 Hq).
  reflexivity.
Qed.

(** X5.  When the answer holds neither an opening angle bracket nor a
    double quote and the question names none of the keywords payment,
    pay, termination, terminate, value, amount and cost, nothing is
    extracted, and an accepted submission leaves the viewer without
    highlights, whatever it showed before. *)
Theorem plain_answer_clears_highlights
        (now0 now1 : N) (input answer : str) (app : App.State) :
  trim input <> [] ->
  App.contractText app <> [] ->
  ~ In "<"%char answer ->
  ~ In DQUOTE answer ->
  Forall (fun keyword : string => includes (lit keyword) (toLowerCase input) = false)
         ["payment"; "pay"; "termination"; "terminate"; "value"; "amount"; "cost"]%string ->
  exactTextsToHighlight answer input = []
  /\ App.viewer (App.handleSubmit now0 now1 input (App.Streamed answer) app)
     = ContractViewer.initial.
Proof.
  intros Hq Hc Hlt Hdq Hkw.
  assert (E : exactTextsToHighlight answer input = []).
  { unfold exactTextsToHighlight. rewrite (markerSpans_plain answer Hlt Hdq). simpl.
    unfold extractKeyPhrasesForHighlighting, matchAll.
    rewrite (scanFrom_absent _ _ _ quotedText_headed answer 0 Hdq).
    repeat match goal with
           | H : Forall _ (_ :: _) |- _ => inversion H as [|? ? ?Hk ?Hrest]; clear H; subst
           end.
    repeat match goal with H : includes _ _ = false |- _ => rewrite H; clear H end.
    reflexivity. }
  split; [exact E |].
  destruct (handleSubmit_highlights now0 now1 input answer app Hq Hc) as [_ Hv].
  rewrite Hv. unfold resolvedHighlights. rewrite E. reflexivity.
Qed.

End NoCitation.

(** ** The displayed answer: [cleanContent] *)

Section Display.
Import JS Regex ChatInterface App.

Section Replace.
Variable G : Type.
Variable p : patternAt G.
Variable q : ascii.

Lemma replaceFrom_skip (k : nat) :
  forall s, replaceFrom p [q] k s = replaceFrom p [q] 0 (skipn k s).
Proof.
  induction k as [|k IH]; intro s.
  - reflexivity.
  - destruct s as [|c s]; [reflexivity |]. simpl. apply IH.
Qed.

(** What follows any cut of the output is again the output for some input. *)
Lemma replaceFrom_suffix (u : str) :
  forall s rest,
    replaceFrom p [q] 0 s = u ++ rest -> exists s', rest = replaceFrom p [q] 0 s'.
Proof.
  induction u as [|a u IH]; intros s rest H.
  - exists s. symmetry. exact H.
  - destruct s as [|c s]; [discriminate |].
    cbn [replaceFrom] in H. destruct (p (c :: s)) as [[g r]|].
    + simpl in H. injection H as _ H. rewrite replaceFrom_skip in H. exact (IH _ _ H).
    + simpl in H. injection H as _ H. exact (IH _ _ H).
Qed.

(** A text without the replacement character that begins the output
    begins the input too, where the pattern did not match. *)
Lemma replaceFrom_prefix (w : str) :
  ~ In q w -> w <> [] ->
  forall s rest,
    replaceFrom p [q] 0 s = w ++ rest -> (exists rest', s = w ++ rest') /\ p s = None.
Proof.
  induction w as [|a w IH]; intros Hq Hw s rest H; [contradiction |].
  destruct s as [|c s]; [discriminate |].
  cbn [replaceFrom] in H. destruct (p (c :: s)) as [[g r]|] eqn:E.
  - simpl in H. injection H as H _. exfalso. apply Hq. left. symmetry. exact H.
  - simpl in H. injection H as -> H. split; [| reflexivity].
    destruct w as [|b w].
    + exists s. reflexivity.
    + destruct (IH (fun X => Hq (or_intror X)) ltac:(discriminate) s rest H) as [[rest' ->] _].
      exists rest'. reflexivity.
Qed.

Lemma replaceFrom_plain (c : ascii) :
  headedBy c p ->
  forall s, ~ In c s -> replaceFrom p [q] 0 s = s.
Proof.
  intros [_ Hp]. induction s as [|d s IH]; intros Hc; simpl.
  - reflexivity.
  - rewrite (Hp d s); [| intro E; apply Hc; left; exact E].
    rewrite IH; [reflexivity |]. intro E. apply Hc. right. exact E.
Qed.

End Replace.

Lemma markerOpening_matches (rest : str) :
  markerOpening (lit "<<HIGHLIGHT" ++ rest) = Some (tt, rest).
Proof.
  unfold markerOpening, literal. rewrite stripPrefix_app. reflexivity.
Qed.

Lemma markerToken_headed : headedBy "<" markerToken.
Proof.
  split; [reflexivity |]. intros d t H.
  exact (proj2 (literal_headed _ "<" (lit "<HIGHLIGHT>>") (fun rest => Some (tt, rest))) d t H).
Qed.

Lemma markerOpening_headed : headedBy "<" markerOpening.
Proof.
  split; [reflexivity |]. intros d t H.
  exact (proj2 (literal_headed _ "<" (lit "<HIGHLIGHT") (fun rest => Some (tt, rest))) d t H).
Qed.

Lemma markerWithExtra_headed : headedBy "<" markerWithExtra.
Proof.
  split; [reflexivity |]. intros d t H. unfold markerWithExtra.
  change (lit "<<HIGHLIGHT") with ("<"%char :: lit "<HIGHLIGHT").
  rewrite (proj2 (literal_headed _ "<" (lit "<HIGHLIGHT") _) d t H). reflexivity.
Qed.

(** X6.  The text displayed for an answer never holds the opening of a
    marker, [<<HIGHLIGHT], whatever the answer; an answer without opening
    angle bracket is displayed as it is. *)
Theorem displayed_answer_has_no_marker (assistantContent : str) :
  ~ occursIn (lit "<<HIGHLIGHT") (cleanContent assistantContent)
  /\ (~ In "<"%char assistantContent -> cleanContent assistantContent = assistantContent).
Proof.
  split.
  - intros (before & after & H). unfold cleanContent, replaceAll in H.
    destruct (replaceFrom_suffix _ markerOpening DQUOTE before _ _ H) as [s' Hs'].
    symmetry in Hs'.
    destruct (replaceFrom_prefix _ markerOpening DQUOTE (lit "<<HIGHLIGHT")) with (s := s') (rest := after)
      as [[rest' ->] Hnone].
    + vm_compute. intuition discriminate.
    + discriminate.
    + exact Hs'.
    + rewrite markerOpening_matches in Hnone. discriminate.
  - intro Hlt. unfold cleanContent, replaceAll.
    rewrite (replaceFrom_plain _ markerToken DQUOTE "<" markerToken_headed _ Hlt).
    rewrite (replaceFrom_plain _ markerWithExtra DQUOTE "<" markerWithExtra_headed _ Hlt).
    rewrite (replaceFrom_plain _ markerOpening DQUOTE "<" markerOpening_headed _ Hlt).
    reflexivity.
Qed.

End Display.

(** ** Trimming *)

Section TrimFacts.
Import JS.

Lemma trimStart_blank (s : str) :
  Forall (fun c => isWhiteSpace c = true) s -> trimStart s = [].
Proof.
  induction 1 as [|c s Hc _ IH]; simpl; [reflexivity |]. rewrite Hc. exact IH.
Qed.

Lemma trimStart_head (s : str) (c : ascii) (r : str) :
  trimStart s = c :: r -> isWhiteSpace c = false.
Proof.
  induction s as [|d s IH]; simpl; [discriminate |].
  destruct (isWhiteSpace d) eqn:E; [exact IH |].
  intro H. injection H as <- _. exact E.
Qed.

Lemma trimStart_fixed (c : ascii) (s : str) :
  isWhiteSpace c = false -> trimStart (c :: s) = c :: s.
Proof.
  intro H. simpl. rewrite H. reflexivity.
Qed.

(** Trimming the start of a text that holds a character that is not white
    space keeps everything from some point before that character on. *)
Lemma trimStart_keeps (a : str) (c : ascii) (b : str) :
  isWhiteSpace c = false ->
  exists a', trimStart (a ++ c :: b) = a' ++ c :: b.
Proof.
  intro Hc. induction a as [|d a IH]; simpl.
  - rewrite Hc. exists []. reflexivity.
  - destruct (isWhiteSpace d).
    + exact IH.
    + exists (d :: a). reflexivity.
Qed.

Lemma trimEnd_keeps (m : str) (c : ascii) (tail : str) :
  isWhiteSpace c = false ->
  exists z, trimEnd ((m ++ [c]) ++ tail) = (m ++ [c]) ++ z.
Proof.
  intro Hc. unfold trimEnd. rewrite !rev_app_distr. simpl.
  destruct (trimStart_keeps (rev tail) c (rev m) Hc) as [a' E].
  rewrite E. exists (rev a'). rewrite rev_app_distr. simpl.
  rewrite rev_involutive, <- !app_assoc. reflexivity.
Qed.

(** A trimmed text that is not empty ends with a character that is not
    white space. *)
Lemma trim_last (s : str) :
  trim s <> [] -> exists m c, trim s = m ++ [c] /\ isWhiteSpace c = false.
Proof.
  unfold trim, trimEnd. intro H.
  destruct (trimStart (rev (trimStart s))) as [|c r] eqn:E; [contradiction |].
  exists (rev r), c. split; [reflexivity |]. exact (trimStart_head _ _ _ E).
Qed.

End TrimFacts.

(** ** Text extraction: [extractTextFromPDF] *)

Section Extractor.
Import JS PdfTextExtractor.

Lemma appendPages_blank (pages : list (list TextItem)) :
  Forall (fun items => pageTextOf items = []) pages ->
  forall pageNum fullText,
    appendPages pages pageNum fullText = fullText.
Proof.
  induction 1 as [|items pages Hb _ IH]; intros pageNum fullText; cbn [appendPages].
  - reflexivity.
  - rewrite Hb. cbn [length Nat.ltb Nat.leb]. exact (IH _ _).
Qed.

Lemma appendPages_skip (before : list (list TextItem)) :
  Forall (fun items => pageTextOf items = []) before ->
  forall rest pageNum fullText,
    appendPages (before ++ rest) pageNum fullText
    = appendPages rest (pageNum + N.of_nat (length before))%N fullText.
Proof.
  induction 1 as [|items before Hb _ IH]; intros rest pageNum fullText.
  - simpl. rewrite N.add_0_r. reflexivity.
  - cbn [app appendPages]. rewrite Hb. cbn [length Nat.ltb Nat.leb].
    rewrite IH. f_equal. lia.
Qed.

Lemma appendPages_extends (pages : list (list TextItem)) :
  forall pageNum fullText,
    exists tail, appendPages pages pageNum fullText = fullText ++ tail.
Proof.
  induction pages as [|items pages IH]; intros pageNum fullText; cbn [appendPages].
  - exists []. rewrite app_nil_r. reflexivity.
  - destruct (0 <? length (pageTextOf items)).
    + destruct (IH (pageNum + 1)%N
                   (fullText ++ [LF; LF] ++ pageMarker pageNum ++ [LF] ++ pageTextOf items))
        as [tail E].
      rewrite E. eexists. rewrite <- !app_assoc. reflexivity.
    + exact (IH _ _).
Qed.

Lemma trimStart_marker (n : N) (x : str) :
  trimStart (LF :: LF :: pageMarker n ++ x) = pageMarker n ++ x.
Proof.
  unfold pageMarker. reflexivity.
Qed.

(** X8.  Extraction is rejected when no page has text left after
    normalization.  Otherwise the extracted text begins with the marker
    of the first page that has text, numbered by its position in the
    document, a line feed and the normalized text of that page. *)
Theorem extraction_begins_with_first_page (pages : list (list TextItem)) :
  (Forall (fun items => pageTextOf items = []) pages -> extractTextFromPDF pages = None)
  /\ (forall before items after,
        pages = before ++ items :: after ->
        Forall (fun blank => pageTextOf blank = []) before ->
        pageTextOf items <> [] ->
        exists tail,
          extractTextFromPDF pages
          = Some (pageMarker (N.of_nat (length before) + 1) ++ [LF] ++ pageTextOf items ++ tail)).
Proof.
  split.
  - intro Hblank. unfold extractTextFromPDF.
    rewrite (appendPages_blank pages Hblank 1%N []). reflexivity.
  - intros before items after -> Hblank Hitems. unfold extractTextFromPDF.
    rewrite (appendPages_skip before Hblank). cbn [appendPages].
    replace (0 <? length (pageTextOf items)) with true
      by (destruct (pageTextOf items); [contradiction | reflexivity]).
    set (n := (1 + N.of_nat (length before))%N).
    destruct (appendPages_extends after (n + 1)%N
                ([] ++ [LF; LF] ++ pageMarker n ++ [LF] ++ pageTextOf items)) as [tail ->].
    destruct (trim_last _ Hitems) as (m & c & Em & Hc).
    fold (pageTextOf items) in Em.
    assert (Estart : trim (([] ++ [LF; LF] ++ pageMarker n ++ [LF] ++ pageTextOf items) ++ tail)
                     = trimEnd (((pageMarker n ++ [LF] ++ m) ++ [c]) ++ tail)).
    { unfold trim. f_equal. rewrite Em. repeat rewrite <- app_assoc. cbn [app].
      exact (trimStart_marker n _). }
    rewrite Estart.
    destruct (trimEnd_keeps (pageMarker n ++ [LF] ++ m) c tail Hc) as [z Ez].
    rewrite Ez.
    replace (length (((pageMarker n ++ [LF] ++ m) ++ [c]) ++ z) =? 0) with false
      by (symmetry; apply Nat.eqb_neq; rewrite !length_app; simpl; lia).
    exists z. f_equal. rewrite Em, <- !app_assoc. simpl.
    replace (N.of_nat (length before) + 1)%N with n by (unfold n; lia).
    reflexivity.
Qed.

End Extractor.

(** ** The chat route: truncation and answers *)

Section Truncation.
Import JS ChatRoute.

Lemma limits : 15000 = 10500 + 4500 /\ 15038 = 10500 + 38 + 4500.
Proof.
  split; vm_compute; reflexivity.
Qed.

(** X9.  A contract of at most 15000 code units goes into the prompt
    whole.  A longer one is replaced by its first 10500 code units, a
    notice of 38 code units and its last 4500 code units: 15038 code units
    in all, more than the limit, and more than the contract itself when
    that has fewer than 15038. *)
Theorem truncateForChat_shape (text : str) :
  (length text <= 15000 -> truncateForChat text = text)
  /\ (15000 < length text ->
      length (truncateForChat text) = 15038
      /\ firstn 10500 (truncateForChat text) = firstn 10500 text
      /\ skipn (10500 + 38) (truncateForChat text) = skipn (length text - 4500) text).
Proof.
  destruct limits as [L1 L2]. unfold truncateForChat.
  generalize dependent 15038. generalize dependent 15000.
  generalize 10500. generalize 4500.
  intros b a m L1 M L2. subst m M. split.
  - intro H. apply Nat.leb_le in H. rewrite H. reflexivity.
  - intro H. assert (E : (length text <=? a + b) = false) by (apply Nat.leb_gt; exact H).
    rewrite E.
    assert (Ha : length (firstn a text) = a) by (rewrite length_firstn; lia).
    split; [| split].
    + rewrite !length_app, Ha, length_skipn. simpl. lia.
    + rewrite firstn_app, Ha, Nat.sub_diag. simpl. rewrite app_nil_r.
      rewrite firstn_firstn. f_equal. lia.
    + rewrite skipn_app, Ha.
      replace (a + 38 - a) with 38 by lia.
      rewrite (skipn_all2 (firstn a text)) by lia. reflexivity.
Qed.

End Truncation.

Section RouteAnswers.
Import JS ChatRoute.

(** Takes apart the conjunctions and witnesses among the hypotheses. *)
Ltac open_up :=
  repeat match goal with
         | H : exists _, _ |- _ => destruct H
         | H : _ /\ _ |- _ => destruct H
         end.

(** Settles an answer of the route that the hypotheses exclude. *)
Ltac excluded := intros; open_up; first [discriminate | congruence].

(** X10.  The answers of the route, case by case.  It answers with the
    stream exactly when the API key is configured, the body of the
    request could be read, and the upstream request was answered with a
    success status.  It answers with status 429 exactly when the upstream
    request was answered with status 429, and then with the quota message
    and the upstream body.  Every other answer is an error in JSON with
    status 500: no other upstream status is passed on. *)
Theorem POST_answer_classes
        (apiKeyConfigured : bool) (requestJson : Try ChatRequest)
        (fetchCompletion : str -> str -> Try Upstream) :
  let response := POST apiKeyConfigured requestJson fetchCompletion in
  let answered (r : Upstream) :=
    apiKeyConfigured = true
    /\ exists req lastMessage,
         requestJson = inr req
         /\ lastMessageOf req = inr lastMessage
         /\ fetchCompletion (contractForPrompt req) lastMessage = inr r in
  (forall r, response = EventStream r <-> answered r /\ upstreamOk r = true)
  /\ (forall error details,
        response = Json 429 error details
        <-> exists r, answered r /\ upstreamStatus r = 429%N
                      /\ error = QUOTA_MESSAGE /\ details = Some (upstreamBody r))
  /\ (forall status error details,
        response = Json status error details -> status = 429%N \/ status = 500%N).
Proof.
  cbv zeta. unfold POST, tryBlock, bind, ret, throw.
  destruct requestJson as [[message|]|req];
    [conjuncts; [split; excluded | split; excluded
                 | intros status error details H; injection H as <- _ _; right; reflexivity] ..
    |].
  destruct apiKeyConfigured; cbn [negb];
    [| conjuncts; [split; excluded | split; excluded
                   | intros status error details H; injection H as <- _ _; right; reflexivity]].
  destruct (lastMessageOf req) as [[message|]|lastMessage] eqn:Elast;
    [conjuncts; [split; excluded | split; excluded
                 | intros status error details H; injection H as <- _ _; right; reflexivity] ..
    |].
  destruct (fetchCompletion (contractForPrompt req) lastMessage) as [[message|]|r] eqn:Efetch;
    [conjuncts; [split; excluded | split; excluded
                 | intros status error details H; injection H as <- _ _; right; reflexivity] ..
    |].
  destruct (upstreamOk r) eqn:Eok; cbn [negb].
  - conjuncts.
    + intro r'. split.
      * intro H. injection H as <-. conjuncts; [reflexivity | | exact Eok].
        exists req, lastMessage. conjuncts; [reflexivity | exact Elast | exact Efetch].
      * intros [(_ & req' & m' & Hreq & Hlast & Hfetch) _].
        injection Hreq as <-. rewrite Elast in Hlast. injection Hlast as <-.
        rewrite Efetch in Hfetch. injection Hfetch as <-. reflexivity.
    + intros error details. split; [discriminate |].
      intros (r' & (_ & req' & m' & Hreq & Hlast & Hfetch) & H429 & _).
      injection Hreq as <-. rewrite Elast in Hlast. injection Hlast as <-.
      rewrite Efetch in Hfetch. injection Hfetch as <-.
      apply status_429_not_ok in H429. congruence.
    + discriminate.
  - destruct (upstreamStatus r =? 429)%N eqn:E429.
    + apply N.eqb_eq in E429. conjuncts.
      * intro r'. split; [discriminate |].
        intros [(_ & req' & m' & Hreq & Hlast & Hfetch) Hok].
        injection Hreq as <-. rewrite Elast in Hlast. injection Hlast as <-.
        rewrite Efetch in Hfetch. injection Hfetch as <-. congruence.
      * intros error details. split.
        -- intro H. injection H as <- <-. exists r.
           conjuncts; [reflexivity | | exact E429 | reflexivity | reflexivity].
           exists req, lastMessage. conjuncts; [reflexivity | exact Elast | exact Efetch].
        -- intros (r' & (_ & req' & m' & Hreq & Hlast & Hfetch) & _ & -> & ->).
           injection Hreq as <-. rewrite Elast in Hlast. injection Hlast as <-.
           rewrite Efetch in Hfetch. injection Hfetch as <-. reflexivity.
      * intros status error details H. injection H as <- _ _. left. reflexivity.
    + apply N.eqb_neq in E429. conjuncts.
      * intro r'. split; [discriminate |].
        intros [(_ & req' & m' & Hreq & Hlast & Hfetch) Hok].
        injection Hreq as <-. rewrite Elast in Hlast. injection Hlast as <-.
        rewrite Efetch in Hfetch. injection Hfetch as <-. congruence.
      * intros error details. split; [discriminate |].
        intros (r' & (_ & req' & m' & Hreq & Hlast & Hfetch) & H429 & _).
        injection Hreq as <-. rewrite Elast in Hlast. injection Hlast as <-.
        rewrite Efetch in Hfetch. injection Hfetch as <-. contradiction.
      * intros status error details H. injection H as <- _ _. right. reflexivity.
Qed.

End RouteAnswers.

(** ** Navigation after a new answer *)

Section NavigationMore.
Import ContractViewer.
Local Open Scope Z_scope.

(** X11.  After a non-empty list of highlights has been set, pressing
    next [k] times makes the highlight at position [k] modulo the number
    of highlights the active one, the list staying as it was; and on any
    valid state next undoes previous. *)
Theorem next_presses_after_set
        (newHighlights : list ChatInterface.Highlight) (st : State) (k : nat) :
  newHighlights <> [] ->
  let st' := Nat.iter k (handleHighlightNavigation next) (addHighlights newHighlights st) in
  highlights st' = newHighlights
  /\ activeHighlight st' = nth_error newHighlights (k mod length newHighlights)%nat
  /\ (forall valid : State,
        highlights valid <> [] ->
        0 <= currentHighlight valid < Z.of_nat (length (highlights valid)) ->
        handleHighlightNavigation next (handleHighlightNavigation prev valid) = valid).
Proof.
  intros Hne st'.
  assert (Hlen : (0 < length newHighlights)%nat) by (destruct newHighlights; [contradiction | simpl; lia]).
  assert (Est : st' = {| highlights := newHighlights;
                         currentHighlight := Z.of_nat k mod Z.of_nat (length newHighlights) |}).
  { unfold st'. rewrite iter_next.
    - unfold addHighlights; simpl. destruct newHighlights; [contradiction | reflexivity].
    - exact Hne.
    - unfold addHighlights; simpl. destruct newHighlights; [contradiction | simpl; lia]. }
  split; [rewrite Est; reflexivity |]. split.
  - rewrite Est. unfold activeHighlight. simpl.
    pose proof (Z.mod_pos_bound (Z.of_nat k) (Z.of_nat (length newHighlights)) ltac:(lia)) as Hb.
    replace (Z.of_nat k mod Z.of_nat (length newHighlights) <? 0) with false
      by (symmetry; apply Z.ltb_ge; lia).
    f_equal. rewrite <- Nat2Z.inj_mod. apply Nat2Z.id.
  - intros valid Hv Hr. unfold handleHighlightNavigation.
    destruct (length (highlights valid) =? 0)%nat eqn:E.
    + apply length_zero_nil in E. contradiction.
    + simpl. rewrite E. simpl.
      set (n := Z.of_nat (length (highlights valid))) in *.
      assert (Hn : 0 < n) by lia.
      destruct valid as [hs cur]; simpl in *. f_equal.
      rewrite (Z.rem_mod_nonneg (cur - 1 + n) n) by lia.
      pose proof (Z.mod_pos_bound (cur - 1 + n) n Hn) as Hb.
      rewrite Z.rem_mod_nonneg by lia.
      rewrite Zplus_mod_idemp_l.
      replace (cur - 1 + n + 1) with (cur + 1 * n) by lia.
      rewrite Z.mod_add by lia. apply Z.mod_small. lia.
Qed.

End NavigationMore.

(** ** The title of an uploaded document *)

Section Title.
Import JS Upload.

Lemma findAt_after_plain (c : ascii) (p : str) :
  forall a rest pos,
    ~ In c a ->
    findAt (c :: p) (a ++ (c :: p) ++ rest) pos = Some (pos + length a).
Proof.
  induction a as [|d a IH]; intros rest pos Hc.
  - change ([] ++ (c :: p) ++ rest) with (c :: (p ++ rest)). cbn [findAt].
    assert (E : startsWith (c :: p) (c :: p ++ rest) = true)
      by (apply startsWith_iff; exists rest; reflexivity).
    rewrite E. f_equal. simpl. lia.
  - change ((d :: a) ++ (c :: p) ++ rest) with (d :: (a ++ (c :: p) ++ rest)).
    cbn [findAt].
    rewrite (startsWith_head c d) by (intro E; apply Hc; left; symmetry; exact E).
    rewrite IH by (intro E; apply Hc; right; exact E).
    f_equal. simpl. lia.
Qed.

(** X12.  The title of an uploaded document is its file name without the
    first [.pdf] in it: a name made of a part without dot, [.pdf] and a
    rest gives that part followed by the rest, and a name in which [.pdf]
    does not occur in lower case is its own title.  A file whose type is
    not application/pdf changes nothing. *)
Theorem title_drops_first_pdf (a rest name mimeType : str) (st : State) :
  (~ In "."%char a -> documentTitleOf (a ++ lit ".pdf" ++ rest) = a ++ rest)
  /\ (~ occursIn (lit ".pdf") name -> documentTitleOf name = name)
  /\ (mimeType <> lit "application/pdf" -> handleFileUpload name mimeType st = st).
Proof.
  split; [| split].
  - intro Ha. unfold documentTitleOf, replaceFirst, indexOf.
    cbn [Nat.min skipn].
    change (lit ".pdf") with ("."%char :: lit "pdf").
    rewrite (findAt_after_plain "." (lit "pdf") a rest 0 Ha). cbn [Nat.add].
    rewrite firstn_app, firstn_all, Nat.sub_diag. simpl firstn. rewrite app_nil_r.
    cbn [app]. f_equal.
    replace (length a + length ("."%char :: lit "pdf"))
      with (length (a ++ "."%char :: lit "pdf")) by (rewrite length_app; reflexivity).
    change (a ++ "."%char :: lit "pdf" ++ rest) with (a ++ ("."%char :: lit "pdf") ++ rest).
    rewrite app_assoc, skipn_app, skipn_all, Nat.sub_diag. reflexivity.
  - intro Hno. unfold documentTitleOf, replaceFirst.
    destruct (indexOf (lit ".pdf") name 0) as [found|] eqn:E; [| reflexivity].
    exfalso. apply Hno. destruct (indexOf_some _ _ _ E) as (before & after & E1 & _).
    exists before, after. exact E1.
  - intro Htype. unfold handleFileUpload, strEqb.
    destruct (stripPrefix mimeType (lit "application/pdf")) as [[|c r]|] eqn:E; try reflexivity.
    exfalso. apply Htype. apply stripPrefix_some in E. rewrite app_nil_r in E.
    symmetry. exact E.
Qed.

End Title.

(** ** Normalized text *)

Section Normalization.
Import JS PdfTextExtractor ChatInterface.

Lemma trimStart_suffix (s : str) : exists w, s = w ++ trimStart s.
Proof.
  induction s as [|c s [w IH]]; simpl.
  - exists []. reflexivity.
  - destruct (isWhiteSpace c).
    + exists (c :: w). simpl. rewrite <- IH. reflexivity.
    + exists []. reflexivity.
Qed.

Lemma trimEnd_prefix (s : str) : exists w, s = trimEnd s ++ w.
Proof.
  unfold trimEnd. destruct (trimStart_suffix (rev s)) as [w E].
  exists (rev w). rewrite <- rev_app_distr, <- E, rev_involutive. reflexivity.
Qed.

Lemma trimEnd_fixed (m : str) (c : ascii) :
  isWhiteSpace c = false -> trimEnd (m ++ [c]) = m ++ [c].
Proof.
  intro H. unfold trimEnd. rewrite rev_app_distr. simpl. rewrite H. simpl.
  rewrite rev_involutive. reflexivity.
Qed.

(** A text with no white space at either end is left as it is. *)
Lemma trim_fixed (c : ascii) (r m : str) (d : ascii) :
  isWhiteSpace c = false -> isWhiteSpace d = false ->
  c :: r = m ++ [d] -> trim (c :: r) = c :: r.
Proof.
  intros Hc Hd E. unfold trim. rewrite (trimStart_fixed c r Hc), E.
  exact (trimEnd_fixed m d Hd).
Qed.

(** What [trim] gives is empty, or has no white space at either end. *)
Lemma trim_ends (s : str) :
  trim s = []
  \/ exists c r m d, trim s = c :: r /\ trim s = m ++ [d]
                     /\ isWhiteSpace c = false /\ isWhiteSpace d = false.
Proof.
  destruct (trim s) as [|c r] eqn:E; [left; reflexivity | right].
  assert (Hne : trim s <> []) by (rewrite E; discriminate).
  destruct (trim_last s Hne) as (m & d & Em & Hd).
  exists c, r, m, d. rewrite <- E. conjuncts; try assumption; try reflexivity.
  unfold trim in E. destruct (trimEnd_prefix (trimStart s)) as [w Ew].
  rewrite E in Ew. simpl in Ew.
  exact (trimStart_head s c (r ++ w) Ew).
Qed.

Lemma trim_idempotent (s : str) : trim (trim s) = trim s.
Proof.
  destruct (trim_ends s) as [E | (c & r & m & d & Ec & Em & Hc & Hd)].
  - rewrite E. reflexivity.
  - rewrite Ec. rewrite Ec in Em. exact (trim_fixed c r m d Hc Hd Em).
Qed.

Lemma collapseFrom_length (s : str) :
  forall b, length (collapseFrom b s) <= length s.
Proof.
  induction s as [|c s IH]; intro b; simpl; [lia |].
  pose proof (IH true) as Ht. pose proof (IH false) as Hf.
  destruct (isWhiteSpace c); [destruct b |]; simpl; lia.
Qed.

Lemma collapseFrom_true_head (s : str) :
  collapseFrom true (collapseFrom true s) = collapseFrom false (collapseFrom true s).
Proof.
  induction s as [|c s IH]; simpl; [reflexivity |].
  destruct (isWhiteSpace c) eqn:E; [exact IH |].
  simpl. rewrite E. reflexivity.
Qed.

Lemma collapse_idempotent (s : str) :
  forall b, collapseFrom false (collapseFrom b s) = collapseFrom b s.
Proof.
  induction s as [|c s IH]; intro b; simpl; [reflexivity |].
  destruct (isWhiteSpace c) eqn:E.
  - destruct b; [exact (IH true) |].
    simpl. f_equal. rewrite collapseFrom_true_head. exact (IH true).
  - simpl. rewrite E. f_equal. exact (IH false).
Qed.

(** A text without runs of white space stays so when cut at the end. *)
Lemma collapsed_prefix (u : str) :
  forall b v, collapseFrom b (u ++ v) = u ++ v -> collapseFrom b u = u.
Proof.
  induction u as [|c u IH]; intros b v H; [reflexivity |].
  simpl in H. simpl. destruct (isWhiteSpace c) eqn:E.
  - destruct b.
    + exfalso. pose proof (collapseFrom_length (u ++ v) true) as Hl.
      rewrite H in Hl. simpl in Hl. lia.
    + injection H as H1 H2. f_equal; [exact H1 |]. exact (IH true v H2).
  - injection H as H. f_equal. exact (IH false v H).
Qed.

Lemma collapsed_trimStart (s : str) :
  collapseFrom false s = s -> collapseFrom false (trimStart s) = trimStart s.
Proof.
  intro H. destruct s as [|c s]; [reflexivity |].
  simpl in *. destruct (isWhiteSpace c) eqn:E; [| simpl; rewrite E; exact H].
  injection H as _ H.
  destruct s as [|d s]; [reflexivity |].
  simpl in *. destruct (isWhiteSpace d) eqn:Ed.
  - exfalso. pose proof (collapseFrom_length s true) as Hl.
    rewrite H in Hl. simpl in Hl. lia.
  - simpl. rewrite Ed. exact H.
Qed.

Lemma collapsed_trim (s : str) :
  collapseWhitespace s = s -> collapseWhitespace (trim s) = trim s.
Proof.
  unfold collapseWhitespace, trim. intro H. apply collapsed_trimStart in H.
  destruct (trimEnd_prefix (trimStart s)) as [w E].
  apply (collapsed_prefix (trimEnd (trimStart s)) false w). rewrite <- E. exact H.
Qed.

Lemma collapseFrom_last (m : str) (d : ascii) :
  isWhiteSpace d = false ->
  forall b, collapseFrom b (m ++ [d]) = collapseFrom b m ++ [d].
Proof.
  intro Hd. induction m as [|c m IH]; intro b; simpl.
  - rewrite Hd. reflexivity.
  - destruct (isWhiteSpace c); [destruct b |]; simpl; rewrite IH; reflexivity.
Qed.

(** Collapsing the runs of white space of a trimmed text leaves it
    trimmed. *)
Lemma trim_collapsed_trim (s : str) :
  trim (collapseWhitespace (trim s)) = collapseWhitespace (trim s).
Proof.
  destruct (trim_ends s) as [E | (c & r & m & d & Ec & Em & Hc & Hd)].
  - rewrite E. reflexivity.
  - unfold collapseWhitespace.
    assert (Eh : collapseFrom false (trim s) = c :: collapseFrom false r).
    { rewrite Ec. simpl. rewrite Hc. reflexivity. }
    assert (El : collapseFrom false (trim s) = collapseFrom false m ++ [d]).
    { rewrite Em. exact (collapseFrom_last m d Hd false). }
    rewrite Eh. rewrite Eh in El.
    exact (trim_fixed c (collapseFrom false r) (collapseFrom false m) d Hc Hd El).
Qed.

(** The characters of a text without runs of white space and without
    white space at the ends: a white-space character is a space, and
    stands between two characters that are not white space. *)
Lemma collapsed_spaces_from (u : str) (c : ascii) (v : str) :
  isWhiteSpace c = true ->
  forall b, collapseFrom b (u ++ c :: v) = u ++ c :: v ->
  c = " "%char /\ (forall d v', v = d :: v' -> isWhiteSpace d = false).
Proof.
  intro Hc. induction u as [|e u IH]; intros b Hfix.
  - simpl in Hfix. rewrite Hc in Hfix. destruct b.
    + exfalso. pose proof (collapseFrom_length v true) as Hl.
      rewrite Hfix in Hl. simpl in Hl. lia.
    + injection Hfix as Hsp Hv. split; [symmetry; exact Hsp |].
      intros d v' ->. simpl in Hv. destruct (isWhiteSpace d); [| reflexivity].
      exfalso. pose proof (collapseFrom_length v' true) as Hl.
      rewrite Hv in Hl. simpl in Hl. lia.
  - simpl in Hfix. destruct (isWhiteSpace e).
    + destruct b.
      * exfalso. pose proof (collapseFrom_length (u ++ c :: v) true) as Hl.
        rewrite Hfix in Hl. simpl in Hl. lia.
      * injection Hfix as _ Hfix. exact (IH true Hfix).
    + injection Hfix as Hfix. exact (IH false Hfix).
Qed.

(** X13.  The text of a page, as [extractTextFromPDF] builds it from the items
    of the page, has no run of white space, no white space at its ends
    and no line break: normalizing it again changes nothing, and every
    white-space character in it is one space followed by a character
    that is not white space. *)
Theorem page_text_is_normalized (items : list TextItem) :
  collapseWhitespace (pageTextOf items) = pageTextOf items
  /\ trim (pageTextOf items) = pageTextOf items
  /\ ~ In LF (pageTextOf items)
  /\ forall u c v, pageTextOf items = u ++ c :: v -> isWhiteSpace c = true ->
       c = " "%char /\ exists d v', v = d :: v' /\ isWhiteSpace d = false.
Proof.
  set (raw := join (lit " ") (map itemText items)).
  assert (Hc : collapseWhitespace (pageTextOf items) = pageTextOf items).
  { unfold pageTextOf. apply collapsed_trim. exact (collapse_idempotent raw false). }
  assert (Ht : trim (pageTextOf items) = pageTextOf items).
  { unfold pageTextOf. apply trim_idempotent. }
  assert (Hs : forall u c v, pageTextOf items = u ++ c :: v -> isWhiteSpace c = true ->
                 c = " "%char /\ exists d v', v = d :: v' /\ isWhiteSpace d = false).
  { intros u c v E Hw.
    assert (E' : collapseFrom false (pageTextOf items) = pageTextOf items) by exact Hc.
    rewrite E in E'.
    destruct (collapsed_spaces_from u c v Hw false E') as [Hsp Hnext].
    split; [exact Hsp |].
    destruct v as [|d v'].
    - exfalso. unfold pageTextOf in E. fold raw in E.
      destruct (trim_ends (collapseWhitespace raw))
        as [E0 | (c0 & r0 & m0 & d0 & _ & Em & _ & Hd)].
      + rewrite E0 in E. destruct u; discriminate.
      + rewrite Em in E. apply app_inj_tail in E. destruct E as [_ ->]. congruence.
    - exists d, v'. split; [reflexivity |]. exact (Hnext d v' eq_refl). }
  conjuncts; try assumption.
  intro Hin. apply in_split in Hin. destruct Hin as (u & v & E).
  destruct (Hs u LF v E eq_refl) as [Hsp _]. discriminate.
Qed.

(** X14.  The text of every highlight that [findExactTextHighlights] returns
    is normalized in the same way: no run of white space and no white
    space at its ends. *)
Theorem highlight_text_is_normalized (contractText : str) (exactTexts : list str) (h : Highlight) :
  In h (findExactTextHighlights contractText exactTexts) ->
  collapseWhitespace (text h) = text h /\ trim (text h) = text h.
Proof.
  intro Hin. unfold findExactTextHighlights in Hin.
  apply (proj1 (forEachIndexed_In _ _ _ h exactTexts 0)) in Hin.
  destruct Hin as (k & exactText & _ & Hin).
  destruct (highlightsOfText_cases contractText exactText (0 + k))
    as [[E _] | (found & before & after & _ & _ & _ & _ & E)];
    rewrite E in Hin; [contradiction |].
  destruct Hin as [<- | []]. cbn [text]. split.
  - exact (collapse_idempotent (trim exactText) false).
  - exact (trim_collapsed_trim exactText).
Qed.

End Normalization.

(** ** Page markers, written and read back *)

Section PageNumbers.
Import JS Regex PdfTextExtractor ChatInterface.

Lemma parseDigits_from (d : Decimal.uint) :
  forall acc : positive,
    fold_left (fun a c => (10 * a + digitValue c)%N) (lit (NilEmpty.string_of_uint d)) (Npos acc)
    = Npos (Pos.of_uint_acc d acc).
Proof.
  induction d as [|d IH|d IH|d IH|d IH|d IH|d IH|d IH|d IH|d IH|d IH]; intro acc;
    [reflexivity | cbn [NilEmpty.string_of_uint lit list_ascii_of_string fold_left Pos.of_uint_acc];
                   fold (lit (NilEmpty.string_of_uint d)); rewrite <- IH; f_equal;
                   unfold digitValue, code; cbn [N_of_ascii]; vm_compute N_of_digits; lia ..].
Qed.

Lemma parseDigits_of_uint (d : Decimal.uint) :
  parseDigits (lit (NilEmpty.string_of_uint d)) = N.of_uint d.
Proof.
  unfold parseDigits, N.of_uint.
  induction d as [|d IH|d IH|d IH|d IH|d IH|d IH|d IH|d IH|d IH|d IH];
    [reflexivity | exact IH
     | cbn [NilEmpty.string_of_uint lit list_ascii_of_string fold_left Pos.of_uint];
       fold (lit (NilEmpty.string_of_uint d)); rewrite <- parseDigits_from; reflexivity ..].
Qed.

(** [parseInt] reads back the decimal form of a number. *)
Lemma parseDigits_NToString (n : N) : parseDigits (NToString n) = n.
Proof.
  unfold NToString. rewrite parseDigits_of_uint. apply DecimalN.Unsigned.of_to.
Qed.

Lemma NToString_digits (n : N) :
  exists c u, NToString n = c :: u /\ isDigit c = true
              /\ Forall (fun c => isDigit c = true) u.
Proof.
  pose proof (string_of_uint_digits (N.to_uint n)) as H. fold (NToString n) in H.
  destruct (NToString n) as [|c u] eqn:E.
  - exfalso. unfold NToString in E.
    assert (Hnil : N.to_uint n <> Decimal.Nil).
    { destruct n as [|p]; [discriminate | apply DecimalPos.Unsigned.to_uint_nonnil]. }
    destruct (N.to_uint n); (contradiction || discriminate).
  - exists c, u. inversion H; subst. conjuncts; [reflexivity | assumption | assumption].
Qed.

Lemma greedyStar_run (R : Type) (ok : ascii -> bool) (k : str -> option R) (v : str) (r : R) :
  k v = Some r ->
  (forall c v', v = c :: v' -> ok c = false) ->
  forall u, Forall (fun c => ok c = true) u -> greedyStar ok k (u ++ v) = Some (u, r).
Proof.
  intros Hk Hv. induction 1 as [|c u Hc _ IH]; simpl.
  - destruct v as [|c v']; simpl; rewrite Hk; [reflexivity |].
    rewrite (Hv c v' eq_refl). reflexivity.
  - rewrite Hc, IH. reflexivity.
Qed.

(** The pattern matches the marker that [pageMarker] writes, with the
    digits of the number as its group. *)
Lemma pageMarkerAt_pageMarker (n : N) (after : str) :
  pageMarkerAt (pageMarker n ++ after) = Some (NToString n, after).
Proof.
  unfold pageMarkerAt, pageMarker, literal at 1.
  rewrite <- !app_assoc, stripPrefix_app.
  destruct (NToString_digits n) as (c & u & -> & Hc & Hu).
  cbn [app greedyPlus]. rewrite Hc.
  rewrite (greedyStar_run _ isDigit (literal (lit " ---") (@Some str))
             (lit " ---" ++ after) after).
  - reflexivity.
  - unfold literal. rewrite stripPrefix_app. reflexivity.
  - intros d v' E. injection E as <- _. reflexivity.
  - exact Hu.
Qed.

Lemma pageMarkerAt_headed : headedBy "-" pageMarkerAt.
Proof.
  split; [reflexivity |]. intros d t H. unfold pageMarkerAt.
  change (lit "--- PAGE ") with ("-"%char :: lit "-- PAGE ").
  exact (proj2 (literal_headed _ "-" (lit "-- PAGE ") _) d t H).
Qed.

Lemma scanFrom_over (G : Type) (p : patternAt G) (v : str) :
  forall u, scanFrom p (length u) (u ++ v) = scanFrom p 0 v.
Proof.
  induction u as [|c u IH]; [reflexivity | exact IH].
Qed.

Lemma scanFrom_marker (n : N) (rest : str) :
  scanFrom pageMarkerAt 0 (pageMarker n ++ rest)
  = (pageMarker n, NToString n) :: scanFrom pageMarkerAt 0 rest.
Proof.
  assert (Em : exists m', pageMarker n = "-"%char :: m') by (eexists; reflexivity).
  destruct Em as [m' Em].
  pose proof (pageMarkerAt_pageMarker n rest) as Hp.
  rewrite Em in Hp |- *. cbn [app scanFrom]. cbn [app] in Hp. rewrite Hp.
  replace (length ("-"%char :: m' ++ rest) - length rest) with (S (length m'))
    by (cbn [length]; rewrite length_app; lia).
  cbn [firstn]. rewrite firstn_app, Nat.sub_diag, firstn_all. cbn [firstn].
  rewrite app_nil_r.
  replace (S (length m') - 1) with (length m') by lia.
  rewrite scanFrom_over. reflexivity.
Qed.

(** The page markers found in a text whose parts hold no hyphen are the
    markers between the parts, in order. *)
Lemma matchAll_markedText (blocks : list (N * str)) :
  forall head,
    ~ In "-"%char head ->
    Forall (fun b => ~ In "-"%char (snd b)) blocks ->
    matchAll pageMarkerAt (markedText head blocks)
    = map (fun b => (pageMarker (fst b), NToString (fst b))) blocks.
Proof.
  unfold matchAll, markedText.
  induction blocks as [|[n t] blocks IH]; intros head Hhead Hblocks; cbn [flat_map map fst snd].
  - rewrite app_nil_r. exact (scanFrom_absent _ "-" pageMarkerAt pageMarkerAt_headed head 0 Hhead).
  - inversion Hblocks as [|b bs Ht Hrest]; subst. cbn [snd] in Ht.
    rewrite (scanFrom_past _ "-" pageMarkerAt pageMarkerAt_headed head _ Hhead).
    rewrite <- app_assoc, scanFrom_marker. f_equal. exact (IH t Ht Hrest).
Qed.

Lemma last_hd_rev (A : Type) (l : list A) (d : A) : last l d = hd d (rev l).
Proof.
  induction l as [|a l _] using rev_ind; [reflexivity |].
  rewrite last_last, rev_app_distr. reflexivity.
Qed.

(** X17.  The resolver reads back the page numbers that the extractor
    writes.  In a text made of parts without hyphen with a page marker
    before each part but the first, the shape of an extracted contract,
    the page detected is the number of the last marker, and 1 when there
    is no marker, for page numbers below 2^53, where [parseInt] is
    exact. *)
Theorem page_marker_read_back (head : str) (blocks : list (N * str)) :
  ~ In "-"%char head ->
  Forall (fun b => (fst b < 2 ^ 53)%N /\ ~ In "-"%char (snd b)) blocks ->
  pageNumberBefore (markedText head blocks) = last (map fst blocks) 1%N
  /\ map fst (matchAll pageMarkerAt (markedText head blocks))
     = map (fun b => pageMarker (fst b)) blocks.
Proof.
  intros Hhead Hblocks.
  assert (Hplain : Forall (fun b : N * str => ~ In "-"%char (snd b)) blocks).
  { apply (Forall_impl _ (fun b H => proj2 H) Hblocks). }
  pose proof (matchAll_markedText blocks head Hhead Hplain) as Hscan.
  assert (Hmarkers : map fst (matchAll pageMarkerAt (markedText head blocks))
                     = map (fun b => pageMarker (fst b)) blocks).
  { rewrite Hscan, map_map. reflexivity. }
  split; [| exact Hmarkers].
  unfold pageNumberBefore. rewrite Hmarkers, last_hd_rev, <- !map_rev.
  destruct (rev blocks) as [|[n t] earlier]; cbn [map hd fst]; [reflexivity |].
  assert (Efirst : execFirst pageMarkerAt (pageMarker n) = Some (NToString n)).
  { pose proof (pageMarkerAt_pageMarker n []) as Hp. rewrite app_nil_r in Hp.
    assert (Em : exists m', pageMarker n = "-"%char :: m') by (eexists; reflexivity).
    destruct Em as [m' Em]. rewrite Em in Hp |- *. cbn [execFirst]. rewrite Hp. reflexivity. }
  rewrite Efirst. apply parseDigits_NToString.
Qed.

End PageNumbers.

(** ** The text layer over any code units: what a search returns *)

Section WideSearch.
Import TextLayerSearch.
Variable U : Type.
Variable eqU : U -> U -> bool.
Variable SPACE : U.
Variable toLowerCase : list U -> list U.
Variable trim : list U -> list U.
Variable Box : Type.
Hypothesis eqU_spec : forall a b, eqU a b = true <-> a = b.

Lemma wide_stripPrefix_app (p r : list U) : stripPrefix eqU p (p ++ r) = Some r.
Proof.
  induction p as [|a p IH]; simpl; [reflexivity |].
  rewrite (proj2 (eqU_spec a a) eq_refl). exact IH.
Qed.

Lemma wide_stripPrefix_some (p : list U) :
  forall s r, stripPrefix eqU p s = Some r -> s = p ++ r.
Proof.
  induction p as [|a p IH]; intros s r; simpl.
  - intro H. injection H as <-. reflexivity.
  - destruct s as [|b s]; [discriminate |].
    destruct (eqU a b) eqn:E; [| discriminate].
    apply eqU_spec in E. subst b. intro H. apply IH in H. rewrite H. reflexivity.
Qed.

Lemma wide_startsWith_iff (p s : list U) :
  startsWith eqU p s = true <-> exists r, s = p ++ r.
Proof.
  unfold startsWith. split.
  - destruct (stripPrefix eqU p s) as [r|] eqn:E; [| discriminate].
    intros _. exists r. exact (wide_stripPrefix_some p s r E).
  - intros [r ->]. rewrite wide_stripPrefix_app. reflexivity.
Qed.

Lemma wide_startsWith_empty_hay (needle : list U) :
  needle <> [] -> startsWith eqU needle [] = false.
Proof.
  destruct needle; [contradiction | reflexivity].
Qed.

(** The occurrences listed are the places where the text holds the
    needle. *)
Lemma wide_occurrencesAt_spec (needle : list U) :
  forall hay pos found,
    In found (occurrencesAt eqU needle hay pos)
    <-> exists before after, hay = before ++ needle ++ after /\ found = pos + length before.
Proof.
  induction hay as [|c hay IH]; intros pos found; cbn [occurrencesAt].
  - rewrite app_nil_r. split.
    + destruct (startsWith eqU needle []) eqn:E; [| contradiction].
      intros [<- | []]. apply wide_startsWith_iff in E. destruct E as [r E].
      exists [], r. split; [exact E | simpl; lia].
    + intros (before & after & E & ->).
      destruct before; [| discriminate]. simpl in E.
      replace (startsWith eqU needle []) with true
        by (symmetry; apply wide_startsWith_iff; exists after; exact E).
      left. simpl. lia.
  - rewrite in_app_iff, IH. split.
    + intros [H | (before & after & E & ->)].
      * destruct (startsWith eqU needle (c :: hay)) eqn:Es; [| contradiction].
        destruct H as [<- | []]. apply wide_startsWith_iff in Es. destruct Es as [r E].
        exists [], r. split; [exact E | simpl; lia].
      * exists (c :: before), after. split; [rewrite E; reflexivity | simpl; lia].
    + intros (before & after & E & ->). destruct before as [|c' before].
      * left. simpl in E.
        replace (startsWith eqU needle (c :: hay)) with true
          by (symmetry; apply wide_startsWith_iff; exists after; exact E).
        left. simpl. lia.
      * right. simpl in E. injection E as _ E.
        exists before, after. split; [exact E | simpl; lia].
Qed.

Lemma wide_findAt_first_occurrence (needle : list U) :
  forall (hay : list U) (pos : nat),
    findAt eqU needle hay pos = hd_error (occurrencesAt eqU needle hay pos).
Proof.
  induction hay as [|c hay IH]; intro pos; simpl.
  - destruct (startsWith eqU needle []); reflexivity.
  - destruct (startsWith eqU needle (c :: hay)); simpl; [reflexivity | apply IH].
Qed.

Lemma wide_findAt_some_split (needle : list U) :
  needle <> [] ->
  forall (hay : list U) (pos found : nat),
    findAt eqU needle hay pos = Some found ->
    exists before c after,
      hay = before ++ c :: after
      /\ found = pos + length before
      /\ occurrencesAt eqU needle hay pos
         = found :: occurrencesAt eqU needle after (S found).
Proof.
  intros Hne. induction hay as [|c hay IH]; intros pos found; simpl.
  - rewrite (wide_startsWith_empty_hay needle Hne). discriminate.
  - destruct (startsWith eqU needle (c :: hay)).
    + intro H. injection H as <-. exists [], c, hay. simpl.
      split; [reflexivity |]. split; [lia | reflexivity].
    + intro H. destruct (IH (S pos) found H) as (before & c' & after & E1 & E2 & E3).
      exists (c :: before), c', after. simpl.
      split; [rewrite E1; reflexivity |]. split; [lia | exact E3].
Qed.

Lemma wide_findAt_some (needle : list U) :
  forall hay pos found,
    findAt eqU needle hay pos = Some found ->
    exists before after, hay = before ++ needle ++ after /\ found = pos + length before.
Proof.
  intros hay pos found H. apply (wide_occurrencesAt_spec needle hay pos found).
  rewrite wide_findAt_first_occurrence in H.
  destruct (occurrencesAt eqU needle hay pos) as [|f l]; [discriminate |].
  injection H as <-. left. reflexivity.
Qed.

Lemma wide_positionsFrom_cons (e : TextData U Box) (rest : list (TextData U Box))
      (index : nat) (full : list U) :
  positionsFrom SPACE (e :: rest) index full
  = (positionOf e index full
       :: fst (positionsFrom SPACE rest (S index) (full ++ tdText e ++ [SPACE])),
     snd (positionsFrom SPACE rest (S index) (full ++ tdText e ++ [SPACE]))).
Proof.
  cbn [positionsFrom].
  destruct (positionsFrom SPACE rest (S index) (full ++ tdText e ++ [SPACE])); reflexivity.
Qed.

(** Every offset of the text of a page lies in the range of some element,
    the separator after an element counting as its end. *)
Lemma wide_positionsFrom_cover (entries : list (TextData U Box)) :
  forall (index : nat) (full : list U) (p : nat),
    length full <= p < length (snd (positionsFrom SPACE entries index full)) ->
    exists pos, In pos (fst (positionsFrom SPACE entries index full))
                /\ startIndex pos <= p <= endIndex pos.
Proof.
  induction entries as [|e rest IH]; intros index full p.
  - simpl. lia.
  - rewrite wide_positionsFrom_cons. cbn [fst snd]. intros [Hlo Hhi].
    destruct (Nat.le_gt_cases p (length full + length (tdText e))) as [Hin | Hout].
    + exists (positionOf e index full). split; [left; reflexivity |]. simpl. lia.
    + destruct (IH (S index) (full ++ tdText e ++ [SPACE]) p) as (pos & Hpos & Hr).
      * rewrite !length_app. simpl. lia.
      * exists pos. split; [right; exact Hpos | exact Hr].
Qed.

Lemma wide_matchingElements_cover (textMap : list (TextData U Box)) (from to : nat) :
  from < length (fullPageTextOf SPACE textMap) -> from <= to ->
  matchingElements (elementPositions SPACE textMap) from to <> [].
Proof.
  intros Hlt Hle.
  destruct (wide_positionsFrom_cover textMap 0 [] from) as (pos & Hin & Hr).
  { simpl. unfold fullPageTextOf in Hlt. lia. }
  intro Hnil.
  assert (Hf : In pos (matchingElements (elementPositions SPACE textMap) from to)).
  { unfold matchingElements. apply filter_In. split; [exact Hin |].
    apply andb_true_iff. split; apply Nat.leb_le; lia. }
  rewrite Hnil in Hf. contradiction.
Qed.

Lemma wide_searchLoop_occurrences
      (needle hay : list U) (positions : list (ElementPosition U Box)) :
  needle <> [] ->
  (forall found, found < length hay ->
     matchingElements positions found (found + length needle) <> []) ->
  forall (fuel : nat) (before after : list U),
    hay = before ++ after ->
    length after < fuel ->
    searchLoop eqU fuel needle hay positions (length before)
    = Some (map (matchAt positions needle) (occurrencesAt eqU needle after (length before))).
Proof.
  intros Hne Hcover. induction fuel as [|fuel IH]; intros before after Hhay Hfuel.
  - lia.
  - cbn [searchLoop]. unfold indexOf.
    assert (Hmin : Nat.min (length before) (length hay) = length before).
    { rewrite Hhay, length_app. lia. }
    rewrite Hmin.
    assert (Hskip : skipn (length before) hay = after).
    { rewrite Hhay, skipn_app, skipn_all, Nat.sub_diag. reflexivity. }
    rewrite Hskip.
    destruct (findAt eqU needle after (length before)) as [found|] eqn:Efind.
    + destruct (wide_findAt_some_split needle Hne after (length before) found Efind)
        as (mid & c & rest & E1 & E2 & E3).
      rewrite E3. cbn [map].
      assert (Hlen : found < length hay).
      { rewrite Hhay, E1, !length_app. simpl. lia. }
      assert (Hpush : (0 <? length (elements (matchAt positions needle found))) = true).
      { apply Nat.ltb_lt. simpl.
        destruct (matchingElements positions found (found + length needle)) eqn:Em.
        - exfalso. exact (Hcover found Hlen Em).
        - simpl. lia. }
      rewrite Hpush.
      specialize (IH (before ++ mid ++ [c]) rest).
      replace (length (before ++ mid ++ [c])) with (found + 1) in IH
        by (rewrite !length_app; simpl; lia).
      rewrite IH.
      * replace (found + 1) with (S found) by lia. reflexivity.
      * rewrite Hhay, E1, <- !app_assoc. reflexivity.
      * rewrite E1, length_app in Hfuel. simpl in Hfuel. lia.
    + rewrite wide_findAt_first_occurrence in Efind.
      destruct (occurrencesAt eqU needle after (length before)); [reflexivity | discriminate].
Qed.

Lemma wide_searchLoop_sound
      (needle hay : list U) (positions : list (ElementPosition U Box)) :
  forall fuel searchIndex matches,
    searchLoop eqU fuel needle hay positions searchIndex = Some matches ->
    Forall (fun m => exists before after,
                       hay = before ++ needle ++ after
                       /\ m = matchAt positions needle (length before)) matches.
Proof.
  induction fuel as [|fuel IH]; intros searchIndex matches; cbn [searchLoop].
  - discriminate.
  - destruct (indexOf eqU needle hay searchIndex) as [found|] eqn:E.
    + destruct (searchLoop eqU fuel needle hay positions (found + 1)) as [more|] eqn:Emore;
        [| discriminate].
      intro H. injection H as <-. apply Forall_app. split; [| exact (IH _ _ Emore)].
      match goal with |- Forall _ (if ?c then _ else _) => destruct c end; [| constructor].
      constructor; [| constructor].
      unfold indexOf in E.
      destruct (wide_findAt_some needle _ _ _ E) as (before & after & E1 & E2).
      exists (firstn (Nat.min searchIndex (length hay)) hay ++ before), after.
      split.
      * rewrite <- app_assoc, <- E1. symmetry. apply firstn_skipn.
      * rewrite length_app, length_firstn, E2. f_equal. lia.
    + intro H. injection H as <-. constructor.
Qed.

(** X16.  Take a page whose text keeps its length when lower-cased, and
    a search text that is not blank.  The search of the page returns, and
    returns one match for each place where the lower-cased text of the
    page holds the trimmed, lower-cased search text, in order, each with
    a non-empty list of the elements that intersect its range. *)
Theorem search_returns_every_occurrence
        (pageTextMaps : PageTextMaps U Box) (text : list U) (pageNum : N)
        (textMap : list (TextData U Box)) (fuel : nat) :
  getPage pageTextMaps pageNum = Some textMap ->
  length (toLowerCase (fullPageTextOf SPACE textMap)) = length (fullPageTextOf SPACE textMap) ->
  trim (toLowerCase text) <> [] ->
  length (fullPageTextOf SPACE textMap) < fuel ->
  let needle := trim (toLowerCase text) in
  let hay := toLowerCase (fullPageTextOf SPACE textMap) in
  exists matches,
    findTextInTextLayer eqU SPACE toLowerCase trim fuel pageTextMaps text pageNum = Some matches
    /\ map (@matchStart U Box) matches = occurrences eqU needle hay
    /\ (forall found,
          In found (map (@matchStart U Box) matches)
          <-> exists before after, hay = before ++ needle ++ after /\ found = length before)
    /\ Forall (fun m => elements m <> []
                        /\ elements m = matchingElements (elementPositions SPACE textMap)
                                                         (matchStart m) (matchEnd m)
                        /\ matchEnd m = matchStart m + length needle) matches.
Proof.
  intros Hpage Hlen Hne Hfuel needle hay. fold hay in Hlen.
  assert (Hlong : 0 < length needle).
  { unfold needle. destruct (trim (toLowerCase text)); [contradiction | simpl; lia]. }
  exists (map (matchAt (elementPositions SPACE textMap) needle) (occurrences eqU needle hay)).
  assert (Hstarts : map (@matchStart U Box)
                        (map (matchAt (elementPositions SPACE textMap) needle)
                             (occurrences eqU needle hay))
                    = occurrences eqU needle hay).
  { rewrite map_map. simpl. apply map_id. }
  conjuncts.
  - unfold findTextInTextLayer. rewrite Hpage.
    apply (wide_searchLoop_occurrences needle hay (elementPositions SPACE textMap) Hne)
      with (before := []).
    + intros found Hfound. apply wide_matchingElements_cover; lia.
    + reflexivity.
    + lia.
  - exact Hstarts.
  - intro found. rewrite Hstarts. unfold occurrences.
    exact (wide_occurrencesAt_spec needle hay 0 found).
  - apply Forall_forall. intros m Hm. apply in_map_iff in Hm.
    destruct Hm as (found & <- & Hin). simpl.
    apply (proj1 (wide_occurrencesAt_spec needle hay 0 found)) in Hin.
    destruct Hin as (before & after & Ehay & ->).
    split; [| split; reflexivity].
    apply wide_matchingElements_cover; [| lia].
    rewrite <- Hlen, Ehay, !length_app. lia.
Qed.

(** X7.  Take a page whose text keeps its length when lower-cased.  In
    every match returned for a search of the page, the range of the match
    in the lower-cased text of the page holds the trimmed, lower-cased
    search text, and the elements of the match cover the range: every
    offset of it lies in an element of the match or on the separator
    that follows one. *)
Theorem match_elements_cover_range
        (pageTextMaps : PageTextMaps U Box) (text : list U) (pageNum : N)
        (textMap : list (TextData U Box)) (fuel : nat)
        (matches : list (Match U Box)) (m : Match U Box) :
  getPage pageTextMaps pageNum = Some textMap ->
  length (toLowerCase (fullPageTextOf SPACE textMap)) = length (fullPageTextOf SPACE textMap) ->
  findTextInTextLayer eqU SPACE toLowerCase trim fuel pageTextMaps text pageNum = Some matches ->
  In m matches ->
  firstn (matchEnd m - matchStart m)
         (skipn (matchStart m) (toLowerCase (fullPageTextOf SPACE textMap)))
  = trim (toLowerCase text)
  /\ forall offset,
       matchStart m <= offset < matchEnd m ->
       exists pos, In pos (elements m)
                   /\ In pos (elementPositions SPACE textMap)
                   /\ startIndex pos <= offset <= endIndex pos.
Proof.
  intros Hpage Hlen Hfind Hin. unfold findTextInTextLayer in Hfind. rewrite Hpage in Hfind.
  pose proof (wide_searchLoop_sound _ _ _ _ _ _ Hfind) as Hall.
  rewrite Forall_forall in Hall.
  destruct (Hall m Hin) as (before & after & Ehay & ->). simpl.
  set (needle := trim (toLowerCase text)) in *.
  split.
  - rewrite Ehay, skipn_app, skipn_all, Nat.sub_diag. simpl.
    replace (length before + length needle - length before) with (length needle) by lia.
    rewrite firstn_app, firstn_all, Nat.sub_diag. simpl. apply app_nil_r.
  - intros offset Hoff.
    assert (Hfull : length (fullPageTextOf SPACE textMap)
                    = length before + length needle + length after).
    { rewrite <- Hlen, Ehay, !length_app. lia. }
    destruct (wide_positionsFrom_cover textMap 0 [] offset) as (pos & Hpos & Hr).
    { simpl. unfold fullPageTextOf in Hfull. lia. }
    exists pos. split; [| split; [exact Hpos | exact Hr]].
    unfold matchingElements. apply filter_In. split; [exact Hpos |].
    apply andb_true_iff. split; apply Nat.leb_le; lia.
Qed.

End WideSearch.

(** On UTF-16 code units the hypothesis on the length is needed.  The
    page made of four capital I with dot above and of the word net has a
    text of 9 code units and a lower-cased text of 13, in which net
    stands at offset 9: past the end of every element.  The search for
    net returns no match. *)
Example lengthened_page_text_loses_match :
  let page := TextLayerSearch.dottedPage in
  let search := @TextLayerSearch.findTextInTextLayer N
                  N.eqb 32%N TextLayerSearch.lowerUnits TextLayerSearch.trimUnits unit in
  length (TextLayerSearch.fullPageTextOf 32%N page) = 9
  /\ length (TextLayerSearch.lowerUnits (TextLayerSearch.fullPageTextOf 32%N page)) = 13
  /\ TextLayerSearch.occurrences N.eqb (TextLayerSearch.units "net")
       (TextLayerSearch.lowerUnits (TextLayerSearch.fullPageTextOf 32%N page)) = [9]
  /\ search 20 [(1%N, page)] (TextLayerSearch.units "net") 1%N = Some [].
Proof.
  conjuncts; evaluate.
Qed.

(** ** The properties at concrete inputs *)

Section Instances.
Import JS PdfTextExtractor ChatInterface Scenarios.

Lemma resolver_finds_occurring_text_witness :
  exists h, In h (findExactTextHighlights noticeContract [lit "short"; noticePhrase])
            /\ text h = collapseWhitespace (trim noticePhrase).
Proof.
  apply (resolver_finds_occurring_text noticeContract [lit "short"; noticePhrase] noticePhrase).
  - right. left. reflexivity.
  - vm_compute. lia.
  - exists (firstn 36 (toLowerCase (collapseWhitespace noticeContract))), (lit ".").
    vm_compute. reflexivity.
Defined.

Lemma resolver_highlights_are_first_occurrences_witness :
  let h := noticeHighlight "0" in
  exists k exactText before after,
    nth_error [noticePhrase] k = Some exactText
    /\ 5 <= length exactText
    /\ text h = collapseWhitespace (trim exactText)
    /\ toLowerCase (collapseWhitespace noticeContract)
       = before ++ toLowerCase (text h) ++ after
    /\ (forall before' after',
          toLowerCase (collapseWhitespace noticeContract)
          = before' ++ toLowerCase (text h) ++ after' ->
          length before <= length before')
    /\ id h = lit "exact-highlight-" ++ natToString k ++ lit "-" ++ natToString (length before)
    /\ width (bounds h) = length (text h) * 6.
Proof.
  intro h.
  apply (resolver_highlights_are_first_occurrences noticeContract [noticePhrase] h).
  vm_compute. left. reflexivity.
Defined.

Lemma citation_extracted_closed_or_cut_witness :
  let t := lit " payable within 30 days " in
  In (trim t)
     (exactTextsToHighlight (lit "The fee is " ++ MARKER ++ t ++ MARKER ++ lit ".") feeQuestion)
  /\ In (trim t) (exactTextsToHighlight (lit "The fee is " ++ MARKER ++ t) feeQuestion).
Proof.
  intro t.
  apply (citation_extracted_closed_or_cut (lit "The fee is ") t (lit ".") feeQuestion).
  - vm_compute. intuition discriminate.
  - vm_compute. intuition discriminate.
  - repeat (apply Forall_cons; [reflexivity |]). apply Forall_nil.
  - vm_compute. lia.
Defined.

Lemma plain_answer_clears_highlights_witness :
  let input := lit "Who signs for the supplier?" in
  let answer := lit "The contract does not say who signs." in
  exactTextsToHighlight answer input = []
  /\ App.viewer (App.handleSubmit 2000 2001 input (App.Streamed answer) feeAppAtSecond)
     = ContractViewer.initial.
Proof.
  intros input answer.
  apply (plain_answer_clears_highlights 2000 2001 input answer feeAppAtSecond).
  - vm_compute. discriminate.
  - vm_compute. discriminate.
  - vm_compute. intuition discriminate.
  - vm_compute. intuition discriminate.
  - repeat (apply Forall_cons; [vm_compute; reflexivity |]). apply Forall_nil.
Defined.

Lemma displayed_answer_has_no_marker_witness :
  let answer := lit "The contract does not say who signs." in
  App.cleanContent answer = answer.
Proof.
  intro answer. apply (proj2 (displayed_answer_has_no_marker answer)).
  vm_compute. intuition discriminate.
Defined.

Lemma search_returns_every_occurrence_witness :
  let page := TextLayerSearch.netPage in
  let needle := trim (toLowerCase (lit " Net ")) in
  let hay := toLowerCase (TextLayerSearch.fullPageTextOf " "%char page) in
  exists matches,
    TextLayerSearch.findTextInTextLayer eqc " "%char toLowerCase trim
      20 [(1%N, page)] (lit " Net ") 1 = Some matches
    /\ map (@TextLayerSearch.matchStart ascii unit) matches
       = TextLayerSearch.occurrences eqc needle hay
    /\ (forall found,
          In found (map (@TextLayerSearch.matchStart ascii unit) matches)
          <-> exists before after, hay = before ++ needle ++ after /\ found = length before)
    /\ Forall (fun m =>
                 TextLayerSearch.elements m <> []
                 /\ TextLayerSearch.elements m
                    = TextLayerSearch.matchingElements
                        (TextLayerSearch.elementPositions " "%char page)
                        (TextLayerSearch.matchStart m) (TextLayerSearch.matchEnd m)
                 /\ TextLayerSearch.matchEnd m
                    = TextLayerSearch.matchStart m + length needle) matches.
Proof.
  intros page needle hay.
  apply (search_returns_every_occurrence ascii eqc " "%char toLowerCase trim unit eqc_true
           [(1%N, page)] (lit " Net ") 1 page 20).
  - reflexivity.
  - vm_compute. reflexivity.
  - vm_compute. discriminate.
  - vm_compute. lia.
Defined.

Lemma match_elements_cover_range_witness :
  let page := TextLayerSearch.netPage in
  let positions := TextLayerSearch.elementPositions " "%char page in
  let m := TextLayerSearch.matchAt positions (lit "net") 8 in
  firstn (TextLayerSearch.matchEnd m - TextLayerSearch.matchStart m)
         (skipn (TextLayerSearch.matchStart m)
                (toLowerCase (TextLayerSearch.fullPageTextOf " "%char page)))
  = trim (toLowerCase (lit " Net "))
  /\ forall offset,
       TextLayerSearch.matchStart m <= offset < TextLayerSearch.matchEnd m ->
       exists pos, In pos (TextLayerSearch.elements m)
                   /\ In pos positions
                   /\ TextLayerSearch.startIndex pos <= offset
                      <= TextLayerSearch.endIndex pos.
Proof.
  intros page positions m.
  apply (match_elements_cover_range ascii eqc " "%char toLowerCase trim unit eqc_true
           [(1%N, page)] (lit " Net ") 1 page 20
           (map (TextLayerSearch.matchAt positions (lit "net")) [0; 8; 13]) m).
  - reflexivity.
  - vm_compute. reflexivity.
  - vm_compute. reflexivity.
  - right. left. reflexivity.
Defined.

Lemma POST_answer_classes_witness :
  ChatRoute.POST true (inr sampleRequest) (upstreamAnswering 429 "rate limited")
  = ChatRoute.Json 429 ChatRoute.QUOTA_MESSAGE (Some (lit "rate limited")).
Proof.
  apply (proj2 (proj1 (proj2 (POST_answer_classes true (inr sampleRequest)
                                (upstreamAnswering 429 "rate limited")))
                      ChatRoute.QUOTA_MESSAGE (Some (lit "rate limited")))).
  exists {| ChatRoute.upstreamStatus := 429; ChatRoute.upstreamBody := lit "rate limited" |}.
  conjuncts; try reflexivity.
  exists sampleRequest, (lit "When is payment due?"). conjuncts; reflexivity.
Defined.

Lemma extraction_begins_with_first_page_witness :
  exists tail,
    extractTextFromPDF [[plainItem " "]; [plainItem "alpha"]; [plainItem "bravo"]]
    = Some (pageMarker 2 ++ [LF] ++ pageTextOf [plainItem "alpha"] ++ tail).
Proof.
  apply (proj2 (extraction_begins_with_first_page
                  [[plainItem " "]; [plainItem "alpha"]; [plainItem "bravo"]])
               [[plainItem " "]] [plainItem "alpha"] [[plainItem "bravo"]]).
  - reflexivity.
  - apply Forall_cons; [vm_compute; reflexivity | apply Forall_nil].
  - vm_compute. discriminate.
Defined.

Lemma truncateForChat_shape_witness :
  let text := repeat "a"%char 15001 in
  length (ChatRoute.truncateForChat text) = 15038
  /\ firstn 10500 (ChatRoute.truncateForChat text) = firstn 10500 text
  /\ skipn (10500 + 38) (ChatRoute.truncateForChat text) = skipn (length text - 4500) text.
Proof.
  intro text. apply (proj2 (truncateForChat_shape text)).
  apply Nat.ltb_lt. vm_compute. reflexivity.
Defined.

Lemma next_presses_after_set_witness :
  let newHighlights := [noticeHighlight "0"; noticeHighlight "1"] in
  let st' := Nat.iter 3 (ContractViewer.handleHighlightNavigation ContractViewer.next)
                      (ContractViewer.addHighlights newHighlights ContractViewer.initial) in
  ContractViewer.highlights st' = newHighlights
  /\ ContractViewer.activeHighlight st' = nth_error newHighlights (3 mod length newHighlights)
  /\ (forall valid : ContractViewer.State,
        ContractViewer.highlights valid <> [] ->
        (0 <= ContractViewer.currentHighlight valid
         < Z.of_nat (length (ContractViewer.highlights valid)))%Z ->
        ContractViewer.handleHighlightNavigation ContractViewer.next
          (ContractViewer.handleHighlightNavigation ContractViewer.prev valid) = valid).
Proof.
  intro newHighlights.
  apply (next_presses_after_set newHighlights ContractViewer.initial 3).
  discriminate.
Defined.

Lemma title_drops_first_pdf_witness :
  Upload.documentTitleOf (lit "lease" ++ lit ".pdf" ++ lit ".pdf") = lit "lease" ++ lit ".pdf"
  /\ Upload.documentTitleOf (lit "LEASE.PDF") = lit "LEASE.PDF"
  /\ Upload.handleFileUpload (lit "notes.txt") (lit "text/plain") Upload.initial = Upload.initial.
Proof.
  conjuncts.
  - apply (proj1 (title_drops_first_pdf (lit "lease") (lit ".pdf") (lit "LEASE.PDF")
                    (lit "text/plain") Upload.initial)).
    vm_compute. intuition discriminate.
  - apply (proj1 (proj2 (title_drops_first_pdf (lit "lease") (lit ".pdf") (lit "LEASE.PDF")
                           (lit "text/plain") Upload.initial))).
    apply indexOf_none. reflexivity.
  - apply (proj2 (proj2 (title_drops_first_pdf (lit "lease") (lit ".pdf") (lit "notes.txt")
                           (lit "text/plain") Upload.initial))).
    intro E. vm_compute in E. discriminate E.
Defined.

Lemma page_text_is_normalized_witness :
  let items := [plainItem " charlie  "; {| itemStr := lit "delta"; hasEOL := true |}] in
  pageTextOf items = lit "charlie delta"
  /\ (" "%char = " "%char
      /\ exists d v', lit "delta" = d :: v' /\ isWhiteSpace d = false).
Proof.
  intro items. split; [vm_compute; reflexivity |].
  apply (proj2 (proj2 (proj2 (page_text_is_normalized items))) (lit "charlie") " "%char (lit "delta")).
  - vm_compute. reflexivity.
  - reflexivity.
Defined.

Lemma highlight_text_is_normalized_witness :
  let h := noticeHighlight "0" in
  collapseWhitespace (text h) = text h /\ trim (text h) = text h.
Proof.
  intro h. apply (highlight_text_is_normalized noticeContract [noticePhrase] h).
  vm_compute. left. reflexivity.
Defined.

Lemma page_marker_read_back_witness :
  let blocks := [(1%N, [LF] ++ lit "alpha" ++ [LF; LF]);
                 (2%N, [LF] ++ lit "bravo" ++ [LF; LF]);
                 (3%N, [LF] ++ lit "charlie delta")] in
  markedText [] blocks = threePageContract
  /\ pageNumberBefore (markedText [] blocks) = last (map fst blocks) 1%N
  /\ map fst (Regex.matchAll pageMarkerAt (markedText [] blocks))
     = map (fun b => pageMarker (fst b)) blocks.
Proof.
  intro blocks. split; [vm_compute; reflexivity |].
  apply (page_marker_read_back [] blocks).
  - intros [].
  - repeat (apply Forall_cons; [split; [reflexivity | vm_compute; intuition discriminate] |]).
    apply Forall_nil.
Defined.

Lemma marker_loops_end_witness :
  Regex.execLoop (S (length feeAnswer)) perfectFormat feeAnswer 0
  = Some (Regex.matchAll perfectFormat feeAnswer).
Proof.
  apply (marker_loops_end feeAnswer perfectFormat). left. reflexivity.
Defined.

End Instances.
